(** * Mean-field calculations for LIF populations: the numerical engine

    Shallow embedding of [aux_calcs.py] and
    [lif_meanfield_tools/meanfield_calcs.py].

    Numbers.  Python floats and numpy float64 scalars are read as real
    numbers ([R]); rounding, infinities and NaN are outside this model.
    Complex values are pairs of reals.  Physical units (the [ureg.wraps]
    decorators) are dropped: every function works on magnitudes.

    External numerics.  [scipy.special.erf], [scipy.special.zetac],
    [scipy.integrate.quad], [mpmath.pcfu], [numpy.linalg.eig] and
    [numpy.linalg.inv] are not part of the repository; they are variables
    of the section [Engine].

    Loops.  Every [while] loop of the source is a [Fixpoint] on a fuel
    argument; [Diverge] is returned when the fuel runs out.

    Arrays.  One-dimensional arrays are lists, two-dimensional arrays are
    lists of rows.  Elementwise operations are written with [map2]; they
    agree with numpy on arrays of equal shape, which is what the
    docstrings of the source prescribe. *)

From Stdlib Require Import String.
From Stdlib Require Import Reals Lra Lia List Bool Arith ZArith Psatz.
Import ListNotations.
Local Open Scope R_scope.

(** ** Results of Python computations *)

Inductive exn : Type :=
| TypeError
| IndexError
| ValueError
| LinAlgError
| UnboundLocalError.

Inductive result (A : Type) : Type :=
| Ok (a : A)
| Raise (e : exn)
| Diverge.

Arguments Ok {A} a.
Arguments Raise {A} e.
Arguments Diverge {A}.

Definition bind {A B : Type} (m : result A) (k : A -> result B) : result B :=
  match m with
  | Ok a => k a
  | Raise e => Raise e
  | Diverge => Diverge
  end.

Notation "x <- m ;; k" := (bind m (fun x => k))
  (at level 61, m at next level, right associativity).

(** ** Comparisons of floats, as booleans *)

Definition Rleb (x y : R) : bool := if Rle_dec x y then true else false.
Definition Rltb (x y : R) : bool := if Rlt_dec x y then true else false.
Definition Rgtb (x y : R) : bool := Rltb y x.
Definition Rgeb (x y : R) : bool := Rleb y x.
Definition Reqb (x y : R) : bool := if Req_dec_T x y then true else false.

(** ** Complex numbers *)

Record complex : Type := mkC { re : R; im : R }.

Definition RtoC (x : R) : complex := mkC x 0.
Definition Cadd (a b : complex) : complex := mkC (re a + re b) (im a + im b).
Definition Csub (a b : complex) : complex := mkC (re a - re b) (im a - im b).
Definition Copp (a : complex) : complex := mkC (- re a) (- im a).
Definition Cmul (a b : complex) : complex :=
  mkC (re a * re b - im a * im b) (re a * im b + im a * re b).
Definition Cdiv (a b : complex) : complex :=
  let d := re b * re b + im b * im b in
  mkC ((re a * re b + im a * im b) / d) ((im a * re b - re a * im b) / d).
Definition Cconj (a : complex) : complex := mkC (re a) (- im a).
Definition Cabs (a : complex) : R := sqrt (re a * re a + im a * im a).
Definition Cexp (a : complex) : complex :=
  mkC (exp (re a) * cos (im a)) (exp (re a) * sin (im a)).

(** Python's [complex(x)] and [complex(real, imag)]; the second argument may
    itself be complex, as in [complex(-0.5, complex(omega * tau_m))]. *)
Definition py_complex1 (x : R) : complex := mkC x 0.
Definition py_complex (a : R) (b : complex) : complex :=
  mkC (a - im b) (re b).

Declare Scope complex_scope.
Delimit Scope complex_scope with C.
Bind Scope complex_scope with complex.
Infix "+" := Cadd : complex_scope.
Infix "-" := Csub : complex_scope.
Infix "*" := Cmul : complex_scope.
Infix "/" := Cdiv : complex_scope.
Notation "- x" := (Copp x) : complex_scope.

(** ** Lists as numpy arrays *)

Fixpoint map2 {A B D : Type} (f : A -> B -> D) (l1 : list A) (l2 : list B)
  : list D :=
  match l1, l2 with
  | a :: l1', b :: l2' => f a b :: map2 f l1' l2'
  | _, _ => []
  end.

Fixpoint mapM {A B : Type} (f : A -> result B) (l : list A)
  : result (list B) :=
  match l with
  | [] => Ok []
  | a :: l' => b <- f a ;; bs <- mapM f l' ;; Ok (b :: bs)
  end.

(** [l[i]] for a non-negative index. *)
Definition index {A : Type} (l : list A) (i : nat) : result A :=
  match nth_error l i with
  | Some a => Ok a
  | None => Raise IndexError
  end.

(** [enumerate(l)]. *)
Definition enumerate {A : Type} (l : list A) : list (nat * A) :=
  combine (seq 0 (length l)) l.

Definition mat_map2 {A B D : Type} (f : A -> B -> D)
  (m1 : list (list A)) (m2 : list (list B)) : list (list D) :=
  map2 (map2 f) m1 m2.

(** [np.transpose] of a two-dimensional array. *)
Fixpoint transpose {A : Type} (m : list (list A)) : list (list A) :=
  match m with
  | [] => []
  | r :: rest =>
      match rest with
      | [] => map (fun x => [x]) r
      | _ :: _ => map2 cons r (transpose rest)
      end
  end.

(** [np.zeros(n)], [np.ones((n, n))], [np.identity(n)]. *)
Definition np_zeros (n : nat) : list R := repeat 0 n.
Definition np_ones2 (n m : nat) : list (list R) := repeat (repeat 1 m) n.
Definition np_identity (n : nat) : list (list R) :=
  map (fun i => map (fun j => if Nat.eqb i j then 1 else 0) (seq 0 n))
      (seq 0 n).

Definition Rsum (l : list R) : R := fold_left Rplus l 0.
Definition Csum (l : list complex) : complex := fold_left Cadd l (RtoC 0).

(** [np.dot] of a real matrix with a real vector, of two complex vectors,
    and of two complex matrices. *)
Definition dot_mv (m : list (list R)) (v : list R) : list R :=
  map (fun row => Rsum (map2 Rmult row v)) m.
Definition dot_vv (a b : list complex) : complex := Csum (map2 Cmul a b).
Definition dot_mm (a b : list (list complex)) : list (list complex) :=
  map (fun row => map (fun col => dot_vv row col) (transpose b)) a.

(** [np.outer]. *)
Definition np_outer (a b : list complex) : list (list complex) :=
  map (fun x => map (fun y => Cmul x y) b) a.

(** [np.diag] of a two-dimensional array: its main diagonal. *)
Fixpoint diag_from {A : Type} (i : nat) (m : list (list A)) : list A :=
  match m with
  | [] => []
  | r :: rest =>
      match nth_error r i with
      | Some x => x :: diag_from (S i) rest
      | None => []
      end
  end.

Definition np_diag {A : Type} (m : list (list A)) : list A := diag_from 0 m.

(** Rows of [ncols] entries cut from a flat array. *)
Fixpoint chunks {A : Type} (nrows ncols : nat) (l : list A)
  : list (list A) :=
  match nrows with
  | O => []
  | S n => firstn ncols l :: chunks n ncols (skipn ncols l)
  end.

(** [a.reshape(nrows, ncols)] of a one-dimensional array. *)
Definition np_reshape {A : Type} (l : list A) (nrows ncols : nat)
  : result (list (list A)) :=
  if Nat.eqb (length l) (nrows * ncols) then Ok (chunks nrows ncols l)
  else Raise ValueError.

(** [np.hstack] of a list of one-dimensional arrays. *)
Definition np_hstack {A : Type} (ls : list (list A)) : result (list A) :=
  match ls with
  | [] => Raise ValueError
  | _ :: _ => Ok (concat ls)
  end.

(** Python's builtin [max] over a sequence. *)
Definition py_max (l : list R) : result R :=
  match l with
  | [] => Raise ValueError
  | x :: t => Ok (fold_left (fun m y => if Rgtb y m then y else m) t x)
  end.

(** [np.argmin]: the first index holding the least value. *)
Fixpoint argmin_from (best : R) (besti i : nat) (l : list R) : nat :=
  match l with
  | [] => besti
  | x :: t =>
      if Rltb x best then argmin_from x i (S i) t
      else argmin_from best besti (S i) t
  end.

Definition np_argmin (l : list R) : result nat :=
  match l with
  | [] => Raise ValueError
  | x :: t => Ok (argmin_from x 0 1 t)
  end.

(** ** Python functions with a fixed number of positional parameters *)

Record pyfun (A : Type) : Type :=
  mkfun { params : nat; body : list R -> result A }.

Arguments mkfun {A} params body.
Arguments params {A} p.
Arguments body {A} p args.

(** A call with positional arguments only: a wrong count is a [TypeError]. *)
Definition call {A : Type} (f : pyfun A) (args : list R) : result A :=
  if Nat.eqb (length args) (params f) then body f args
  else Raise TypeError.

(** ** Concrete numerics for the examples

    The library functions are variables of the development; the examples
    run it with the following instances. *)

(** The one-point midpoint rule. *)
Definition quad_midpoint (f : R -> R) (a b : R) : R :=
  (b - a) * f ((a + b) / 2).

(** An odd, increasing sigmoid with values in (-1, 1), in place of erf. *)
Definition erf_sigmoid (x : R) : R := x / sqrt (1 + x ^ 2).

Definition cerf_sigmoid (z : complex) : complex := RtoC (erf_sigmoid (re z)).

(** [scipy.special.zetac(0.5)] to ten decimals. *)
Definition zetac_half (x : R) : R := -2.4603545088.

Definition pcfu_const (z : complex) (x : R) : complex := RtoC 1.

(** Eigen-decomposition and inverse of a 1 x 1 matrix. *)
Definition eig_1x1 (m : list (list complex))
  : result (list complex * list (list complex)) :=
  match m with
  | [[a]] => Ok ([a], [[RtoC 1]])
  | _ => Raise LinAlgError
  end.

Definition inv_1x1 (m : list (list complex)) : result (list (list complex)) :=
  match m with
  | [[a]] =>
      if Reqb (re a) 0 && Reqb (im a) 0 then Raise LinAlgError
      else Ok [[(RtoC 1 / a)%C]]
  | _ => Raise LinAlgError
  end.

(** * aux_calcs.py *)

Section Engine.

(** [scipy.special.erf] on floats and on complex numbers,
    [scipy.special.zetac], the first component of [scipy.integrate.quad],
    [complex(mpmath.pcfu(z, x))], [numpy.linalg.eig] and
    [numpy.linalg.inv]. *)
Variable erf : R -> R.
Variable cerf : complex -> complex.
Variable zetac : R -> R.
Variable quad : (R -> R) -> R -> R -> R.
Variable pcfu : complex -> R -> complex.
Variable eig : list (list complex) -> result (list complex * list (list complex)).
Variable inv : list (list complex) -> result (list (list complex)).

(** ** siegert1 *)

(** The local function [integrand] of [siegert1]. *)
Definition siegert1_integrand (y_th y_r u : R) : R :=
  if Reqb u 0 then
    exp (- (y_th ^ 2)) * 2 * (y_th - y_r)
  else
    exp (- ((u - y_th) ^ 2)) * (1.0 - exp (2 * (y_r - y_th) * u)) / u.

(** First bracket search: halve [lower_bound] while the integrand still
    exceeds 1e-12 and the bound exceeds 1e-16. *)
Fixpoint siegert1_lower (fuel : nat) (y_th y_r err_dn lower_bound : R)
  {struct fuel} : result R :=
  if Rgtb err_dn 1e-12 && Rgtb lower_bound 1e-16 then
    match fuel with
    | O => Diverge
    | S fuel' =>
        let err_dn := siegert1_integrand y_th y_r lower_bound in
        if Rgtb err_dn 1e-12 then
          siegert1_lower fuel' y_th y_r err_dn (lower_bound / 2)
        else
          siegert1_lower fuel' y_th y_r err_dn lower_bound
    end
  else Ok lower_bound.

(** Second bracket search: double [upper_bound] while the integrand still
    exceeds 1e-12. *)
Fixpoint siegert1_upper (fuel : nat) (y_th y_r err_up upper_bound : R)
  {struct fuel} : result R :=
  if Rgtb err_up 1e-12 then
    match fuel with
    | O => Diverge
    | S fuel' =>
        let err_up := siegert1_integrand y_th y_r upper_bound in
        if Rgtb err_up 1e-12 then
          siegert1_upper fuel' y_th y_r err_up (upper_bound * 2)
        else
          siegert1_upper fuel' y_th y_r err_up upper_bound
    end
  else Ok upper_bound.

Definition siegert1 (fuel : nat) (tau_m tau_r V_th_rel V_0_rel mu sigma : R)
  : result R :=
  let y_th := (V_th_rel - mu) / sigma in
  let y_r := (V_0_rel - mu) / sigma in
  lower_bound <- siegert1_lower fuel y_th y_r 1.0 y_th ;;
  upper_bound <- siegert1_upper fuel y_th y_r 1.0 y_th ;;
  let out : option R := None in
  let out := if Rgeb y_th 20 then Some 0 else out in
  let out :=
    if Rltb y_th 20 then
      Some (1.0 / (tau_r + exp (y_th ^ 2)
                    * quad (siegert1_integrand y_th y_r) lower_bound upper_bound
                    * tau_m))
    else out in
  match out with
  | Some v => Ok v
  | None => Raise UnboundLocalError
  end.

(** ** siegert2 *)

Definition siegert2_integrand (y_th y_r u : R) : R :=
  if Reqb u 0 then
    2 * (y_th - y_r)
  else
    (exp (2 * y_th * u - u ^ 2) - exp (2 * y_r * u - u ^ 2)) / u.

Fixpoint siegert2_upper (fuel : nat) (y_th y_r err upper_bound : R)
  {struct fuel} : result R :=
  if Rgtb err 1e-12 then
    match fuel with
    | O => Diverge
    | S fuel' =>
        let err := siegert2_integrand y_th y_r upper_bound in
        siegert2_upper fuel' y_th y_r err (upper_bound * 2)
    end
  else Ok upper_bound.

Definition siegert2 (fuel : nat) (tau_m tau_r V_th_rel V_0_rel mu sigma : R)
  : result R :=
  let y_th := (V_th_rel - mu) / sigma in
  let y_r := (V_0_rel - mu) / sigma in
  upper_bound <- siegert2_upper fuel y_th y_r 1.0 1.0 ;;
  Ok (1.0 / (tau_r + quad (siegert2_integrand y_th y_r) 0.0 upper_bound
                     * tau_m)).

(** ** nu_0 *)

Definition nu_0 (fuel : nat) (tau_m tau_r V_th_rel V_0_rel mu sigma : R)
  : result R :=
  if Rleb mu (V_th_rel + (0.95 * Rabs V_th_rel - Rabs V_th_rel)) then
    siegert1 fuel tau_m tau_r V_th_rel V_0_rel mu sigma
  else
    siegert2 fuel tau_m tau_r V_th_rel V_0_rel mu sigma.

(** ** Phi, on floats and on complex numbers *)

Definition Phi (s : R) : R :=
  sqrt (PI / 2) * (exp (s ^ 2 / 2) * (1 + erf (s / sqrt 2))).

Definition Phi_complex (s : complex) : complex :=
  (RtoC (sqrt (PI / 2))
   * (Cexp (s * s / RtoC 2) * (RtoC 1 + cerf (s / RtoC (sqrt 2)))))%C.

(** ** nu0_fb433 *)

Definition nu0_fb433 (fuel : nat)
  (tau_m tau_s tau_r V_th_rel V_0_rel mu sigma : R) : result R :=
  let alpha := sqrt 2 * Rabs (zetac 0.5 + 1) in
  let x_th := sqrt 2 * (V_th_rel - mu) / sigma in
  let x_r := sqrt 2 * (V_0_rel - mu) / sigma in
  if Rgtb x_th (20.0 / sqrt 2) then
    nu_0 fuel tau_m tau_r V_th_rel V_0_rel mu sigma
  else
    r <- nu_0 fuel tau_m tau_r V_th_rel V_0_rel mu sigma ;;
    let dPhi := Phi x_th - Phi x_r in
    Ok (r - sqrt (tau_s / tau_m) * alpha / (tau_m * sqrt 2)
            * dPhi * (r * tau_m) ^ 2).

(** ** d_nu_d_mu *)

Definition d_nu_d_mu (fuel : nat) (tau_m tau_r V_th_rel V_0_rel mu sigma : R)
  : result R :=
  let y_th := (V_th_rel - mu) / sigma in
  let y_r := (V_0_rel - mu) / sigma in
  nu0 <- nu_0 fuel tau_m tau_r V_th_rel V_0_rel mu sigma ;;
  Ok (sqrt PI * tau_m * nu0 ^ 2 / sigma
      * (exp (y_th ^ 2) * (1 + erf y_th) - exp (y_r ^ 2) * (1 + erf y_r))).

(** [d_nu_d_mu] as a callable: [def d_nu_d_mu(tau_m, tau_r, V_th_rel,
    V_0_rel, mu, sigma)] has six positional parameters. *)
Definition d_nu_d_mu_fun (fuel : nat) : pyfun R :=
  mkfun 6 (fun args =>
    match args with
    | [tau_m; tau_r; V_th_rel; V_0_rel; mu; sigma] =>
        d_nu_d_mu fuel tau_m tau_r V_th_rel V_0_rel mu sigma
    | _ => Raise TypeError
    end).

(** ** Psi and its differences *)

Definition Psi (z : complex) (x : R) : complex :=
  (RtoC (exp (0.25 * x ^ 2)) * pcfu z (- x))%C.

Definition d_Psi (z : complex) (x : R) : complex :=
  ((RtoC (1 / 2) + z) * Psi (z + RtoC 1) x)%C.

Definition Psi_x_r (z : complex) (x y : R) : complex :=
  (Psi z x - Psi z y)%C.

Definition dPsi_x_r (z : complex) (x y : R) : complex :=
  (d_Psi z x - d_Psi z y)%C.

(** * meanfield_calcs.py *)

(** ** firing_rates *)

(** The closure [rate_function] of [firing_rates]. *)
Definition rate_function (fuel : nat) (tau_m tau_s tau_r V_th_rel V_0_rel : R)
  (mu sigma : R) : result R :=
  nu0_fb433 fuel tau_m tau_s tau_r V_th_rel V_0_rel mu sigma.

(** The closure [get_rate_difference] of [firing_rates]. *)
Definition get_rate_difference (fuel : nat)
  (tau_m tau_s tau_r V_0_rel V_th_rel : R) (K J : list (list R)) (j : R)
  (nu_ext : R) (K_ext : list R) (nu : list R) : result (list R) :=
  let m0 := map (fun x => x * tau_m) (dot_mv (mat_map2 Rmult K J) nu) in
  let m_ext := map (fun k => j * k * nu_ext * tau_m) K_ext in
  let mu := map2 Rplus m0 m_ext in
  let var0 :=
    map (fun x => x * tau_m)
        (dot_mv (mat_map2 Rmult K (map (map (fun x => x ^ 2)) J)) nu) in
  let var_ext := map (fun k => j ^ 2 * k * nu_ext * tau_m) K_ext in
  let var := map2 Rplus var0 var_ext in
  let sigma := map sqrt var in
  new_nu <- mapM (fun ms => rate_function fuel tau_m tau_s tau_r V_th_rel
                              V_0_rel (fst ms) (snd ms))
                 (combine mu sigma) ;;
  Ok (map2 Rplus (map Ropp nu) new_nu).

(** The [while eps >= 1e-5] loop; the state is the two rows of [y] and
    [eps]. *)
Fixpoint firing_rates_loop (fuel_rate fuel : nat)
  (tau_m tau_s tau_r V_0_rel V_th_rel : R) (K J : list (list R)) (j : R)
  (nu_ext : R) (K_ext : list R) (dt : R) (y0 y1 : list R) (eps : R)
  {struct fuel} : result (list R) :=
  if Rgeb eps 1e-5 then
    match fuel with
    | O => Diverge
    | S fuel' =>
        delta_y <- get_rate_difference fuel_rate tau_m tau_s tau_r V_0_rel
                     V_th_rel K J j nu_ext K_ext y0 ;;
        let y1 := map2 Rplus y0 (map (fun d => d * dt) delta_y) in
        let epsilon := map2 Rminus y1 y0 in
        eps <- py_max (map Rabs epsilon) ;;
        let y0 := y1 in
        firing_rates_loop fuel_rate fuel' tau_m tau_s tau_r V_0_rel V_th_rel
          K J j nu_ext K_ext dt y0 y1 eps
    end
  else Ok y1.

Definition firing_rates (fuel : nat) (dimension : nat)
  (tau_m tau_s tau_r V_0_rel V_th_rel : R) (K J : list (list R)) (j : R)
  (nu_ext : R) (K_ext : list R) : result (list R) :=
  let dt := 0.05 in
  let y0 := np_zeros dimension in
  let y1 := np_zeros dimension in
  let eps := 1.0 in
  firing_rates_loop fuel fuel tau_m tau_s tau_r V_0_rel V_th_rel K J j
    nu_ext K_ext dt y0 y1 eps.

(** ** mean and standard_deviation *)

Definition mean (nu : list R) (K J : list (list R)) (j tau_m nu_ext : R)
  (K_ext : list R) : list R :=
  let m0 := map (fun x => x * tau_m) (dot_mv (mat_map2 Rmult K J) nu) in
  let m_ext := map (fun k => j * k * nu_ext * tau_m) K_ext in
  let m := map2 Rplus m0 m_ext in
  m.

Definition standard_deviation (nu : list R) (K J : list (list R))
  (j tau_m nu_ext : R) (K_ext : list R) : list R :=
  let var0 :=
    map (fun x => x * tau_m)
        (dot_mv (mat_map2 Rmult K (map (map (fun x => x ^ 2)) J)) nu) in
  let var_ext := map (fun k => j ^ 2 * k * nu_ext * tau_m) K_ext in
  let var := map2 Rplus var0 var_ext in
  let std := map sqrt var in
  std.

(** ** transfer_function_1p_shift *)

Definition transfer_function_1p_shift (fuel : nat)
  (mu sigma tau_m tau_s tau_r V_th_rel V_0_rel omega : R) : result complex :=
  let alpha := sqrt 2 * Rabs (zetac 0.5 + 1) in
  let V_th_rel := V_th_rel + sigma * alpha / 2 * sqrt (tau_s / tau_m) in
  let V_0_rel := V_0_rel + sigma * alpha / 2 * sqrt (tau_s / tau_m) in
  if Rltb (Rabs (omega - 0)) 1e-15 then
    r <- call (d_nu_d_mu_fun fuel)
           [tau_m; tau_s; tau_r; V_th_rel; V_0_rel; mu; sigma] ;;
    Ok (RtoC r)
  else
    nu <- nu_0 fuel tau_m tau_r V_th_rel V_0_rel mu sigma ;;
    let x_t := sqrt 2 * (V_th_rel - mu) / sigma in
    let x_r := sqrt 2 * (V_0_rel - mu) / sigma in
    let z := py_complex (-0.5) (py_complex1 (omega * tau_m)) in
    let frac := (dPsi_x_r z x_t x_r / Psi_x_r z x_t x_r)%C in
    Ok (RtoC (sqrt 2 / sigma * nu)
        / (RtoC 1 + py_complex 0 (py_complex1 (omega * tau_m)))
        * frac)%C.

(** ** transfer_function *)

Definition transfer_function (fuel : nat) (mu sigma : list R)
  (tau_m tau_s tau_r V_th_rel V_0_rel : R) (dimension : nat)
  (omegas : list R) : result (list (list complex)) :=
  transfer_functions <-
    mapM (fun omega =>
            mapM (fun i =>
                    mu_i <- index mu i ;;
                    sigma_i <- index sigma i ;;
                    transfer_function_1p_shift fuel mu_i sigma_i tau_m tau_s
                      tau_r V_th_rel V_0_rel omega)
                 (seq 0 dimension))
         omegas ;;
  (* tf_unit = transfer_functions[0][0].units *)
  tf_population <- index transfer_functions 0 ;;
  _ <- index tf_population 0 ;;
  Ok transfer_functions.

(** ** delay_dist_matrix_single *)

(** [None] is Python's [None]: no branch of the [if]/[elif] chain fired. *)
Definition delay_dist_matrix_single (dimension : nat)
  (Delay Delay_sd : list (list R)) (delay_dist : string) (omega : R)
  : option (list (list complex)) :=
  if String.eqb delay_dist "none" then
    let D := np_ones2 dimension dimension in
    Some (mat_map2 (fun one e => (RtoC one * e)%C) D
            (map (map (fun d => Cexp (- mkC 0 omega * RtoC d)%C)) Delay))
  else if String.eqb delay_dist "truncated_gaussian" then
    let a0 :=
      mat_map2 (fun d sd =>
                  Phi_complex (RtoC (- d / sd) + mkC 0 1 * RtoC omega * RtoC sd)%C)
               Delay Delay_sd in
    let a1 := mat_map2 (fun d sd => Phi (- d / sd)) Delay Delay_sd in
    let b0 := map (map (fun sd => exp (- 0.5 * (sd * omega) ^ 2))) Delay_sd in
    let b1 := map (map (fun d => Cexp (- mkC 0 omega * RtoC d)%C)) Delay in
    Some (mat_map2 Cmul
            (mat_map2 (fun q b => (q * RtoC b)%C)
               (mat_map2 (fun x y => ((RtoC 1.0 - x) / RtoC (1.0 - y))%C) a0 a1)
               b0)
            b1)
  else if String.eqb delay_dist "gaussian" then
    let b0 := map (map (fun sd => exp (- 0.5 * (sd * omega) ^ 2))) Delay_sd in
    let b1 := map (map (fun d => Cexp (- mkC 0 omega * RtoC d)%C)) Delay in
    Some (mat_map2 (fun b e => (RtoC b * e)%C) b0 b1)
  else None.

(** ** The effective connectivity, shared by the spectral functions *)

(** The four statements that open [sensitivity_measure] and
    [power_spectra_single_freq]: conjugate for negative frequencies, scale,
    stack [dimension] copies, reshape and transpose. *)
Definition stacked_H (transfer_function : list complex) (tau_m tau_s : R)
  (dimension : nat) (omega : R) : result (list (list complex)) :=
  let transfer_function :=
    if Rltb omega 0 then map Cconj transfer_function
    else transfer_function in
  let H := map (fun t => (RtoC tau_m * t / mkC 1 (omega * tau_s))%C)
               transfer_function in
  H <- np_hstack (map (fun _ => H) (seq 0 dimension)) ;;
  H <- np_reshape H dimension dimension ;;
  Ok (transpose H).

(** ** sensitivity_measure *)

Definition sensitivity_measure (transfer_function : list complex)
  (delay_dist_matrix : list (list complex)) (J : list (list R))
  (tau_m tau_s : R) (dimension : nat) (omega : R)
  : result (list (list complex)) :=
  H <- stacked_H transfer_function tau_m tau_s dimension omega ;;
  let MH :=
    mat_map2 Cmul (mat_map2 (fun h w => (h * RtoC w)%C) H J)
      delay_dist_matrix in
  eU <- eig MH ;;
  let e := fst eU in
  let U := snd eU in
  U_inv <- inv U ;;
  let index_ : option nat := None in
  index_ <-
    match index_ with
    | None => np_argmin (map (fun x => Cabs (x - RtoC 1)%C) e)
    | Some i => Ok i
    end ;;
  U_inv_row <- index U_inv index_ ;;
  U_col <- mapM (fun row => index row index_) U ;;
  let T := np_outer U_inv_row U_col in
  let T := map (map (fun t => (t / dot_vv U_inv_row U_col)%C)) T in
  let T := mat_map2 Cmul T MH in
  Ok T.

(** ** power_spectra *)

(** [np.diag(np.ones(dimension))] is written [np_identity dimension]. *)

Definition power_spectra_single_freq (tau_m tau_s : R)
  (transfer_function : list complex) (dimension : nat)
  (J K : list (list R)) (delay_dist_matrix : list (list complex))
  (firing_rates : list R) (N : list R) (omega : R) : result (list R) :=
  H <- stacked_H transfer_function tau_m tau_s dimension omega ;;
  let MH :=
    mat_map2 Cmul
      (mat_map2 (fun h k => (h * RtoC k)%C)
         (mat_map2 (fun h w => (h * RtoC w)%C) H J) K)
      delay_dist_matrix in
  Q <- inv (mat_map2 (fun i m => (RtoC i - m)%C) (np_identity dimension) MH) ;;
  let D :=
    map (fun row => map2 Rdiv (map2 Rmult row firing_rates) N)
        (np_identity dimension) in
  let C :=
    dot_mm Q (dot_mm (map (map RtoC) D) (transpose (map (map Cconj) Q))) in
  let spec := map Cabs (np_diag C) in
  Ok spec.

Definition power_spectra (tau_m tau_s : R) (dimension : nat)
  (J K : list (list R)) (delay_dist_matrix : list (list (list complex)))
  (N : list R) (firing_rates : list R)
  (transfer_function : list (list complex)) (omegas : list R)
  : result (list (list R)) :=
  power <-
    mapM (fun io =>
            let i := fst io in
            let omega := snd io in
            tf_i <- index transfer_function i ;;
            ddm_i <- index delay_dist_matrix i ;;
            power_spectra_single_freq tau_m tau_s tf_i dimension J K ddm_i
              firing_rates N omega)
         (enumerate omegas) ;;
  Ok (transpose power).

(** * Reference definitions for the stationary rates *)

(** [scipy.special.zetac] is the Riemann zeta function minus 1. *)
Definition riemann_zeta (s : R) : R := zetac s + 1.

(** The integral of branch A: the quadrature over the bracket found by the
    two searches, scaled by [exp(y_th^2)]. *)
Definition siegert1_integral (fuel : nat) (V_th_rel V_0_rel mu sigma : R)
  : result R :=
  let y_th := (V_th_rel - mu) / sigma in
  let y_r := (V_0_rel - mu) / sigma in
  lower_bound <- siegert1_lower fuel y_th y_r 1 y_th ;;
  upper_bound <- siegert1_upper fuel y_th y_r 1 y_th ;;
  Ok (exp (y_th ^ 2)
      * quad (siegert1_integrand y_th y_r) lower_bound upper_bound).

(** The integral of branch B: the quadrature from 0 to the bound found by
    the search. *)
Definition siegert2_integral (fuel : nat) (V_th_rel V_0_rel mu sigma : R)
  : result R :=
  let y_th := (V_th_rel - mu) / sigma in
  let y_r := (V_0_rel - mu) / sigma in
  upper_bound <- siegert2_upper fuel y_th y_r 1 1 ;;
  Ok (quad (siegert2_integrand y_th y_r) 0 upper_bound).

(** The delta-synapse rate as the specification words it, every branch a
    reciprocal [1 / (tau_r + tau_m * integral)]. *)
Definition stationary_rate_delta_claimed (fuel : nat)
  (tau_m tau_r V_th_rel V_0_rel mu sigma : R) : result R :=
  if Rleb mu (V_th_rel - 0.05 * Rabs V_th_rel) then
    integral <- siegert1_integral fuel V_th_rel V_0_rel mu sigma ;;
    Ok (1 / (tau_r + tau_m * integral))
  else
    integral <- siegert2_integral fuel V_th_rel V_0_rel mu sigma ;;
    Ok (1 / (tau_r + tau_m * integral)).

(** The same with the overflow guard of branch A. *)
Definition stationary_rate_delta_spec (fuel : nat)
  (tau_m tau_r V_th_rel V_0_rel mu sigma : R) : result R :=
  if Rleb mu (V_th_rel - 0.05 * Rabs V_th_rel) then
    integral <- siegert1_integral fuel V_th_rel V_0_rel mu sigma ;;
    if Rleb 20 ((V_th_rel - mu) / sigma) then Ok 0
    else Ok (1 / (tau_r + tau_m * integral))
  else
    integral <- siegert2_integral fuel V_th_rel V_0_rel mu sigma ;;
    Ok (1 / (tau_r + tau_m * integral)).

(** The Fourcaud-Brunel correction for a given constant [alpha]: the
    delta rate [r] first, then [r] itself beyond the bound 20/sqrt 2 and the
    corrected rate otherwise. *)
Definition fourcaud_brunel (alpha : R) (fuel : nat)
  (tau_m tau_s tau_r V_th_rel V_0_rel mu sigma : R) : result R :=
  r <- nu_0 fuel tau_m tau_r V_th_rel V_0_rel mu sigma ;;
  let x_th := sqrt 2 * (V_th_rel - mu) / sigma in
  let x_r := sqrt 2 * (V_0_rel - mu) / sigma in
  if Rltb (20 / sqrt 2) x_th then Ok r
  else
    Ok (r - sqrt (tau_s / tau_m) * alpha / (tau_m * sqrt 2)
            * (Phi x_th - Phi x_r) * (r * tau_m) ^ 2).

(** [alpha] as the specification writes it, and as the source computes it. *)
Definition alpha_claimed : R := sqrt 2 * Rabs (riemann_zeta (1 / 2) + 1).
Definition alpha_zeta : R := sqrt 2 * Rabs (riemann_zeta (1 / 2)).

Definition stationary_rate_filtered_claimed :=
  fourcaud_brunel alpha_claimed.
Definition stationary_rate_filtered_spec :=
  fourcaud_brunel alpha_zeta.

(** A quadrature that returns a non-negative value on an integrand that
    is non-negative over the interval, as any rule with positive weights
    does. *)
Definition quad_nonneg : Prop :=
  forall (f : R -> R) (a b : R),
    a <= b -> (forall u, a <= u <= b -> 0 <= f u) -> 0 <= quad f a b.

(** * Reference definitions for the batch transfer function *)

(** Entry of population [i] at frequency [omega]: the value of the shift
    variant at [mu[i]], [sigma[i]]. *)
Definition shift_entry (fuel : nat) (mu sigma : list R)
  (tau_m tau_s tau_r V_th_rel V_0_rel : R) (omega : R) (i : nat)
  (v : complex) : Prop :=
  exists mu_i sigma_i : R,
    nth_error mu i = Some mu_i /\
    nth_error sigma i = Some sigma_i /\
    transfer_function_1p_shift fuel mu_i sigma_i tau_m tau_s tau_r V_th_rel
      V_0_rel omega = Ok v.

(** A matrix with one row per frequency and, in each row, one entry per
    population. *)
Definition frequency_major (fuel : nat) (mu sigma : list R)
  (tau_m tau_s tau_r V_th_rel V_0_rel : R) (dimension : nat)
  (omegas : list R) (T : list (list complex)) : Prop :=
  Forall2
    (fun omega row =>
       Forall2 (shift_entry fuel mu sigma tau_m tau_s tau_r V_th_rel V_0_rel
                  omega)
               (seq 0 dimension) row)
    omegas T.

(** Shape [rows] x [cols] of a two-dimensional array. *)
Definition has_shape {A : Type} (rows cols : nat) (m : list (list A)) : Prop :=
  length m = rows /\ Forall (fun row => length row = cols) m.

(** * Reference definitions for the delay distribution *)

(** [exp(-i omega d)], by Euler's formula. *)
Definition exp_minus_i (omega d : R) : complex :=
  mkC (cos (omega * d)) (- sin (omega * d)).

(** * Reference definitions for the fixed-point iteration *)

(** The candidate rates: every (mu_i, sigma_i) of the network mean and
    standard deviation mapped through the filtered-synapse rate. *)
Definition candidate_rates (fuel : nat)
  (tau_m tau_s tau_r V_0_rel V_th_rel : R) (K J : list (list R)) (j : R)
  (nu_ext : R) (K_ext : list R) (nu : list R) : result (list R) :=
  mapM (fun ms => nu0_fb433 fuel tau_m tau_s tau_r V_th_rel V_0_rel
                    (fst ms) (snd ms))
       (combine (mean nu K J j tau_m nu_ext K_ext)
                (standard_deviation nu K J j tau_m nu_ext K_ext)).

(** The relaxation update nu <- nu + 0.05 (candidate - nu). *)
Definition relaxation_step (nu candidate : list R) : list R :=
  map2 (fun n c => n + 0.05 * (c - n)) nu candidate.

(** The rate vector after [k] updates, started from [nu]. *)
Fixpoint relaxation (fuel : nat)
  (tau_m tau_s tau_r V_0_rel V_th_rel : R) (K J : list (list R)) (j : R)
  (nu_ext : R) (K_ext : list R) (nu : list R) (k : nat)
  : result (list R) :=
  match k with
  | O => Ok nu
  | S k' =>
      candidate <- candidate_rates fuel tau_m tau_s tau_r V_0_rel V_th_rel
                     K J j nu_ext K_ext nu ;;
      relaxation fuel tau_m tau_s tau_r V_0_rel V_th_rel K J j nu_ext K_ext
        (relaxation_step nu candidate) k'
  end.

(** The maximum absolute change between two successive rate vectors. *)
Definition step_change (nu nu' : list R) : result R :=
  py_max (map Rabs (map2 Rminus nu' nu)).

(** Update [k + 1] of the sequence [rates] is the first whose change drops
    below 1e-5, and [nu] is the vector it produces. *)
Definition stops_at (rates : nat -> result (list R)) (k : nat) (nu : list R)
  : Prop :=
  rates (S k) = Ok nu /\
  (exists (prev : list R) (e : R),
      rates k = Ok prev /\ step_change prev nu = Ok e /\ e < 1e-5) /\
  (forall i : nat, (i < k)%nat ->
     exists (a b : list R) (e : R),
       rates i = Ok a /\ rates (S i) = Ok b /\
       step_change a b = Ok e /\ 1e-5 <= e).

(** * Reference definitions for the spectral analysis *)

(** [tau_m * transfer_function / (1 + i omega tau_s)], conjugated first
    for negative frequencies. *)
Definition scaled_response (transfer_function : list complex)
  (tau_m tau_s omega : R) : list complex :=
  map (fun t => (RtoC tau_m * t / mkC 1 (omega * tau_s))%C)
      (if Rltb omega 0 then map Cconj transfer_function
       else transfer_function).

(** [MH(omega) = H(omega) o J o DelayMatrix(omega)], where row [i] of [H]
    repeats the scaled response of population [i] across the columns. *)
Definition effective_connectivity (transfer_function : list complex)
  (delay_dist_matrix : list (list complex)) (J : list (list R))
  (tau_m tau_s : R) (dimension : nat) (omega : R) : list (list complex) :=
  mat_map2 Cmul
    (mat_map2 (fun h w => (h * RtoC w)%C)
       (map (fun h => repeat h dimension)
            (scaled_response transfer_function tau_m tau_s omega))
       J)
    delay_dist_matrix.

(** The rank-1 projector of mode [k], [outer(u_inv_k, u_k) / (u_inv_k . u_k)],
    multiplied elementwise by [MH]. *)
Definition mode_projection (u_inv u : list complex)
  (MH : list (list complex)) : list (list complex) :=
  mat_map2 Cmul
    (map (fun a => map (fun b => (a * b / dot_vv u_inv u)%C) u) u_inv)
    MH.

Definition sensitivity_spec (transfer_function : list complex)
  (delay_dist_matrix : list (list complex)) (J : list (list R))
  (tau_m tau_s : R) (dimension : nat) (omega : R)
  : result (list (list complex)) :=
  let MH :=
    effective_connectivity transfer_function delay_dist_matrix J tau_m tau_s
      dimension omega in
  eU <- eig MH ;;
  U_inv <- inv (snd eU) ;;
  k <- np_argmin (map (fun x => Cabs (x - RtoC 1)%C) (fst eU)) ;;
  u_inv <- index U_inv k ;;
  u <- mapM (fun row => index row k) (snd eU) ;;
  Ok (mode_projection u_inv u MH).

(** [k] is the first index of a least element of [l]. *)
Definition first_argmin (l : list R) (k : nat) : Prop :=
  (k < length l)%nat /\
  (forall j : nat, (j < length l)%nat -> nth k l 0 <= nth j l 0) /\
  (forall j : nat, (j < k)%nat -> nth k l 0 < nth j l 0).

(** [numpy.linalg.inv] returns a matrix of the shape of its argument. *)
Definition inv_keeps_shape (n : nat) : Prop :=
  forall A Q : list (list complex),
    has_shape n n A -> inv A = Ok Q -> has_shape n n Q.

(** * Further functions of aux_calcs.py *)

Definition Phi_prime_mu (s sigma : R) : R :=
  (- sqrt PI) / sigma
  * (s * exp (s ^ 2 / 2) * (1 + erf (s / sqrt 2)) + sqrt 2 / sqrt PI).

Definition d_nu_d_mu_fb433 (fuel : nat)
  (tau_m tau_s tau_r V_th_rel V_0_rel mu sigma : R) : result R :=
  let alpha := sqrt 2 * Rabs (zetac 0.5 + 1) in
  let x_th := sqrt 2 * (V_th_rel - mu) / sigma in
  let x_r := sqrt 2 * (V_0_rel - mu) / sigma in
  nu0 <- nu_0 fuel tau_m tau_r V_th_rel V_0_rel mu sigma ;;
  let integral := 1 / (nu0 * tau_m) in
  let prefactor := sqrt (tau_s / tau_m) * alpha / (tau_m * sqrt 2) in
  dnudmu <- d_nu_d_mu fuel tau_m tau_r V_th_rel V_0_rel mu sigma ;;
  let dPhi_prime := Phi_prime_mu x_th sigma - Phi_prime_mu x_r sigma in
  let dPhi := Phi x_th - Phi x_r in
  let phi := dPhi_prime * integral + (2 * sqrt 2 / sigma) * dPhi ^ 2 in
  Ok (dnudmu - prefactor * phi / integral ^ 3).

(** [def d_nu_d_mu_fb433(tau_m, tau_s, tau_r, V_th_rel, V_0_rel, mu,
    sigma)] has seven positional parameters. *)
Definition d_nu_d_mu_fb433_fun (fuel : nat) : pyfun R :=
  mkfun 7 (fun args =>
    match args with
    | [tau_m; tau_s; tau_r; V_th_rel; V_0_rel; mu; sigma] =>
        d_nu_d_mu_fb433 fuel tau_m tau_s tau_r V_th_rel V_0_rel mu sigma
    | _ => Raise TypeError
    end).

Definition d_2_Psi (z : complex) (x : R) : complex :=
  ((RtoC (1 / 2) + z) * (RtoC (3 / 2) + z) * Psi (z + RtoC 2) x)%C.

Definition d2Psi_x_r (z : complex) (x y : R) : complex :=
  (d_2_Psi z x - d_2_Psi z y)%C.

(** * Further functions of meanfield_calcs.py *)

(** ** transfer_function_1p_taylor *)

Definition transfer_function_1p_taylor (fuel : nat)
  (mu sigma tau_m tau_s tau_r V_th_rel V_0_rel omega : R) : result complex :=
  if Rltb (Rabs (omega - 0)) 1e-15 then
    r <- call (d_nu_d_mu_fb433_fun fuel)
           [tau_m; tau_s; tau_r; V_th_rel; V_0_rel; mu; sigma] ;;
    Ok (RtoC r)
  else
    nu0 <- nu_0 fuel tau_m tau_r V_th_rel V_0_rel mu sigma ;;
    nu0_fb <- nu0_fb433 fuel tau_m tau_s tau_r V_th_rel V_0_rel mu sigma ;;
    let x_t := sqrt 2 * (V_th_rel - mu) / sigma in
    let x_r := sqrt 2 * (V_0_rel - mu) / sigma in
    let z := py_complex (-0.5) (py_complex1 (omega * tau_m)) in
    let alpha := sqrt 2 * Rabs (zetac 0.5 + 1) in
    let k := sqrt (tau_s / tau_m) in
    let A := alpha * tau_m * nu0 * k / sqrt 2 in
    let a0 := Psi_x_r z x_t x_r in
    let a1 := (dPsi_x_r z x_t x_r / a0)%C in
    let a3 :=
      (RtoC (A / tau_m / nu0_fb) * (- (a1 * a1) + d2Psi_x_r z x_t x_r / a0))%C
    in
    Ok (RtoC (sqrt 2 / sigma * nu0_fb) / mkC 1 (omega * tau_m) * (a1 + a3))%C.

(** ** eigen_spectra *)

(** The triple returned by [eigen_spectra_single_freq]: eigenvalues,
    transposed right eigenvectors, left eigenvectors. *)
Definition eigen_triple : Type :=
  (list complex * list (list complex) * list (list complex))%type.

Definition eigen_spectra_single_freq (tau_m tau_s : R)
  (transfer_function : list complex) (dimension : nat)
  (delay_dist_matrix : list (list complex)) (J : list (list R)) (omega : R)
  (matrix : string) : result eigen_triple :=
  H <- stacked_H transfer_function tau_m tau_s dimension omega ;;
  let MH :=
    mat_map2 Cmul (mat_map2 (fun h w => (h * RtoC w)%C) H J)
      delay_dist_matrix in
  if String.eqb matrix "MH" then
    eU <- eig MH ;;
    vl <- inv (snd eU) ;;
    Ok (fst eU, transpose (snd eU), vl)
  else
    Q <- inv (mat_map2 (fun i m => (RtoC i - m)%C) (np_identity dimension) MH) ;;
    let P := dot_mm Q MH in
    eU <-
      (if String.eqb matrix "prop" then
         eU <- eig P ;; Ok (Some eU)
       else if String.eqb matrix "prop_inv" then
         P_inv <- inv P ;; eU <- eig P_inv ;; Ok (Some eU)
       else Ok None) ;;
    match eU with
    | Some eU =>
        vl <- inv (snd eU) ;;
        Ok (fst eU, transpose (snd eU), vl)
    | None => Raise UnboundLocalError
    end.

(** What [eigen_spectra] returns: a list of eigenvalue arrays or a list of
    eigenvector matrices, one per frequency. *)
Inductive spectra : Type :=
| Eigenvalues (l : list (list complex))
| Eigenvectors (l : list (list (list complex))).

Definition eigen_spectra (tau_m tau_s : R)
  (transfer_function : list (list complex)) (dimension : nat)
  (delay_dist_matrix : list (list (list complex))) (J : list (list R))
  (omegas : list R) (quantity matrix : string) : result spectra :=
  let single (io : nat * R) : result eigen_triple :=
    tf_i <- index transfer_function (fst io) ;;
    ddm_i <- index delay_dist_matrix (fst io) ;;
    eigen_spectra_single_freq tau_m tau_s tf_i dimension ddm_i J (snd io)
      matrix in
  if String.eqb quantity "eigvals" then
    l <- mapM (fun io => t <- single io ;; Ok (fst (fst t)))
              (enumerate omegas) ;;
    Ok (Eigenvalues l)
  else if String.eqb quantity "reigvecs" then
    l <- mapM (fun io => t <- single io ;; Ok (snd (fst t)))
              (enumerate omegas) ;;
    Ok (Eigenvectors l)
  else if String.eqb quantity "leigvecs" then
    l <- mapM (fun io => t <- single io ;; Ok (snd t)) (enumerate omegas) ;;
    Ok (Eigenvectors l)
  else Raise UnboundLocalError.

(** [numpy.linalg.eig] of an n x n matrix returns n eigenvalues and an
    n x n matrix of eigenvectors. *)
Definition eig_keeps_shape (n : nat) : Prop :=
  forall (A : list (list complex)) (e : list complex)
         (U : list (list complex)),
    has_shape n n A -> eig A = Ok (e, U) ->
    length e = n /\ has_shape n n U.

(** * Properties *)

(** ** Boolean comparisons *)

Lemma Rleb_true (x y : R) : Rleb x y = true <-> x <= y.
Proof. unfold Rleb; destruct (Rle_dec x y); split; intros; try easy. Qed.

Lemma Rleb_false (x y : R) : Rleb x y = false <-> y < x.
Proof. unfold Rleb; destruct (Rle_dec x y); split; intros; try easy; lra. Qed.

Lemma Rltb_true (x y : R) : Rltb x y = true <-> x < y.
Proof. unfold Rltb; destruct (Rlt_dec x y); split; intros; try easy. Qed.

Lemma Rltb_false (x y : R) : Rltb x y = false <-> y <= x.
Proof. unfold Rltb; destruct (Rlt_dec x y); split; intros; try easy; lra. Qed.

Lemma Rgtb_true (x y : R) : Rgtb x y = true <-> y < x.
Proof. unfold Rgtb; apply Rltb_true. Qed.

Lemma Rgtb_false (x y : R) : Rgtb x y = false <-> x <= y.
Proof. unfold Rgtb; apply Rltb_false. Qed.

Lemma Rgeb_true (x y : R) : Rgeb x y = true <-> y <= x.
Proof. unfold Rgeb; apply Rleb_true. Qed.

Lemma Rgeb_false (x y : R) : Rgeb x y = false <-> x < y.
Proof. unfold Rgeb; apply Rleb_false. Qed.

Lemma Reqb_true (x y : R) : Reqb x y = true <-> x = y.
Proof. unfold Reqb; destruct (Req_dec_T x y); split; intros; try easy. Qed.

Lemma Reqb_false (x y : R) : Reqb x y = false <-> x <> y.
Proof. unfold Reqb; destruct (Req_dec_T x y); split; intros; try easy. Qed.

(** Decide a boolean comparison in the goal from facts in the context. *)
Ltac cmp_true c :=
  let H := fresh "Hc" in
  assert (H : c = true)
    by (first [ apply Rleb_true | apply Rltb_true | apply Rgtb_true
              | apply Rgeb_true | apply Reqb_true ]; lra);
  rewrite H; clear H.

Ltac cmp_false c :=
  let H := fresh "Hc" in
  assert (H : c = false)
    by (first [ apply Rleb_false | apply Rltb_false | apply Rgtb_false
              | apply Rgeb_false | apply Reqb_false ]; lra);
  rewrite H; clear H.

(** ** Powers of two eventually exceed any real *)

Lemma INR_le_pow2 (n : nat) : INR n <= 2 ^ n.
Proof.
  induction n as [|n IH].
  - simpl; lra.
  - rewrite S_INR. simpl.
    assert (1 <= 2 ^ n) by (apply pow_R1_Rle; lra). lra.
Qed.

Lemma pow2_unbounded (x : R) : exists k : nat, x <= 2 ^ k.
Proof.
  destruct (Rle_dec x 0) as [Hx|Hx].
  - exists O. simpl. lra.
  - destruct (archimed x) as [Hup _].
    assert (Hpos : (0 <= up x)%Z).
    { apply le_IZR. lra. }
    exists (Z.to_nat (up x)).
    apply Rle_trans with (INR (Z.to_nat (up x))); [|apply INR_le_pow2].
    rewrite INR_IZR_INZ, Z2Nat.id by assumption. lra.
Qed.

(** ** The bracket searches of siegert1 *)

Lemma siegert1_integrand_bound (y_th y_r u : R) :
  0 < u -> siegert1_integrand y_th y_r u <= 1 / u.
Proof.
  intros Hu. unfold siegert1_integrand.
  cmp_false (Reqb u 0).
  set (a := exp (- (u - y_th) ^ 2)).
  set (b := exp (2 * (y_r - y_th) * u)).
  assert (Ha : 0 < a) by apply exp_pos.
  assert (Hb : 0 < b) by apply exp_pos.
  assert (Ha1 : a <= 1).
  { unfold a. rewrite <- exp_0.
    destruct (Req_dec ((u - y_th) ^ 2) 0) as [E|E].
    - rewrite E, Ropp_0. lra.
    - left. apply exp_increasing.
      assert (0 <= (u - y_th) ^ 2) by (apply pow2_ge_0). lra. }
  apply Rmult_le_compat_r; [left; apply Rinv_0_lt_compat; exact Hu|].
  replace (1.0) with 1 by lra. nra.
Qed.

Lemma siegert1_lower_done (fuel : nat) (y_th y_r err lb : R) :
  err <= 1e-12 \/ lb <= 1e-16 ->
  siegert1_lower fuel y_th y_r err lb = Ok lb.
Proof.
  intros H. destruct fuel; simpl.
  - destruct H.
    + cmp_false (Rgtb err 1e-12). reflexivity.
    + cmp_false (Rgtb lb 1e-16). rewrite andb_false_r. reflexivity.
  - destruct H.
    + cmp_false (Rgtb err 1e-12). reflexivity.
    + cmp_false (Rgtb lb 1e-16). rewrite andb_false_r. reflexivity.
Qed.

Lemma siegert1_lower_terminates (k : nat) :
  forall (fuel : nat) (y_th y_r err lb : R),
    lb <= 1e-16 * 2 ^ k -> (k <= fuel)%nat ->
    exists lb', siegert1_lower fuel y_th y_r err lb = Ok lb'.
Proof.
  induction k as [|k IH]; intros fuel y_th y_r err lb Hlb Hfuel.
  - exists lb. apply siegert1_lower_done. right. simpl in Hlb. lra.
  - destruct fuel as [|fuel]; [lia|]. simpl.
    destruct (Rgtb err 1e-12 && Rgtb lb 1e-16) eqn:Hc.
    + destruct (Rgtb (siegert1_integrand y_th y_r lb) 1e-12) eqn:He.
      * apply IH; [|lia]. simpl in Hlb. lra.
      * exists lb. apply siegert1_lower_done. left.
        apply Rgtb_false. exact He.
    + exists lb. reflexivity.
Qed.

Lemma siegert1_lower_range (fuel : nat) :
  forall (y_th y_r err lb lb' : R),
    siegert1_lower fuel y_th y_r err lb = Ok lb' ->
    0 < lb -> 0 < lb' <= lb.
Proof.
  induction fuel as [|fuel IH]; intros y_th y_r err lb lb' H Hlb; simpl in H.
  - destruct (Rgtb err 1e-12 && Rgtb lb 1e-16); [discriminate|].
    injection H as <-. lra.
  - destruct (Rgtb err 1e-12 && Rgtb lb 1e-16).
    + destruct (Rgtb (siegert1_integrand y_th y_r lb) 1e-12).
      * apply IH in H; lra.
      * apply IH in H; lra.
    + injection H as <-. lra.
Qed.

Lemma siegert1_upper_done (fuel : nat) (y_th y_r err ub : R) :
  err <= 1e-12 -> siegert1_upper fuel y_th y_r err ub = Ok ub.
Proof.
  intros H. destruct fuel; simpl; cmp_false (Rgtb err 1e-12); reflexivity.
Qed.

Lemma siegert1_upper_terminates (k : nat) :
  forall (fuel : nat) (y_th y_r err ub : R),
    0 < ub -> 1e12 <= ub * 2 ^ k -> (S k <= fuel)%nat ->
    exists ub', siegert1_upper fuel y_th y_r err ub = Ok ub'.
Proof.
  induction k as [|k IH]; intros fuel y_th y_r err ub Hpos Hub Hfuel;
    (destruct fuel as [|fuel]; [lia|]); simpl;
    destruct (Rgtb err 1e-12) eqn:Hc; try (exists ub; reflexivity).
  - pose proof (siegert1_integrand_bound y_th y_r ub Hpos) as Hb.
    assert (1 / ub <= 1e-12).
    { simpl in Hub. apply Rmult_le_reg_r with ub; [lra|].
      unfold Rdiv. rewrite Rmult_assoc, Rinv_l by lra. lra. }
    cmp_false (Rgtb (siegert1_integrand y_th y_r ub) 1e-12).
    exists ub. apply siegert1_upper_done. lra.
  - destruct (Rgtb (siegert1_integrand y_th y_r ub) 1e-12) eqn:He.
    + apply IH; [lra| |lia]. simpl in Hub. lra.
    + exists ub. apply siegert1_upper_done. apply Rgtb_false. exact He.
Qed.

Lemma siegert1_upper_range (fuel : nat) :
  forall (y_th y_r err ub ub' : R),
    siegert1_upper fuel y_th y_r err ub = Ok ub' ->
    0 < ub -> ub <= ub'.
Proof.
  induction fuel as [|fuel IH]; intros y_th y_r err ub ub' H Hub; simpl in H.
  - destruct (Rgtb err 1e-12); [discriminate|]. injection H as <-. lra.
  - destruct (Rgtb err 1e-12).
    + destruct (Rgtb (siegert1_integrand y_th y_r ub) 1e-12).
      * apply IH in H; lra.
      * apply IH in H; lra.
    + injection H as <-. lra.
Qed.

(** Both searches return once the fuel exceeds a bound that depends on
    [y_th] only. *)
Lemma siegert1_brackets (y_th y_r : R) :
  0 < y_th ->
  exists n : nat, forall fuel : nat, (n <= fuel)%nat ->
    exists lb ub,
      siegert1_lower fuel y_th y_r 1.0 y_th = Ok lb /\
      siegert1_upper fuel y_th y_r 1.0 y_th = Ok ub /\
      0 < lb <= y_th /\ y_th <= ub.
Proof.
  intros Hy.
  destruct (pow2_unbounded (y_th * 1e16)) as [k1 Hk1].
  destruct (pow2_unbounded (1e12 / y_th)) as [k2 Hk2].
  exists (S (k1 + k2)). intros fuel Hfuel.
  destruct (siegert1_lower_terminates k1 fuel y_th y_r 1.0 y_th) as [lb Hlb];
    [lra | lia |].
  destruct (siegert1_upper_terminates k2 fuel y_th y_r 1.0 y_th) as [ub Hub];
    [lra | | lia |].
  { apply Rmult_le_compat_l with (r := y_th) in Hk2; [|lra].
    unfold Rdiv in Hk2. rewrite <- Rmult_assoc, Rinv_r_simpl_m in Hk2; lra. }
  exists lb, ub. repeat split; try assumption.
  - apply (siegert1_lower_range _ _ _ _ _ _ Hlb Hy).
  - apply (siegert1_lower_range _ _ _ _ _ _ Hlb Hy).
  - apply (siegert1_upper_range _ _ _ _ _ _ Hub Hy).
Qed.

(** The overflow guard: with [y_th >= 20] siegert1 returns 0. *)
Lemma siegert1_guard (tau_m tau_r V_th_rel V_0_rel mu sigma : R) :
  20 <= (V_th_rel - mu) / sigma ->
  exists n : nat, forall fuel : nat, (n <= fuel)%nat ->
    siegert1 fuel tau_m tau_r V_th_rel V_0_rel mu sigma = Ok 0.
Proof.
  intros Hy.
  destruct (siegert1_brackets ((V_th_rel - mu) / sigma)
              ((V_0_rel - mu) / sigma)) as [n Hn]; [lra|].
  exists n. intros fuel Hfuel.
  destruct (Hn fuel Hfuel) as (lb & ub & Hlb & Hub & _).
  unfold siegert1. rewrite Hlb. simpl. rewrite Hub. simpl.
  cmp_true (Rgeb ((V_th_rel - mu) / sigma) 20).
  cmp_false (Rltb ((V_th_rel - mu) / sigma) 20).
  reflexivity.
Qed.

Lemma siegert1_guard_value (fuel : nat)
  (tau_m tau_r V_th_rel V_0_rel mu sigma r : R) :
  20 <= (V_th_rel - mu) / sigma ->
  siegert1 fuel tau_m tau_r V_th_rel V_0_rel mu sigma = Ok r -> r = 0.
Proof.
  intros Hy. unfold siegert1.
  destruct (siegert1_lower _ _ _ _ _); simpl; try discriminate.
  destruct (siegert1_upper _ _ _ _ _); simpl; try discriminate.
  cmp_true (Rgeb ((V_th_rel - mu) / sigma) 20).
  cmp_false (Rltb ((V_th_rel - mu) / sigma) 20).
  intros H. injection H as <-. reflexivity.
Qed.

(** ** The delta-synapse rate *)

Lemma one_dot_zero : 1.0 = 1.
Proof. lra. Qed.

Lemma zero_dot_zero : 0.0 = 0.
Proof. lra. Qed.

Lemma branch_cut (V_th_rel : R) :
  V_th_rel + (0.95 * Rabs V_th_rel - Rabs V_th_rel)
  = V_th_rel - 0.05 * Rabs V_th_rel.
Proof. lra. Qed.

Lemma siegert1_unfold (fuel : nat)
  (tau_m tau_r V_th_rel V_0_rel mu sigma : R) :
  siegert1 fuel tau_m tau_r V_th_rel V_0_rel mu sigma =
  (integral <- siegert1_integral fuel V_th_rel V_0_rel mu sigma ;;
   if Rleb 20 ((V_th_rel - mu) / sigma) then Ok 0
   else Ok (1 / (tau_r + tau_m * integral))).
Proof.
  unfold siegert1, siegert1_integral. rewrite one_dot_zero.
  destruct (siegert1_lower _ _ _ _ _) as [lb| |]; simpl; try reflexivity.
  destruct (siegert1_upper _ _ _ _ _) as [ub| |]; simpl; try reflexivity.
  unfold Rgeb.
  destruct (Rleb 20 ((V_th_rel - mu) / sigma)) eqn:Hg.
  - apply Rleb_true in Hg.
    cmp_false (Rltb ((V_th_rel - mu) / sigma) 20). reflexivity.
  - apply Rleb_false in Hg.
    cmp_true (Rltb ((V_th_rel - mu) / sigma) 20).
    f_equal. f_equal. ring.
Qed.

Lemma siegert2_unfold (fuel : nat)
  (tau_m tau_r V_th_rel V_0_rel mu sigma : R) :
  siegert2 fuel tau_m tau_r V_th_rel V_0_rel mu sigma =
  (integral <- siegert2_integral fuel V_th_rel V_0_rel mu sigma ;;
   Ok (1 / (tau_r + tau_m * integral))).
Proof.
  unfold siegert2, siegert2_integral.
  rewrite one_dot_zero, zero_dot_zero.
  destruct (siegert2_upper _ _ _ _ _) as [ub| |]; simpl; try reflexivity.
  f_equal. f_equal. ring.
Qed.

(** C4 (amended): nu_0 takes branch A exactly when mu is at or below
    V_th - 0.05 |V_th| and branch B above it; branch B returns
    1 / (tau_r + tau_m * integral); branch A returns the same reciprocal
    when y_th < 20 and 0 when y_th >= 20. *)
Theorem nu_0_branches (fuel : nat)
  (tau_m tau_r V_th_rel V_0_rel mu sigma : R) :
  nu_0 fuel tau_m tau_r V_th_rel V_0_rel mu sigma
  = stationary_rate_delta_spec fuel tau_m tau_r V_th_rel V_0_rel mu sigma
  /\ nu_0 fuel tau_m tau_r V_th_rel V_0_rel mu sigma
     = (if Rleb mu (V_th_rel - 0.05 * Rabs V_th_rel)
        then siegert1 fuel tau_m tau_r V_th_rel V_0_rel mu sigma
        else siegert2 fuel tau_m tau_r V_th_rel V_0_rel mu sigma).
Proof.
  unfold nu_0, stationary_rate_delta_spec. rewrite branch_cut.
  split; [|reflexivity].
  destruct (Rleb mu (V_th_rel - 0.05 * Rabs V_th_rel)).
  - apply siegert1_unfold.
  - apply siegert2_unfold.
Qed.

(** C5: in branch A, whenever y_th = (V_th - mu) / sigma is at least 20,
    the returned rate is exactly 0: a run that returns returns 0, and every
    run with enough fuel returns. *)
Theorem siegert1_overflow_guard
  (tau_m tau_r V_th_rel V_0_rel mu sigma : R) :
  20 <= (V_th_rel - mu) / sigma ->
  (forall (fuel : nat) (r : R),
      siegert1 fuel tau_m tau_r V_th_rel V_0_rel mu sigma = Ok r -> r = 0)
  /\ (exists n : nat, forall fuel : nat, (n <= fuel)%nat ->
        siegert1 fuel tau_m tau_r V_th_rel V_0_rel mu sigma = Ok 0).
Proof.
  intros Hy. split.
  - intros fuel r. apply siegert1_guard_value. exact Hy.
  - apply siegert1_guard. exact Hy.
Qed.

Lemma siegert1_integrand_nonneg (y_th y_r u : R) :
  0 < u -> y_r <= y_th -> 0 <= siegert1_integrand y_th y_r u.
Proof.
  intros Hu Hy. unfold siegert1_integrand.
  cmp_false (Reqb u 0).
  set (a := exp (- (u - y_th) ^ 2)).
  set (b := exp (2 * (y_r - y_th) * u)).
  assert (Ha : 0 < a) by apply exp_pos.
  assert (Hb : b <= 1).
  { unfold b. rewrite <- exp_0.
    destruct (Req_dec (2 * (y_r - y_th) * u) 0) as [E|E].
    - rewrite E. lra.
    - left. apply exp_increasing. nra. }
  apply Rmult_le_pos; [|left; apply Rinv_0_lt_compat; exact Hu].
  rewrite one_dot_zero. nra.
Qed.

(** With [0 < y_th < 20] branch A returns a reciprocal of a positive
    interval, whose quadrature part does not depend on [tau_r]. *)
Lemma siegert1_reciprocal (V_th_rel V_0_rel mu sigma tau_m : R) :
  quad_nonneg ->
  0 < sigma -> 0 < tau_m -> V_0_rel <= V_th_rel -> mu < V_th_rel ->
  (V_th_rel - mu) / sigma < 20 ->
  exists n : nat, forall fuel : nat, (n <= fuel)%nat ->
    exists integral : R,
      0 <= integral /\
      forall tau_r : R,
        siegert1 fuel tau_m tau_r V_th_rel V_0_rel mu sigma
        = Ok (1 / (tau_r + tau_m * integral)).
Proof.
  intros Hq Hs Htm Hv Hmu Hy.
  assert (Hyth : 0 < (V_th_rel - mu) / sigma).
  { apply Rdiv_lt_0_compat; lra. }
  assert (Hyr : (V_0_rel - mu) / sigma <= (V_th_rel - mu) / sigma).
  { apply Rmult_le_compat_r; [left; apply Rinv_0_lt_compat; exact Hs | lra]. }
  destruct (siegert1_brackets _ ((V_0_rel - mu) / sigma) Hyth) as [n Hn].
  exists n. intros fuel Hfuel.
  destruct (Hn fuel Hfuel) as (lb & ub & Hlb & Hub & Hlbr & Hubr).
  exists (exp (((V_th_rel - mu) / sigma) ^ 2)
          * quad (siegert1_integrand ((V_th_rel - mu) / sigma)
                    ((V_0_rel - mu) / sigma)) lb ub).
  split.
  - apply Rmult_le_pos; [left; apply exp_pos|].
    apply Hq; [lra|]. intros u Hu.
    apply siegert1_integrand_nonneg; lra.
  - intros tau_r. rewrite siegert1_unfold. unfold siegert1_integral.
    rewrite one_dot_zero in Hlb, Hub. rewrite Hlb. simpl. rewrite Hub. simpl.
    cmp_false (Rleb 20 ((V_th_rel - mu) / sigma)). reflexivity.
Qed.

(** C6 (amended): for valid inputs in branch A (sigma > 0, tau_m > 0,
    V_0 <= V_th, mu below V_th and at or below the branch cut) and a
    quadrature that is non-negative on non-negative integrands, nu_0
    returns for every tau_r > 0 and does not increase with tau_r; outside
    the overflow guard (y_th < 20) the rate is strictly positive, and
    inside it (y_th >= 20) the rate is 0 for every tau_r.  Only the
    non-strict order is stated: it is the one that survives the rounding
    of tau_r + exp(y_th^2) * integral * tau_m. *)
Theorem nu_0_nonincreasing_in_tau_r
  (tau_m V_th_rel V_0_rel mu sigma tau_r1 tau_r2 : R) :
  quad_nonneg ->
  0 < sigma -> 0 < tau_m -> V_0_rel <= V_th_rel -> mu < V_th_rel ->
  mu <= V_th_rel - 0.05 * Rabs V_th_rel ->
  0 < tau_r1 -> tau_r1 <= tau_r2 ->
  exists n : nat, forall fuel : nat, (n <= fuel)%nat ->
    exists r1 r2 : R,
      nu_0 fuel tau_m tau_r1 V_th_rel V_0_rel mu sigma = Ok r1 /\
      nu_0 fuel tau_m tau_r2 V_th_rel V_0_rel mu sigma = Ok r2 /\
      r2 <= r1 /\
      ((V_th_rel - mu) / sigma < 20 -> 0 < r2) /\
      (20 <= (V_th_rel - mu) / sigma -> r1 = 0 /\ r2 = 0).
Proof.
  intros Hq Hs Htm Hv Hmu Hcut Hr1 Hr12.
  destruct (Rlt_le_dec ((V_th_rel - mu) / sigma) 20) as [Hy|Hy].
  - destruct (siegert1_reciprocal V_th_rel V_0_rel mu sigma tau_m
                Hq Hs Htm Hv Hmu Hy) as [n Hn].
    exists n. intros fuel Hfuel.
    destruct (Hn fuel Hfuel) as (integral & Hi & Heq).
    exists (1 / (tau_r1 + tau_m * integral)),
           (1 / (tau_r2 + tau_m * integral)).
    assert (Hprod : 0 <= tau_m * integral) by (apply Rmult_le_pos; lra).
    unfold nu_0. rewrite branch_cut.
    cmp_true (Rleb mu (V_th_rel - 0.05 * Rabs V_th_rel)).
    rewrite !Heq. repeat split.
    + unfold Rdiv. rewrite !Rmult_1_l.
      apply Rinv_le_contravar; lra.
    + intros _. apply Rdiv_lt_0_compat; lra.
    + lra.
    + lra.
  - destruct (siegert1_guard tau_m tau_r1 V_th_rel V_0_rel mu sigma Hy)
      as [n1 Hn1].
    destruct (siegert1_guard tau_m tau_r2 V_th_rel V_0_rel mu sigma Hy)
      as [n2 Hn2].
    exists (n1 + n2)%nat. intros fuel Hfuel.
    exists 0, 0.
    unfold nu_0. rewrite branch_cut.
    cmp_true (Rleb mu (V_th_rel - 0.05 * Rabs V_th_rel)).
    rewrite Hn1, Hn2 by lia.
    repeat split; try reflexivity; lra.
Qed.

(** ** The filtered-synapse rate *)

Lemma nu0_fb433_unfold (fuel : nat)
  (tau_m tau_s tau_r V_th_rel V_0_rel mu sigma : R) :
  nu0_fb433 fuel tau_m tau_s tau_r V_th_rel V_0_rel mu sigma
  = fourcaud_brunel alpha_zeta fuel tau_m tau_s tau_r V_th_rel V_0_rel mu
      sigma.
Proof.
  unfold nu0_fb433, fourcaud_brunel, alpha_zeta, riemann_zeta, Rgtb.
  replace 20.0 with 20 by lra. replace 0.5 with (1 / 2) by lra.
  destruct (Rltb (20 / sqrt 2) (sqrt 2 * (V_th_rel - mu) / sigma));
    destruct (nu_0 fuel tau_m tau_r V_th_rel V_0_rel mu sigma);
    reflexivity.
Qed.

(** C3 (amended): the filtered-synapse rate first evaluates the delta
    rate r; beyond the bound, x_th > 20 / sqrt 2, it returns r unmodified,
    and otherwise r - sqrt(tau_s/tau_m) alpha / (tau_m sqrt 2)
    (Phi(x_th) - Phi(x_r)) (r tau_m)^2 with alpha = sqrt 2 |zeta(1/2)|,
    zeta the Riemann zeta function. *)
Theorem nu0_fb433_correction (fuel : nat)
  (tau_m tau_s tau_r V_th_rel V_0_rel mu sigma : R) :
  nu0_fb433 fuel tau_m tau_s tau_r V_th_rel V_0_rel mu sigma
  = stationary_rate_filtered_spec fuel tau_m tau_s tau_r V_th_rel V_0_rel
      mu sigma.
Proof.
  unfold stationary_rate_filtered_spec, fourcaud_brunel, nu0_fb433,
    alpha_zeta, riemann_zeta, Rgtb.
  replace 20.0 with 20 by lra. replace 0.5 with (1 / 2) by lra.
  destruct (nu_0 fuel tau_m tau_r V_th_rel V_0_rel mu sigma) as [r| |];
    destruct (Rltb (20 / sqrt 2) (sqrt 2 * (V_th_rel - mu) / sigma));
    reflexivity.
Qed.

(** Inside the transition region the correction is linear in [alpha]. *)
Lemma fourcaud_brunel_inside
  (tau_m tau_s tau_r V_th_rel V_0_rel mu sigma : R) :
  quad_nonneg ->
  0 < sigma -> 0 < tau_m -> 0 < tau_r ->
  V_0_rel <= V_th_rel -> mu < V_th_rel ->
  mu <= V_th_rel - 0.05 * Rabs V_th_rel ->
  (V_th_rel - mu) / sigma <= 10 ->
  exists n : nat, forall fuel : nat, (n <= fuel)%nat ->
    exists r : R,
      0 < r /\
      forall alpha : R,
        fourcaud_brunel alpha fuel tau_m tau_s tau_r V_th_rel V_0_rel mu
          sigma
        = Ok (r - sqrt (tau_s / tau_m) * alpha / (tau_m * sqrt 2)
                  * (Phi (sqrt 2 * (V_th_rel - mu) / sigma)
                     - Phi (sqrt 2 * (V_0_rel - mu) / sigma))
                  * (r * tau_m) ^ 2).
Proof.
  intros Hq Hs Htm Htr Hv Hmu Hcut Hy.
  destruct (siegert1_reciprocal V_th_rel V_0_rel mu sigma tau_m
              Hq Hs Htm Hv Hmu) as [n Hn]; [lra|].
  exists n. intros fuel Hfuel.
  destruct (Hn fuel Hfuel) as (integral & Hi & Heq).
  assert (Hprod : 0 <= tau_m * integral) by (apply Rmult_le_pos; lra).
  exists (1 / (tau_r + tau_m * integral)). split.
  - apply Rdiv_lt_0_compat; lra.
  - intros alpha. unfold fourcaud_brunel, nu_0. rewrite branch_cut.
    cmp_true (Rleb mu (V_th_rel - 0.05 * Rabs V_th_rel)).
    rewrite Heq. simpl bind.
    assert (Hs2 : 0 < sqrt 2) by (apply sqrt_lt_R0; lra).
    assert (Hx : sqrt 2 * (V_th_rel - mu) / sigma <= 20 / sqrt 2).
    { apply Rmult_le_reg_r with (sqrt 2); [exact Hs2|].
      unfold Rdiv at 2. rewrite Rmult_assoc, Rinv_l by lra.
      replace (sqrt 2 * (V_th_rel - mu) / sigma * sqrt 2)
        with (sqrt 2 * sqrt 2 * ((V_th_rel - mu) / sigma))
        by (unfold Rdiv; ring).
      rewrite sqrt_sqrt by lra. lra. }
    cmp_false (Rltb (20 / sqrt 2) (sqrt 2 * (V_th_rel - mu) / sigma)).
    reflexivity.
Qed.

(** In the guard region the source returns 0 where the reciprocal of the
    specification is positive. *)
Lemma guard_against_reciprocal
  (tau_m tau_r V_th_rel V_0_rel mu sigma : R) :
  quad_nonneg ->
  0 < sigma -> 0 < tau_m -> 0 < tau_r -> V_0_rel <= V_th_rel ->
  mu <= V_th_rel - 0.05 * Rabs V_th_rel ->
  20 <= (V_th_rel - mu) / sigma ->
  exists n : nat, forall fuel : nat, (n <= fuel)%nat ->
    nu_0 fuel tau_m tau_r V_th_rel V_0_rel mu sigma = Ok 0 /\
    exists w : R,
      stationary_rate_delta_claimed fuel tau_m tau_r V_th_rel V_0_rel mu
        sigma = Ok w /\ 0 < w.
Proof.
  intros Hq Hs Htm Htr Hv Hcut Hy.
  assert (Hyr : (V_0_rel - mu) / sigma <= (V_th_rel - mu) / sigma).
  { apply Rmult_le_compat_r; [left; apply Rinv_0_lt_compat; exact Hs | lra]. }
  destruct (siegert1_brackets ((V_th_rel - mu) / sigma)
              ((V_0_rel - mu) / sigma)) as [n Hn]; [lra|].
  destruct (siegert1_guard tau_m tau_r V_th_rel V_0_rel mu sigma Hy)
    as [n' Hn'].
  exists (n + n')%nat. intros fuel Hfuel.
  destruct (Hn fuel) as (lb & ub & Hlb & Hub & Hlbr & Hubr); [lia|].
  split.
  - unfold nu_0. rewrite branch_cut.
    cmp_true (Rleb mu (V_th_rel - 0.05 * Rabs V_th_rel)).
    apply Hn'. lia.
  - unfold stationary_rate_delta_claimed, siegert1_integral.
    cmp_true (Rleb mu (V_th_rel - 0.05 * Rabs V_th_rel)).
    rewrite one_dot_zero in Hlb, Hub. rewrite Hlb. cbn [bind]. rewrite Hub. cbn [bind].
    eexists. split; [reflexivity|].
    apply Rdiv_lt_0_compat; [lra|].
    assert (0 <= quad (siegert1_integrand ((V_th_rel - mu) / sigma)
                         ((V_0_rel - mu) / sigma)) lb ub).
    { apply Hq; [lra|]. intros u Hu.
      apply siegert1_integrand_nonneg; lra. }
    assert (0 < exp (((V_th_rel - mu) / sigma) ^ 2)) by apply exp_pos.
    assert (0 <= tau_m * (exp (((V_th_rel - mu) / sigma) ^ 2)
                   * quad (siegert1_integrand ((V_th_rel - mu) / sigma)
                             ((V_0_rel - mu) / sigma)) lb ub)).
    { apply Rmult_le_pos; [lra|]. apply Rmult_le_pos; lra. }
    lra.
Qed.

(** ** The batch transfer function *)

Lemma mapM_Ok {A B : Type} (f : A -> result B) (l : list A) (bs : list B) :
  mapM f l = Ok bs <-> Forall2 (fun a b => f a = Ok b) l bs.
Proof.
  revert bs. induction l as [|a l IH]; intros bs; simpl.
  - split.
    + intros H. injection H as <-. constructor.
    + intros H. inversion H. reflexivity.
  - destruct (f a) as [b| |] eqn:Hfa; simpl.
    + destruct (mapM f l) as [bs'| |] eqn:Hm; simpl.
      * split.
        -- intros H. injection H as <-. constructor; [exact Hfa|].
           apply IH. reflexivity.
        -- intros H. inversion H as [|a' b' l' bs'' Hab Hrest]; subst.
           rewrite Hfa in Hab. injection Hab as <-.
           apply IH in Hrest. injection Hrest as <-. reflexivity.
      * split; [discriminate|].
        intros H. inversion H as [|a' b' l' bs'' Hab Hrest]; subst.
        apply IH in Hrest. discriminate.
      * split; [discriminate|].
        intros H. inversion H as [|a' b' l' bs'' Hab Hrest]; subst.
        apply IH in Hrest. discriminate.
    + split; [discriminate|].
      intros H. inversion H as [|a' b' l' bs'' Hab Hrest]; subst.
      rewrite Hfa in Hab. discriminate.
    + split; [discriminate|].
      intros H. inversion H as [|a' b' l' bs'' Hab Hrest]; subst.
      rewrite Hfa in Hab. discriminate.
Qed.

Lemma index_Ok {A : Type} (l : list A) (i : nat) (a : A) :
  index l i = Ok a <-> nth_error l i = Some a.
Proof.
  unfold index. destruct (nth_error l i); split; intros H;
    try discriminate; injection H as <-; reflexivity.
Qed.

Lemma entry_Ok (fuel : nat) (mu sigma : list R)
  (tau_m tau_s tau_r V_th_rel V_0_rel omega : R) (i : nat) (v : complex) :
  (mu_i <- index mu i ;;
   sigma_i <- index sigma i ;;
   transfer_function_1p_shift fuel mu_i sigma_i tau_m tau_s tau_r V_th_rel
     V_0_rel omega) = Ok v
  <-> shift_entry fuel mu sigma tau_m tau_s tau_r V_th_rel V_0_rel omega i v.
Proof.
  unfold shift_entry, index.
  destruct (nth_error mu i) as [m|]; simpl.
  - destruct (nth_error sigma i) as [s|]; simpl.
    + split.
      * intros H. exists m, s. auto.
      * intros (m' & s' & Hm & Hs & H).
        injection Hm as <-. injection Hs as <-. exact H.
    + split; [discriminate|]. intros (m' & s' & _ & Hs & _). discriminate.
  - split; [discriminate|]. intros (m' & s' & Hm & _). discriminate.
Qed.

Lemma Forall2_iff {A B : Type} (P Q : A -> B -> Prop)
  (l : list A) (l' : list B) :
  (forall a b, P a b <-> Q a b) -> Forall2 P l l' <-> Forall2 Q l l'.
Proof.
  intros H. split; intros HF; induction HF; constructor;
    try assumption; apply H; assumption.
Qed.

Lemma Forall2_length_eq {A B : Type} (P : A -> B -> Prop)
  (l : list A) (l' : list B) :
  Forall2 P l l' -> length l = length l'.
Proof. intros H. induction H; simpl; congruence. Qed.

(** The list comprehension of [transfer_function]. *)
Lemma comprehension_Ok (fuel : nat) (mu sigma : list R)
  (tau_m tau_s tau_r V_th_rel V_0_rel : R) (dimension : nat)
  (omegas : list R) (T : list (list complex)) :
  mapM (fun omega =>
          mapM (fun i =>
                  mu_i <- index mu i ;;
                  sigma_i <- index sigma i ;;
                  transfer_function_1p_shift fuel mu_i sigma_i tau_m tau_s
                    tau_r V_th_rel V_0_rel omega)
               (seq 0 dimension))
       omegas = Ok T
  <-> frequency_major fuel mu sigma tau_m tau_s tau_r V_th_rel V_0_rel
        dimension omegas T.
Proof.
  rewrite mapM_Ok. unfold frequency_major.
  apply Forall2_iff. intros omega row.
  rewrite mapM_Ok. apply Forall2_iff. intros i v. apply entry_Ok.
Qed.

Lemma frequency_major_shape (fuel : nat) (mu sigma : list R)
  (tau_m tau_s tau_r V_th_rel V_0_rel : R) (dimension : nat)
  (omegas : list R) (T : list (list complex)) :
  frequency_major fuel mu sigma tau_m tau_s tau_r V_th_rel V_0_rel
    dimension omegas T ->
  has_shape (length omegas) dimension T.
Proof.
  unfold frequency_major, has_shape. intros H. split.
  - symmetry. apply (Forall2_length_eq _ _ _ H).
  - induction H as [|omega row omegas' T' Hrow _ IH]; constructor.
    + apply Forall2_length_eq in Hrow. rewrite <- Hrow. apply length_seq.
    + exact IH.
Qed.

Lemma transfer_function_Ok (fuel : nat) (mu sigma : list R)
  (tau_m tau_s tau_r V_th_rel V_0_rel : R) (dimension : nat)
  (omegas : list R) (T : list (list complex)) :
  transfer_function fuel mu sigma tau_m tau_s tau_r V_th_rel V_0_rel
    dimension omegas = Ok T
  <-> omegas <> [] /\ dimension <> 0%nat /\
      frequency_major fuel mu sigma tau_m tau_s tau_r V_th_rel V_0_rel
        dimension omegas T.
Proof.
  unfold transfer_function.
  destruct (mapM _ omegas) as [T'| |] eqn:Hm; simpl.
  - apply comprehension_Ok in Hm.
    pose proof (frequency_major_shape _ _ _ _ _ _ _ _ _ _ _ Hm) as [Hlen Hrows].
    destruct T' as [|row T'']; simpl.
    + split; [discriminate|].
      intros (Hne & _ & _). destruct omegas; [congruence|discriminate].
    + pose proof (Forall_inv Hrows) as Hrow. simpl in Hrow.
      destruct row as [|v row']; simpl.
      * split; [discriminate|]. intros (_ & Hd & _). simpl in Hrow. congruence.
      * split.
        -- intros H. injection H as <-. repeat split.
           ++ destruct omegas; [discriminate|congruence].
           ++ simpl in Hrow. congruence.
           ++ exact Hm.
        -- intros (_ & _ & H). f_equal.
           apply comprehension_Ok in Hm, H. congruence.
  - split; [discriminate|]. intros (_ & _ & H).
    apply comprehension_Ok in H. congruence.
  - split; [discriminate|]. intros (_ & _ & H).
    apply comprehension_Ok in H. congruence.
Qed.

(** C1, what the code returns: whenever transfer_function returns, the
    matrix has one row per frequency and one column per population (M x N,
    frequencies first, against the docstring's one array for each
    population), and the entry of frequency m and population i is the value of
    transfer_function_1p_shift at mu[i], sigma[i], omegas[m]; it returns
    exactly when the grid and the populations are non-empty and every such
    entry evaluates. *)
Theorem transfer_function_frequency_major (fuel : nat) (mu sigma : list R)
  (tau_m tau_s tau_r V_th_rel V_0_rel : R) (dimension : nat)
  (omegas : list R) (T : list (list complex)) :
  (transfer_function fuel mu sigma tau_m tau_s tau_r V_th_rel V_0_rel
     dimension omegas = Ok T
   <-> omegas <> [] /\ dimension <> 0%nat /\
       frequency_major fuel mu sigma tau_m tau_s tau_r V_th_rel V_0_rel
         dimension omegas T)
  /\ (frequency_major fuel mu sigma tau_m tau_s tau_r V_th_rel V_0_rel
        dimension omegas T ->
      has_shape (length omegas) dimension T).
Proof.
  split.
  - apply transfer_function_Ok.
  - apply frequency_major_shape.
Qed.

(** The zero-frequency branch of the shift variant. *)
Lemma shift_zero_frequency (fuel : nat)
  (mu sigma tau_m tau_s tau_r V_th_rel V_0_rel omega : R) :
  Rabs (omega - 0) < 1e-15 ->
  transfer_function_1p_shift fuel mu sigma tau_m tau_s tau_r V_th_rel V_0_rel
    omega = Raise TypeError.
Proof.
  intros H. unfold transfer_function_1p_shift.
  cmp_true (Rltb (Rabs (omega - 0)) 1e-15).
  reflexivity.
Qed.

(** C10: for |omega| < 1e-15 transfer_function_1p_shift raises a TypeError:
    the zero-frequency branch passes seven positional arguments to
    d_nu_d_mu, which takes six; the batch transfer_function therefore
    returns no value when the grid contains such a frequency. *)
Theorem shift_zero_frequency_type_error (fuel : nat) (mu sigma : list R)
  (tau_m tau_s tau_r V_th_rel V_0_rel : R) (dimension : nat)
  (omegas : list R) (omega : R) :
  Rabs (omega - 0) < 1e-15 ->
  In omega omegas ->
  params (d_nu_d_mu_fun fuel) = 6%nat /\
  (forall mu_i sigma_i : R,
      call (d_nu_d_mu_fun fuel)
        [tau_m; tau_s; tau_r; V_th_rel; V_0_rel; mu_i; sigma_i]
      = Raise TypeError) /\
  (forall mu_i sigma_i : R,
      transfer_function_1p_shift fuel mu_i sigma_i tau_m tau_s tau_r
        V_th_rel V_0_rel omega = Raise TypeError) /\
  (forall T : list (list complex),
      transfer_function fuel mu sigma tau_m tau_s tau_r V_th_rel V_0_rel
        dimension omegas <> Ok T).
Proof.
  intros Hw Hin. split; [reflexivity|]. split; [reflexivity|]. split.
  - intros mu_i sigma_i. apply shift_zero_frequency. exact Hw.
  - intros T HT. apply transfer_function_Ok in HT.
    destruct HT as (_ & Hd & HF). unfold frequency_major in HF.
    induction HF as [|w row ws T' Hrow _ IH].
    + destruct Hin.
    + destruct Hin as [<-|Hin]; [|apply IH; exact Hin].
      destruct dimension as [|d]; [congruence|].
      simpl in Hrow. inversion Hrow as [|i v l l' Hentry _]; subst.
      destruct Hentry as (mu_i & sigma_i & _ & _ & Hs).
      rewrite (shift_zero_frequency _ _ _ _ _ _ _ _ _ Hw) in Hs.
      discriminate.
Qed.

(** Away from zero frequency and inside the overflow guard the shift
    variant returns. *)
Lemma shift_returns_in_guard
  (mu sigma tau_m tau_s tau_r V_th_rel V_0_rel : R) :
  0 < sigma -> 0 <= V_th_rel -> mu <= 0.95 * V_th_rel ->
  20 <= (V_th_rel - mu) / sigma ->
  exists n : nat, forall fuel : nat, (n <= fuel)%nat ->
    forall omega : R, 1e-15 <= Rabs (omega - 0) ->
      exists v : complex,
        transfer_function_1p_shift fuel mu sigma tau_m tau_s tau_r V_th_rel
          V_0_rel omega = Ok v.
Proof.
  intros Hs Hv Hmu Hy.
  set (s := sigma * (sqrt 2 * Rabs (zetac 0.5 + 1)) / 2
            * sqrt (tau_s / tau_m)).
  assert (Hs0 : 0 <= s).
  { unfold s. apply Rmult_le_pos; [|apply sqrt_pos].
    apply Rmult_le_pos; [|lra].
    apply Rmult_le_pos; [lra|].
    apply Rmult_le_pos; [apply sqrt_pos | apply Rabs_pos]. }
  assert (Hy' : 20 <= (V_th_rel + s - mu) / sigma).
  { replace ((V_th_rel + s - mu) / sigma)
      with ((V_th_rel - mu) / sigma + s / sigma) by (unfold Rdiv; ring).
    assert (0 <= s / sigma).
    { apply Rmult_le_pos; [exact Hs0|]. left. apply Rinv_0_lt_compat. lra. }
    lra. }
  destruct (siegert1_guard tau_m tau_r (V_th_rel + s) (V_0_rel + s) mu sigma
              Hy') as [n Hn].
  exists n. intros fuel Hfuel omega Hw.
  unfold transfer_function_1p_shift. fold s.
  cmp_false (Rltb (Rabs (omega - 0)) 1e-15).
  unfold nu_0. rewrite (Rabs_pos_eq (V_th_rel + s)) by lra.
  cmp_true (Rleb mu (V_th_rel + s + (0.95 * (V_th_rel + s) - (V_th_rel + s)))).
  rewrite (Hn fuel Hfuel). cbn [bind]. eexists. reflexivity.
Qed.

(** ** The delay-distribution matrix *)

Lemma map2_repeat_l {A B D : Type} (f : A -> B -> D) (c : A) (n : nat)
  (l : list B) :
  length l = n -> map2 f (repeat c n) l = map (f c) l.
Proof.
  revert n. induction l as [|b l IH]; intros n Hn.
  - destruct n; reflexivity.
  - destruct n as [|n]; [discriminate|]. simpl. f_equal.
    apply IH. simpl in Hn. congruence.
Qed.

Lemma mat_map2_ones {B D : Type} (f : R -> B -> D) (n m : nat)
  (M : list (list B)) :
  has_shape n m M ->
  mat_map2 f (np_ones2 n m) M = map (map (f 1)) M.
Proof.
  intros [Hlen Hrows]. unfold mat_map2, np_ones2.
  rewrite map2_repeat_l by exact Hlen.
  apply map_ext_in. intros row Hin.
  apply map2_repeat_l. rewrite Forall_forall in Hrows. apply Hrows, Hin.
Qed.

Lemma map_const_shape {A B : Type} (c : B) (n m : nat) (M : list (list A)) :
  has_shape n m M ->
  map (map (fun _ => c)) M = repeat (repeat c m) n.
Proof.
  intros [Hlen Hrows]. revert n Hlen.
  induction M as [|row M IH]; intros n Hlen; simpl in Hlen; subst n.
  - reflexivity.
  - simpl. f_equal.
    + pose proof (Forall_inv Hrows) as Hrow. simpl in Hrow. subst m.
      clear. induction row; simpl; congruence.
    + apply IH; [exact (Forall_inv_tail Hrows)|reflexivity].
Qed.

Lemma fixed_delay_entry (omega d : R) :
  (RtoC 1 * Cexp (- mkC 0 omega * RtoC d))%C = exp_minus_i omega d.
Proof.
  unfold Cmul, Cexp, Copp, RtoC, exp_minus_i. simpl.
  replace (- 0 * d - - omega * 0) with 0 by ring.
  replace (- 0 * 0 + - omega * d) with (- (omega * d)) by ring.
  rewrite exp_0, cos_neg, sin_neg. f_equal; ring.
Qed.

Lemma exp_minus_i_zero (d : R) : exp_minus_i 0 d = RtoC 1.
Proof.
  unfold exp_minus_i, RtoC. rewrite Rmult_0_l, cos_0, sin_0, Ropp_0.
  reflexivity.
Qed.

(** C9: with kind 'none' and an N x N delay matrix D,
    delay_dist_matrix_single returns the N x N matrix exp(-i omega D)
    elementwise; at omega = 0 it is the real all-ones matrix. *)
Theorem delay_dist_none (dimension : nat) (Delay Delay_sd : list (list R))
  (omega : R) :
  has_shape dimension dimension Delay ->
  delay_dist_matrix_single dimension Delay Delay_sd "none" omega
  = Some (map (map (exp_minus_i omega)) Delay)
  /\ has_shape dimension dimension (map (map (exp_minus_i omega)) Delay)
  /\ delay_dist_matrix_single dimension Delay Delay_sd "none" 0
     = Some (repeat (repeat (RtoC 1) dimension) dimension).
Proof.
  intros Hshape.
  assert (Hnone : forall w,
             delay_dist_matrix_single dimension Delay Delay_sd "none" w
             = Some (map (map (exp_minus_i w)) Delay)).
  { intros w. unfold delay_dist_matrix_single. simpl String.eqb. cbv iota.
    f_equal.
    rewrite mat_map2_ones
      by (destruct Hshape as [Hl Hr]; split;
          [rewrite length_map; exact Hl
          | apply Forall_map; revert Hr; apply Forall_impl;
            intros row Hrow; rewrite length_map; exact Hrow]).
    rewrite map_map. apply map_ext. intros row.
    rewrite map_map. apply map_ext. intros d.
    apply fixed_delay_entry. }
  split; [apply Hnone|]. split.
  - destruct Hshape as [Hl Hr]. split.
    + rewrite length_map. exact Hl.
    + apply Forall_map. revert Hr. apply Forall_impl.
      intros row Hrow. rewrite length_map. exact Hrow.
  - rewrite Hnone. f_equal.
    rewrite <- (map_const_shape (RtoC 1) dimension dimension Delay Hshape).
    apply map_ext. intros row. apply map_ext. intros d.
    apply exp_minus_i_zero.
Qed.

(** ** The fixed-point iteration *)

Lemma get_rate_difference_unfold (fuel : nat)
  (tau_m tau_s tau_r V_0_rel V_th_rel : R) (K J : list (list R)) (j : R)
  (nu_ext : R) (K_ext : list R) (nu : list R) :
  get_rate_difference fuel tau_m tau_s tau_r V_0_rel V_th_rel K J j nu_ext
    K_ext nu
  = (candidate <- candidate_rates fuel tau_m tau_s tau_r V_0_rel V_th_rel
                    K J j nu_ext K_ext nu ;;
     Ok (map2 Rplus (map Ropp nu) candidate)).
Proof. reflexivity. Qed.

Lemma euler_update (nu candidate : list R) :
  map2 Rplus nu
    (map (fun d => d * 0.05) (map2 Rplus (map Ropp nu) candidate))
  = relaxation_step nu candidate.
Proof.
  unfold relaxation_step. revert candidate.
  induction nu as [|n nu IH]; intros [|c candidate]; simpl; try reflexivity.
  f_equal; [ring | apply IH].
Qed.

Lemma firing_rates_loop_done (fuel_rate fuel : nat)
  (tau_m tau_s tau_r V_0_rel V_th_rel : R) (K J : list (list R)) (j : R)
  (nu_ext : R) (K_ext : list R) (dt : R) (y0 y1 : list R) (eps : R) :
  eps < 1e-5 ->
  firing_rates_loop fuel_rate fuel tau_m tau_s tau_r V_0_rel V_th_rel K J j
    nu_ext K_ext dt y0 y1 eps = Ok y1.
Proof.
  intros H. destruct fuel; simpl; cmp_false (Rgeb eps 1e-5); reflexivity.
Qed.

Section Relaxation.

Variables (fuel_rate : nat) (tau_m tau_s tau_r V_0_rel V_th_rel : R).
Variables (K J : list (list R)) (j nu_ext : R) (K_ext : list R).

Let rates (nu : list R) (k : nat) : result (list R) :=
  relaxation fuel_rate tau_m tau_s tau_r V_0_rel V_th_rel K J j nu_ext K_ext
    nu k.

Let candidate (nu : list R) : result (list R) :=
  candidate_rates fuel_rate tau_m tau_s tau_r V_0_rel V_th_rel K J j nu_ext
    K_ext nu.

Lemma rates_shift (nu c : list R) (k : nat) :
  candidate nu = Ok c ->
  rates nu (S k) = rates (relaxation_step nu c) k.
Proof.
  intros Hc. unfold rates. simpl. fold (candidate nu). rewrite Hc.
  reflexivity.
Qed.

Lemma rates_fail (nu : list R) (k : nat) (v : list R) :
  (forall c, candidate nu <> Ok c) -> rates nu (S k) <> Ok v.
Proof.
  intros Hc. unfold rates. simpl. fold (candidate nu).
  destruct (candidate nu) as [c| |]; simpl; try discriminate.
  exfalso. apply (Hc c). reflexivity.
Qed.

(** A first update with a change of at least 1e-5 moves the stopping index
    by one. *)
Lemma stops_at_shift (nu c : list R) (e : R) (k : nat) (v : list R) :
  candidate nu = Ok c ->
  step_change nu (relaxation_step nu c) = Ok e -> 1e-5 <= e ->
  stops_at (rates nu) (S k) v <-> stops_at (rates (relaxation_step nu c)) k v.
Proof.
  intros Hc He Hge. unfold stops_at.
  rewrite !(rates_shift nu c) by exact Hc.
  split; intros (H1 & H2 & H3); (split; [exact H1|]); (split; [exact H2|]).
  - intros i Hi. destruct (H3 (S i)) as (a & b & e' & Ha & Hb & Hch & Hle);
      [lia|].
    rewrite (rates_shift nu c) in Ha, Hb by exact Hc.
    exists a, b, e'. auto.
  - intros [|i] Hi.
    + exists nu, (relaxation_step nu c), e. repeat split; try assumption.
      rewrite (rates_shift nu c) by exact Hc. reflexivity.
    + destruct (H3 i) as (a & b & e' & Ha & Hb & Hch & Hle); [lia|].
      exists a, b, e'. rewrite !(rates_shift nu c) by exact Hc. auto.
Qed.

Lemma stops_at_first (nu c : list R) (k : nat) (v : list R) :
  candidate nu = Ok c ->
  stops_at (rates nu) k v ->
  exists e, step_change nu (relaxation_step nu c) = Ok e /\
            ((e < 1e-5 /\ k = O /\ v = relaxation_step nu c)
             \/ (1e-5 <= e /\ exists k', k = S k')).
Proof.
  intros Hc (H1 & (prev & e & Hp & Hch & Hlt) & H3).
  destruct k as [|k].
  - rewrite (rates_shift nu c) in H1 by exact Hc.
    unfold rates in H1, Hp. simpl in H1, Hp.
    injection H1 as <-. injection Hp as <-.
    exists e. split; [exact Hch|]. left. auto.
  - destruct (H3 O) as (a & b & e' & Ha & Hb & Hch' & Hle); [lia|].
    rewrite (rates_shift nu c) in Hb by exact Hc.
    unfold rates in Ha, Hb. simpl in Ha, Hb.
    injection Ha as <-. injection Hb as <-.
    exists e'. split; [exact Hch'|]. right. split; [exact Hle|].
    exists k. reflexivity.
Qed.

Lemma firing_rates_loop_stops (fuel : nat) :
  forall (y0 y1 : list R) (eps : R) (v : list R),
    1e-5 <= eps ->
    (firing_rates_loop fuel_rate fuel tau_m tau_s tau_r V_0_rel V_th_rel K J
       j nu_ext K_ext 0.05 y0 y1 eps = Ok v
     <-> exists k : nat, (k < fuel)%nat /\ stops_at (rates y0) k v).
Proof.
  induction fuel as [|fuel IH]; intros y0 y1 eps v Heps.
  - simpl. cmp_true (Rgeb eps 1e-5).
    split; [discriminate|]. intros (k & Hk & _). lia.
  - simpl. cmp_true (Rgeb eps 1e-5).
    rewrite get_rate_difference_unfold. fold (candidate y0).
    destruct (candidate y0) as [c| |] eqn:Hc; cbn [bind].
    + rewrite euler_update. fold (step_change y0 (relaxation_step y0 c)).
      destruct (step_change y0 (relaxation_step y0 c)) as [e| |] eqn:He;
        cbn [bind].
      * destruct (Rlt_dec e 1e-5) as [Hlt|Hge].
        -- rewrite firing_rates_loop_done by exact Hlt. split.
           ++ intros H. injection H as <-. exists O. split; [lia|].
              unfold stops_at. rewrite (rates_shift y0 c) by exact Hc.
              split; [reflexivity|]. split.
              ** exists y0, e. repeat split; assumption.
              ** intros i Hi. lia.
           ++ intros (k & _ & Hstop).
              destruct (stops_at_first y0 c k v Hc Hstop)
                as (e' & He' & [(_ & _ & ->)|(Hle & _)]).
              ** reflexivity.
              ** rewrite He in He'. injection He' as <-. lra.
        -- assert (Hle : 1e-5 <= e) by lra.
           rewrite (IH _ _ _ v Hle). split.
           ++ intros (k & Hk & Hstop). exists (S k). split; [lia|].
              apply (stops_at_shift y0 c e k v Hc He Hle). exact Hstop.
           ++ intros (k & Hk & Hstop).
              destruct (stops_at_first y0 c k v Hc Hstop)
                as (e' & He' & [(Hlt & _ & _)|(_ & k' & ->)]).
              ** rewrite He in He'. injection He' as <-. lra.
              ** exists k'. split; [lia|].
                 apply (stops_at_shift y0 c e k' v Hc He Hle). exact Hstop.
      * split; [discriminate|]. intros (k & _ & Hstop).
        destruct (stops_at_first y0 c k v Hc Hstop) as (e' & He' & _).
        rewrite He in He'. discriminate.
      * split; [discriminate|]. intros (k & _ & Hstop).
        destruct (stops_at_first y0 c k v Hc Hstop) as (e' & He' & _).
        rewrite He in He'. discriminate.
    + split; [discriminate|]. intros (k & _ & (H1 & _)).
      exfalso. revert H1. apply rates_fail. intros c. rewrite Hc.
      discriminate.
    + split; [discriminate|]. intros (k & _ & (H1 & _)).
      exfalso. revert H1. apply rates_fail. intros c. rewrite Hc.
      discriminate.
Qed.

End Relaxation.

(** C2: firing_rates starts from the zero vector and repeats the update
    nu <- nu + 0.05 (candidate - nu), the candidate being the filtered
    stationary rate at every (mu_i, sigma_i) of the network mean and
    standard deviation; it returns the vector produced by the first update
    whose maximum absolute change is below 1e-5, and returns exactly when
    there is such an update within the fuel. *)
Theorem firing_rates_relaxation (fuel : nat) (dimension : nat)
  (tau_m tau_s tau_r V_0_rel V_th_rel : R) (K J : list (list R)) (j : R)
  (nu_ext : R) (K_ext : list R) (nu : list R) :
  firing_rates fuel dimension tau_m tau_s tau_r V_0_rel V_th_rel K J j
    nu_ext K_ext = Ok nu
  <-> exists k : nat,
        (k < fuel)%nat /\
        stops_at (relaxation fuel tau_m tau_s tau_r V_0_rel V_th_rel K J j
                    nu_ext K_ext (np_zeros dimension)) k nu.
Proof.
  unfold firing_rates. apply firing_rates_loop_stops. lra.
Qed.

(** ** The stacked transfer function *)

Lemma map_const_seq {A : Type} (c : A) (start n : nat) :
  map (fun _ => c) (seq start n) = repeat c n.
Proof.
  revert start. induction n as [|n IH]; intros start; simpl;
    [reflexivity | f_equal; apply IH].
Qed.

Lemma length_concat_repeat {A : Type} (l : list A) (k : nat) :
  length (concat (repeat l k)) = (k * length l)%nat.
Proof.
  induction k as [|k IH]; simpl; [reflexivity|].
  rewrite length_app, IH. reflexivity.
Qed.

Lemma chunks_concat_repeat {A : Type} (l : list A) (k : nat) :
  chunks k (length l) (concat (repeat l k)) = repeat l k.
Proof.
  induction k as [|k IH]; simpl; [reflexivity|].
  rewrite firstn_app, Nat.sub_diag, firstn_all. simpl. rewrite app_nil_r.
  rewrite skipn_app, Nat.sub_diag, skipn_all. simpl.
  f_equal. exact IH.
Qed.

Lemma map2_map_r {A B D : Type} (f : A -> B -> D) (g : A -> B)
  (l : list A) :
  map2 f l (map g l) = map (fun x => f x (g x)) l.
Proof. induction l as [|a l IH]; simpl; [reflexivity | f_equal; exact IH]. Qed.

Lemma transpose_repeat {A : Type} (l : list A) (k : nat) :
  transpose (repeat l (S k)) = map (fun h => repeat h (S k)) l.
Proof.
  induction k as [|k IH].
  - reflexivity.
  - change (repeat l (S (S k))) with (l :: repeat l (S k)).
    change (transpose (l :: repeat l (S k)))
      with (map2 cons l (transpose (repeat l (S k)))).
    rewrite IH, map2_map_r. reflexivity.
Qed.

(** Stacking [dimension] copies, reshaping and transposing repeats entry
    [i] of the scaled response along row [i]. *)
Lemma stacked_H_broadcast (transfer_function : list complex)
  (tau_m tau_s : R) (dimension : nat) (omega : R) :
  length transfer_function = dimension -> (0 < dimension)%nat ->
  stacked_H transfer_function tau_m tau_s dimension omega
  = Ok (map (fun h => repeat h dimension)
            (scaled_response transfer_function tau_m tau_s omega)).
Proof.
  intros Hlen Hpos. unfold stacked_H.
  fold (scaled_response transfer_function tau_m tau_s omega).
  set (H := scaled_response transfer_function tau_m tau_s omega).
  assert (HH : length H = dimension).
  { unfold H, scaled_response. rewrite length_map.
    destruct (Rltb omega 0); [rewrite length_map|]; exact Hlen. }
  rewrite map_const_seq.
  destruct dimension as [|d]; [lia|].
  change (np_hstack (repeat H (S d))) with (Ok (concat (repeat H (S d)))).
  cbn [bind]. unfold np_reshape.
  rewrite length_concat_repeat, HH, Nat.eqb_refl. cbn [bind].
  rewrite <- HH at 2. rewrite chunks_concat_repeat.
  rewrite transpose_repeat. reflexivity.
Qed.

(** ** The sensitivity measure *)

Lemma outer_scaled (u_inv u : list complex) (s : complex) :
  map (map (fun t => (t / s)%C)) (np_outer u_inv u)
  = map (fun a => map (fun b => (a * b / s)%C) u) u_inv.
Proof.
  unfold np_outer. rewrite map_map. apply map_ext. intros a.
  rewrite map_map. reflexivity.
Qed.

Lemma sensitivity_measure_unfold (transfer_function : list complex)
  (delay_dist_matrix : list (list complex)) (J : list (list R))
  (tau_m tau_s : R) (dimension : nat) (omega : R) :
  length transfer_function = dimension -> (0 < dimension)%nat ->
  sensitivity_measure transfer_function delay_dist_matrix J tau_m tau_s
    dimension omega
  = sensitivity_spec transfer_function delay_dist_matrix J tau_m tau_s
      dimension omega.
Proof.
  intros Hlen Hpos. unfold sensitivity_measure, sensitivity_spec.
  rewrite stacked_H_broadcast by assumption. cbn [bind].
  fold (effective_connectivity transfer_function delay_dist_matrix J tau_m
          tau_s dimension omega).
  destruct (eig _) as [[e U]| |]; cbn [bind fst snd]; try reflexivity.
  destruct (inv U) as [U_inv| |]; cbn [bind]; try reflexivity.
  destruct (np_argmin _) as [k| |]; cbn [bind]; try reflexivity.
  destruct (index U_inv k) as [u_inv| |]; cbn [bind]; try reflexivity.
  destruct (mapM _ U) as [u| |]; cbn [bind]; try reflexivity.
  unfold mode_projection. rewrite outer_scaled. reflexivity.
Qed.

Lemma argmin_from_spec (l : list R) :
  forall (pre : list R) (best : R) (besti : nat),
    (besti < length pre)%nat ->
    nth besti pre 0 = best ->
    (forall j, (j < length pre)%nat -> best <= nth j pre 0) ->
    (forall j, (j < besti)%nat -> best < nth j pre 0) ->
    first_argmin (pre ++ l) (argmin_from best besti (length pre) l).
Proof.
  induction l as [|x t IH]; intros pre best besti Hbi Hbest Hmin Hfirst.
  - simpl. rewrite app_nil_r. unfold first_argmin. rewrite Hbest.
    repeat split; assumption.
  - simpl.
    replace (pre ++ x :: t) with ((pre ++ [x]) ++ t)
      by (rewrite <- app_assoc; reflexivity).
    replace (S (length pre)) with (length (pre ++ [x]))
      by (rewrite length_app; simpl; lia).
    assert (Hnew : nth (length pre) (pre ++ [x]) 0 = x).
    { rewrite app_nth2 by lia. rewrite Nat.sub_diag. reflexivity. }
    assert (Hold : forall j, (j < length pre)%nat ->
                     nth j (pre ++ [x]) 0 = nth j pre 0).
    { intros j Hj. apply app_nth1. exact Hj. }
    destruct (Rltb x best) eqn:Hx.
    + apply Rltb_true in Hx.
      replace (length pre) with (length (pre ++ [x]) - 1)%nat at 1
        by (rewrite length_app; simpl; lia).
      replace (length (pre ++ [x]) - 1)%nat with (length pre)
        by (rewrite length_app; simpl; lia).
      apply IH.
      * rewrite length_app. simpl. lia.
      * exact Hnew.
      * intros j Hj. rewrite length_app in Hj. simpl in Hj.
        destruct (Nat.eq_dec j (length pre)) as [->|Hne].
        -- rewrite Hnew. lra.
        -- rewrite Hold by lia. specialize (Hmin j). assert (best <= nth j pre 0) by (apply Hmin; lia). lra.
      * intros j Hj. rewrite Hold by lia.
        assert (best <= nth j pre 0) by (apply Hmin; lia). lra.
    + apply Rltb_false in Hx.
      apply IH.
      * rewrite length_app. simpl. lia.
      * rewrite Hold by lia. exact Hbest.
      * intros j Hj. rewrite length_app in Hj. simpl in Hj.
        destruct (Nat.eq_dec j (length pre)) as [->|Hne].
        -- rewrite Hnew. exact Hx.
        -- rewrite Hold by lia. apply Hmin. lia.
      * intros j Hj. rewrite Hold by lia. apply Hfirst. exact Hj.
Qed.

Lemma np_argmin_first (l : list R) (k : nat) :
  np_argmin l = Ok k -> first_argmin l k.
Proof.
  destruct l as [|x t]; simpl; [discriminate|].
  intros H. injection H as <-.
  apply (argmin_from_spec t [x] x 0%nat).
  - simpl. lia.
  - reflexivity.
  - intros j Hj. simpl in Hj. assert (j = 0%nat) by lia. subst. simpl. lra.
  - intros j Hj. lia.
Qed.

(** C7: sensitivity_measure eigendecomposes the effective connectivity
    MH(omega), takes the index k of the eigenvalue nearest to 1 (the first
    index among the least |e - 1|; no mode index can be passed), and returns
    outer(u_inv_k, u_k) / (u_inv_k . u_k) multiplied elementwise by
    MH(omega). *)
Theorem sensitivity_measure_projection (transfer_function : list complex)
  (delay_dist_matrix : list (list complex)) (J : list (list R))
  (tau_m tau_s : R) (dimension : nat) (omega : R) :
  length transfer_function = dimension -> (0 < dimension)%nat ->
  sensitivity_measure transfer_function delay_dist_matrix J tau_m tau_s
    dimension omega
  = sensitivity_spec transfer_function delay_dist_matrix J tau_m tau_s
      dimension omega
  /\ (forall (e : list complex) (k : nat),
        np_argmin (map (fun x => Cabs (x - RtoC 1)%C) e) = Ok k ->
        first_argmin (map (fun x => Cabs (x - RtoC 1)%C) e) k).
Proof.
  intros Hlen Hpos. split.
  - apply sensitivity_measure_unfold; assumption.
  - intros e k. apply np_argmin_first.
Qed.

(** ** Shapes *)

Lemma length_map2 {A B D : Type} (f : A -> B -> D) (l1 : list A)
  (l2 : list B) :
  length (map2 f l1 l2) = Nat.min (length l1) (length l2).
Proof.
  revert l2. induction l1 as [|a l1 IH]; intros [|b l2]; simpl;
    try reflexivity. f_equal. apply IH.
Qed.

Lemma Forall_map2 {A B D : Type} (P : D -> Prop) (f : A -> B -> D)
  (l1 : list A) (l2 : list B) :
  (forall a b, In a l1 -> In b l2 -> P (f a b)) -> Forall P (map2 f l1 l2).
Proof.
  revert l2. induction l1 as [|a l1 IH]; intros [|b l2] H; simpl;
    try constructor.
  - apply H; left; reflexivity.
  - apply IH. intros a' b' Ha Hb. apply H; right; assumption.
Qed.

Lemma mat_map2_shape {A B D : Type} (f : A -> B -> D) (n m : nat)
  (M1 : list (list A)) (M2 : list (list B)) :
  has_shape n m M1 -> has_shape n m M2 -> has_shape n m (mat_map2 f M1 M2).
Proof.
  intros [Hl1 Hr1] [Hl2 Hr2]. unfold mat_map2. split.
  - rewrite length_map2, Hl1, Hl2. apply Nat.min_id.
  - apply Forall_map2. intros r1 r2 H1 H2.
    rewrite Forall_forall in Hr1, Hr2.
    rewrite length_map2, (Hr1 _ H1), (Hr2 _ H2). apply Nat.min_id.
Qed.

Lemma map_map_shape {A B : Type} (f : A -> B) (n m : nat)
  (M : list (list A)) :
  has_shape n m M -> has_shape n m (map (map f) M).
Proof.
  intros [Hl Hr]. split.
  - rewrite length_map. exact Hl.
  - apply Forall_map. revert Hr. apply Forall_impl.
    intros row Hrow. rewrite length_map. exact Hrow.
Qed.

Lemma np_identity_shape (n : nat) : has_shape n n (np_identity n).
Proof.
  unfold np_identity. split.
  - rewrite length_map, length_seq. reflexivity.
  - apply Forall_map. apply Forall_forall. intros i _.
    rewrite length_map, length_seq. reflexivity.
Qed.

Lemma broadcast_shape {A : Type} (l : list A) (n : nat) :
  length l = n -> has_shape n n (map (fun h => repeat h n) l).
Proof.
  intros Hl. split.
  - rewrite length_map. exact Hl.
  - apply Forall_map. apply Forall_forall. intros h _. apply repeat_length.
Qed.

Lemma transpose_shape {A : Type} (M : list (list A)) :
  forall n m : nat,
    has_shape (S n) m M -> has_shape m (S n) (transpose M).
Proof.
  induction M as [|r rest IH]; intros n m [Hl Hr]; [discriminate|].
  pose proof (Forall_inv Hr) as Hrow. simpl in Hrow.
  pose proof (Forall_inv_tail Hr) as Hrest.
  destruct rest as [|r' rest'].
  - simpl in Hl. injection Hl as <-. simpl. split.
    + rewrite length_map. exact Hrow.
    + apply Forall_map. apply Forall_forall. intros x _. reflexivity.
  - destruct n as [|n]; [discriminate|].
    assert (IH' : has_shape m (S n) (transpose (r' :: rest'))).
    { apply IH. split; [simpl in Hl |- *; lia | exact Hrest]. }
    destruct IH' as [IHl IHr].
    change (transpose (r :: r' :: rest'))
      with (map2 cons r (transpose (r' :: rest'))).
    split.
    + rewrite length_map2, Hrow, IHl. apply Nat.min_id.
    + apply Forall_map2. intros a col _ Hcol.
      rewrite Forall_forall in IHr. simpl. rewrite (IHr _ Hcol). reflexivity.
Qed.

Lemma transpose_Forall {A : Type} (P : A -> Prop) (M : list (list A)) :
  Forall (Forall P) M -> Forall (Forall P) (transpose M).
Proof.
  induction M as [|r rest IH]; intros H; [constructor|].
  pose proof (Forall_inv H) as Hrow.
  pose proof (Forall_inv_tail H) as Hrest.
  destruct rest as [|r' rest'].
  - simpl. apply Forall_map. revert Hrow. apply Forall_impl.
    intros x Hx. constructor; [exact Hx | constructor].
  - change (transpose (r :: r' :: rest'))
      with (map2 cons r (transpose (r' :: rest'))).
    apply Forall_map2. intros a col Ha Hcol. constructor.
    + rewrite Forall_forall in Hrow. apply Hrow, Ha.
    + specialize (IH Hrest). rewrite Forall_forall in IH. apply IH, Hcol.
Qed.

Lemma dot_mm_shape (n m : nat) (A B : list (list complex)) :
  length A = n -> length (transpose B) = m -> has_shape n m (dot_mm A B).
Proof.
  intros Ha Hb. unfold dot_mm. split.
  - rewrite length_map. exact Ha.
  - apply Forall_map. apply Forall_forall. intros row _.
    rewrite length_map. exact Hb.
Qed.

Lemma diag_from_length {A : Type} (M : list (list A)) :
  forall i : nat,
    Forall (fun r => (i + length M <= length r)%nat) M ->
    length (diag_from i M) = length M.
Proof.
  induction M as [|r rest IH]; intros i H; [reflexivity|].
  pose proof (Forall_inv H) as Hrow. simpl in Hrow.
  pose proof (Forall_inv_tail H) as Hrest.
  simpl. destruct (nth_error r i) as [x|] eqn:Hx.
  - simpl. f_equal. apply IH. revert Hrest. apply Forall_impl.
    intros r' Hr'. simpl in Hr'. lia.
  - apply nth_error_None in Hx. lia.
Qed.

Lemma np_diag_square {A : Type} (n : nat) (M : list (list A)) :
  has_shape n n M -> length (np_diag M) = n.
Proof.
  intros [Hl Hr]. unfold np_diag. rewrite diag_from_length; [exact Hl|].
  revert Hr. apply Forall_impl. intros r Hrow. lia.
Qed.

(** ** The power spectra *)

Lemma Cabs_nonneg (z : complex) : 0 <= Cabs z.
Proof. apply sqrt_pos. Qed.

Lemma Forall_Cabs (l : list complex) : Forall (fun x => 0 <= x) (map Cabs l).
Proof. apply Forall_map. apply Forall_forall. intros z _. apply Cabs_nonneg. Qed.

Lemma power_spectra_single_freq_Ok (tau_m tau_s : R)
  (transfer_function : list complex) (dimension : nat)
  (J K : list (list R)) (delay_dist_matrix : list (list complex))
  (firing_rates N : list R) (omega : R) (spec : list R) :
  inv_keeps_shape dimension ->
  (0 < dimension)%nat ->
  length transfer_function = dimension ->
  has_shape dimension dimension J ->
  has_shape dimension dimension K ->
  has_shape dimension dimension delay_dist_matrix ->
  power_spectra_single_freq tau_m tau_s transfer_function dimension J K
    delay_dist_matrix firing_rates N omega = Ok spec ->
  length spec = dimension /\ Forall (fun x => 0 <= x) spec.
Proof.
  intros Hinv Hpos Htf HJ HK Hdd. unfold power_spectra_single_freq.
  rewrite stacked_H_broadcast by assumption. cbn [bind].
  set (MH := mat_map2 Cmul _ delay_dist_matrix).
  assert (HMH : has_shape dimension dimension MH).
  { unfold MH. repeat apply mat_map2_shape; try assumption.
    apply broadcast_shape. unfold scaled_response. rewrite length_map.
    destruct (Rltb omega 0); [rewrite length_map|]; exact Htf. }
  destruct (inv _) as [Q| |] eqn:HQ; cbn [bind]; try discriminate.
  apply Hinv in HQ;
    [|apply mat_map2_shape; [apply np_identity_shape | exact HMH]].
  intros H. injection H as <-. split; [|apply Forall_Cabs].
  rewrite length_map. apply np_diag_square.
  destruct dimension as [|d]; [lia|].
  assert (HQh : has_shape (S d) (S d) (transpose (map (map Cconj) Q))).
  { apply transpose_shape, map_map_shape, HQ. }
  set (D := map (map RtoC) _).
  assert (HB : has_shape (S d) (S d)
                 (dot_mm D (transpose (map (map Cconj) Q)))).
  { apply dot_mm_shape.
    - unfold D. rewrite !length_map. apply np_identity_shape.
    - apply (proj1 (transpose_shape _ _ _ HQh)). }
  apply dot_mm_shape; [apply HQ|].
  apply (proj1 (transpose_shape _ _ _ HB)).
Qed.

Lemma enumerate_In {A : Type} (l : list A) (i : nat) (a : A) :
  In (i, a) (enumerate l) -> In a l.
Proof. unfold enumerate. apply in_combine_r. Qed.

Lemma index_In {A : Type} (l : list A) (i : nat) (a : A) :
  index l i = Ok a -> In a l.
Proof. intros H. apply index_Ok in H. apply nth_error_In in H. exact H. Qed.

(** C8: with arrays of the documented shapes, a non-empty frequency grid
    and an inverse that keeps shapes, the array returned by power_spectra
    has populations as its first axis and frequencies as its second
    (N x M), and every entry is a non-negative real. *)
Theorem power_spectra_nonneg (tau_m tau_s : R) (dimension : nat)
  (J K : list (list R)) (delay_dist_matrix : list (list (list complex)))
  (N firing_rates : list R) (transfer_function : list (list complex))
  (omegas : list R) (power : list (list R)) :
  inv_keeps_shape dimension ->
  (0 < dimension)%nat ->
  omegas <> [] ->
  has_shape dimension dimension J ->
  has_shape dimension dimension K ->
  Forall (has_shape dimension dimension) delay_dist_matrix ->
  Forall (fun tf => length tf = dimension) transfer_function ->
  power_spectra tau_m tau_s dimension J K delay_dist_matrix N firing_rates
    transfer_function omegas = Ok power ->
  has_shape dimension (length omegas) power
  /\ Forall (Forall (fun x => 0 <= x)) power.
Proof.
  intros Hinv Hpos Hne HJ HK Hdd Htf. unfold power_spectra.
  destruct (mapM _ (enumerate omegas)) as [rows| |] eqn:Hrows; cbn [bind];
    try discriminate.
  intros H. injection H as <-.
  apply mapM_Ok in Hrows.
  assert (Hlen : length rows = length omegas).
  { apply Forall2_length_eq in Hrows. rewrite <- Hrows.
    unfold enumerate. rewrite length_combine, length_seq. apply Nat.min_id. }
  assert (Hall : Forall (fun row => length row = dimension
                                    /\ Forall (fun x => 0 <= x) row) rows).
  { clear Hlen. induction Hrows as [|io row ios rows' Hrow _ IH];
      constructor; [|exact IH].
    destruct (index transfer_function (fst io)) as [tf_i| |] eqn:Ht;
      cbn [bind] in Hrow; try discriminate.
    destruct (index delay_dist_matrix (fst io)) as [ddm_i| |] eqn:Hd;
      cbn [bind] in Hrow; try discriminate.
    apply index_In in Ht, Hd.
    rewrite Forall_forall in Htf, Hdd.
    apply (power_spectra_single_freq_Ok tau_m tau_s tf_i dimension J K ddm_i
             firing_rates N (snd io)); auto. }
  split.
  - destruct omegas as [|w ws]; [congruence|].
    simpl in Hlen. apply transpose_shape. split; [exact Hlen|].
    revert Hall. apply Forall_impl. intros row [Hr _]. exact Hr.
  - apply transpose_Forall. revert Hall. apply Forall_impl.
    intros row [_ Hr]. exact Hr.
Qed.

(** Inside the overflow guard the filtered rate is 0 as well. *)
Lemma nu0_fb433_in_guard
  (tau_m tau_s tau_r V_th_rel V_0_rel mu sigma : R) :
  mu <= V_th_rel - 0.05 * Rabs V_th_rel ->
  20 <= (V_th_rel - mu) / sigma ->
  exists n : nat, forall fuel : nat, (n <= fuel)%nat ->
    nu0_fb433 fuel tau_m tau_s tau_r V_th_rel V_0_rel mu sigma = Ok 0.
Proof.
  intros Hcut Hy.
  destruct (siegert1_guard tau_m tau_r V_th_rel V_0_rel mu sigma Hy)
    as [n Hn].
  exists n. intros fuel Hfuel.
  assert (H0 : nu_0 fuel tau_m tau_r V_th_rel V_0_rel mu sigma = Ok 0).
  { unfold nu_0. rewrite branch_cut.
    cmp_true (Rleb mu (V_th_rel - 0.05 * Rabs V_th_rel)).
    apply Hn, Hfuel. }
  unfold nu0_fb433. rewrite H0.
  destruct (Rgtb _ _); [reflexivity|]. cbn [bind]. f_equal. simpl. ring.
Qed.

(** * Further properties *)

(** ** Termination and postconditions of the bracket searches *)

Lemma siegert2_integrand_bound (y_th y_r u : R) :
  0 < u -> 2 * y_th <= u -> siegert2_integrand y_th y_r u <= 1 / u.
Proof.
  intros Hu Hy. unfold siegert2_integrand.
  cmp_false (Reqb u 0).
  set (a := exp (2 * y_th * u - u ^ 2)).
  set (b := exp (2 * y_r * u - u ^ 2)).
  assert (Hb : 0 < b) by apply exp_pos.
  assert (Ha : a <= 1).
  { unfold a. rewrite <- exp_0.
    destruct (Req_dec (2 * y_th * u - u ^ 2) 0) as [E|E].
    - rewrite E. lra.
    - left. apply exp_increasing. nra. }
  apply Rmult_le_compat_r; [left; apply Rinv_0_lt_compat; exact Hu | lra].
Qed.

Lemma siegert2_integrand_nonneg (y_th y_r u : R) :
  0 <= u -> y_r <= y_th -> 0 <= siegert2_integrand y_th y_r u.
Proof.
  intros Hu Hy. unfold siegert2_integrand.
  destruct (Reqb u 0) eqn:E; [lra|].
  apply Reqb_false in E.
  assert (Hpos : 0 < u) by lra.
  apply Rmult_le_pos; [|left; apply Rinv_0_lt_compat; exact Hpos].
  assert (2 * y_r * u - u ^ 2 <= 2 * y_th * u - u ^ 2) by nra.
  destruct H as [H|H].
  - apply exp_increasing in H. lra.
  - rewrite H. lra.
Qed.

Lemma siegert2_upper_done (fuel : nat) (y_th y_r err ub : R) :
  err <= 1e-12 -> siegert2_upper fuel y_th y_r err ub = Ok ub.
Proof.
  intros H. destruct fuel; simpl; cmp_false (Rgtb err 1e-12); reflexivity.
Qed.

(** The search of siegert2 stops at [ub * 2 ^ j] for some [j]. *)
Lemma siegert2_upper_terminates (k : nat) :
  forall (fuel : nat) (y_th y_r err ub : R),
    0 < ub -> 1e12 <= ub * 2 ^ k -> 2 * y_th <= ub * 2 ^ k ->
    (S k <= fuel)%nat ->
    exists j : nat,
      siegert2_upper fuel y_th y_r err ub = Ok (ub * 2 ^ j)
      /\ (1e-12 < err -> (0 < j)%nat).
Proof.
  induction k as [|k IH]; intros fuel y_th y_r err ub Hpos H12 Hy Hfuel;
    (destruct fuel as [|fuel]; [lia|]);
    destruct (Rgtb err 1e-12) eqn:Hc.
  - simpl. rewrite Hc. simpl in H12, Hy.
    pose proof (siegert2_integrand_bound y_th y_r ub Hpos) as Hb.
    assert (1 / ub <= 1e-12).
    { apply Rmult_le_reg_r with ub; [lra|].
      unfold Rdiv. rewrite Rmult_assoc, Rinv_l by lra. lra. }
    exists 1%nat. split; [|lia].
    rewrite siegert2_upper_done by lra. f_equal. simpl. ring.
  - exists O. apply Rgtb_false in Hc. split; [|lra].
    rewrite siegert2_upper_done by lra. f_equal. simpl. ring.
  - simpl siegert2_upper. rewrite Hc.
    destruct (IH fuel y_th y_r (siegert2_integrand y_th y_r ub) (ub * 2))
      as (j & Hj & _); try lia; try (simpl in H12, Hy; lra).
    exists (S j). split; [|lia]. rewrite Hj. f_equal. simpl. ring.
  - exists O. apply Rgtb_false in Hc. split; [|lra].
    rewrite siegert2_upper_done by lra. f_equal. simpl. ring.
Qed.

(** X1: siegert2 terminates on every input with sigma <> 0: with enough
    fuel it returns 1 / (tau_r + quad(integrand, 0, ub) * tau_m), where the
    upper bound ub found by the search is a power of two and at least 2. *)
Theorem siegert2_returns (tau_m tau_r V_th_rel V_0_rel mu sigma : R) :
  sigma <> 0 ->
  exists n : nat, forall fuel : nat, (n <= fuel)%nat ->
    exists j : nat,
      siegert2 fuel tau_m tau_r V_th_rel V_0_rel mu sigma
      = Ok (1.0 / (tau_r
                   + quad (siegert2_integrand ((V_th_rel - mu) / sigma)
                             ((V_0_rel - mu) / sigma)) 0.0 (2 ^ S j)
                     * tau_m)).
Proof.
  intros _.
  destruct (pow2_unbounded (Rmax 1e12 (2 * ((V_th_rel - mu) / sigma))))
    as [k Hk].
  exists (S k). intros fuel Hfuel.
  destruct (siegert2_upper_terminates k fuel ((V_th_rel - mu) / sigma)
              ((V_0_rel - mu) / sigma) 1.0 1.0) as (j & Hj & Hpos).
  - lra.
  - pose proof (Rmax_l 1e12 (2 * ((V_th_rel - mu) / sigma))). lra.
  - pose proof (Rmax_r 1e12 (2 * ((V_th_rel - mu) / sigma))). lra.
  - exact Hfuel.
  - destruct j as [|j]; [assert (0 < 0)%nat by (apply Hpos; lra); lia|].
    exists j. unfold siegert2. rewrite Hj. cbn [bind].
    replace (1.0 * 2 ^ S j) with (2 ^ S j) by lra. reflexivity.
Qed.

Lemma siegert1_lower_post (fuel : nat) :
  forall (y_th y_r err lb lb' : R),
    siegert1_lower fuel y_th y_r err lb = Ok lb' ->
    (err <= 1e-12 /\ lb' = lb) \/ lb' <= 1e-16
    \/ siegert1_integrand y_th y_r lb' <= 1e-12.
Proof.
  assert (Hexit : forall err lb : R,
             Rgtb err 1e-12 && Rgtb lb 1e-16 = false ->
             err <= 1e-12 \/ lb <= 1e-16).
  { intros err lb H. apply andb_false_iff in H.
    destruct H as [H|H]; apply Rgtb_false in H; auto. }
  induction fuel as [|fuel IH]; intros y_th y_r err lb lb' H; simpl in H.
  - destruct (Rgtb err 1e-12 && Rgtb lb 1e-16) eqn:Hc; [discriminate|].
    injection H as <-. destruct (Hexit _ _ Hc); auto.
  - destruct (Rgtb err 1e-12 && Rgtb lb 1e-16) eqn:Hc.
    + destruct (Rgtb (siegert1_integrand y_th y_r lb) 1e-12) eqn:He.
      * apply Rgtb_true in He. apply IH in H.
        destruct H as [[H _]|H]; [lra | auto].
      * apply Rgtb_false in He. apply IH in H.
        destruct H as [[_ ->]|H]; auto.
    + injection H as <-. destruct (Hexit _ _ Hc); auto.
Qed.

Lemma siegert1_upper_post (fuel : nat) :
  forall (y_th y_r err ub ub' : R),
    siegert1_upper fuel y_th y_r err ub = Ok ub' ->
    (err <= 1e-12 /\ ub' = ub)
    \/ siegert1_integrand y_th y_r ub' <= 1e-12.
Proof.
  induction fuel as [|fuel IH]; intros y_th y_r err ub ub' H; simpl in H.
  - destruct (Rgtb err 1e-12) eqn:Hc; [discriminate|].
    injection H as <-. apply Rgtb_false in Hc. auto.
  - destruct (Rgtb err 1e-12) eqn:Hc.
    + destruct (Rgtb (siegert1_integrand y_th y_r ub) 1e-12) eqn:He.
      * apply Rgtb_true in He. apply IH in H.
        destruct H as [[H _]|H]; [lra | auto].
      * apply Rgtb_false in He. apply IH in H.
        destruct H as [[_ ->]|H]; auto.
    + injection H as <-. apply Rgtb_false in Hc. auto.
Qed.

(** X2: for mu below V_th (y_th > 0) both bracket searches of siegert1
    terminate; the bracket [lb, ub] they return contains y_th, with
    0 < lb, the integrand is at most 1e-12 at ub, and at lb it is at most
    1e-12 unless lb has dropped to 1e-16. *)
Theorem siegert1_bracket (y_th y_r : R) :
  0 < y_th ->
  exists n : nat, forall fuel : nat, (n <= fuel)%nat ->
    exists lb ub : R,
      siegert1_lower fuel y_th y_r 1.0 y_th = Ok lb /\
      siegert1_upper fuel y_th y_r 1.0 y_th = Ok ub /\
      0 < lb <= y_th /\ y_th <= ub /\
      (lb <= 1e-16 \/ siegert1_integrand y_th y_r lb <= 1e-12) /\
      siegert1_integrand y_th y_r ub <= 1e-12.
Proof.
  intros Hy. destruct (siegert1_brackets y_th y_r Hy) as [n Hn].
  exists n. intros fuel Hfuel.
  destruct (Hn fuel Hfuel) as (lb & ub & Hlb & Hub & Hlbr & Hubr).
  exists lb, ub. repeat split; try assumption; try lra.
  - destruct (siegert1_lower_post _ _ _ _ _ _ Hlb) as [[H _]|H]; [lra|auto].
  - destruct (siegert1_upper_post _ _ _ _ _ _ Hub) as [[H _]|H]; [lra|auto].
Qed.

Lemma siegert1_upper_stuck (fuel : nat) :
  forall (y_th y_r err ub : R),
    ub = 0 -> 1e-12 < err -> 1e-12 < siegert1_integrand y_th y_r 0 ->
    siegert1_upper fuel y_th y_r err ub = Diverge.
Proof.
  induction fuel as [|fuel IH]; intros y_th y_r err ub Hub Herr Hint; simpl;
    cmp_true (Rgtb err 1e-12); [reflexivity|].
  subst ub. cmp_true (Rgtb (siegert1_integrand y_th y_r 0) 1e-12).
  apply IH; [lra | assumption | assumption].
Qed.

(** X3: with V_th = 0, mu = 0 and V_0 below it (2 (-V_0 / sigma) > 1e-12) nu_0
    never returns: the upper search of siegert1 starts at y_th = 0 and
    doubling leaves it at 0, so no amount of fuel is enough. *)
Theorem nu_0_hangs_at_zero_threshold (fuel : nat)
  (tau_m tau_r V_0_rel sigma : R) :
  1e-12 < 2 * (- V_0_rel / sigma) ->
  nu_0 fuel tau_m tau_r 0 V_0_rel 0 sigma = Diverge.
Proof.
  intros H0.
  assert (H : 1e-12 < 2 * ((0 - 0) / sigma - (V_0_rel - 0) / sigma)).
  { replace (2 * ((0 - 0) / sigma - (V_0_rel - 0) / sigma))
      with (2 * (- V_0_rel / sigma)) by (unfold Rdiv; ring).
    exact H0. }
  clear H0. unfold nu_0. rewrite Rabs_R0.
  cmp_true (Rleb 0 (0 + (0.95 * 0 - 0))).
  unfold siegert1.
  assert (Hy : (0 - 0) / sigma = 0) by (unfold Rdiv; ring).
  rewrite siegert1_lower_done by (right; rewrite Hy; lra). cbn [bind].
  rewrite siegert1_upper_stuck; [reflexivity | exact Hy | lra |].
  unfold siegert1_integrand. cmp_true (Reqb 0 0).
  rewrite Hy in *. replace (- 0 ^ 2) with 0 by (simpl; ring).
  rewrite exp_0. lra.
Qed.

(** X4: for valid inputs (sigma, tau_m, tau_r > 0, V_0 <= V_th, V_th <> 0)
    and a quadrature that is non-negative on non-negative integrands, nu_0
    terminates and its rate lies between 0 and the refractory limit
    1 / tau_r. *)
Theorem nu_0_refractory_bound
  (tau_m tau_r V_th_rel V_0_rel mu sigma : R) :
  quad_nonneg ->
  0 < sigma -> 0 < tau_m -> 0 < tau_r ->
  V_0_rel <= V_th_rel -> V_th_rel <> 0 ->
  exists n : nat, forall fuel : nat, (n <= fuel)%nat ->
    exists r : R,
      nu_0 fuel tau_m tau_r V_th_rel V_0_rel mu sigma = Ok r /\
      0 <= r <= 1 / tau_r.
Proof.
  intros Hq Hs Htm Htr Hv Hv0.
  assert (Hyr : (V_0_rel - mu) / sigma <= (V_th_rel - mu) / sigma).
  { apply Rmult_le_compat_r; [left; apply Rinv_0_lt_compat; exact Hs | lra]. }
  assert (Hrecip : forall x : R, 0 <= x -> 0 <= 1 / (tau_r + x) <= 1 / tau_r).
  { intros x Hx. split.
    - left. apply Rdiv_lt_0_compat; lra.
    - unfold Rdiv. rewrite !Rmult_1_l.
      apply Rinv_le_contravar; lra. }
  unfold nu_0. rewrite branch_cut.
  destruct (Rleb mu (V_th_rel - 0.05 * Rabs V_th_rel)) eqn:Hcut.
  - apply Rleb_true in Hcut.
    assert (Hmu : mu < V_th_rel).
    { pose proof (Rabs_pos_lt V_th_rel Hv0). lra. }
    destruct (Rle_dec 20 ((V_th_rel - mu) / sigma)) as [Hg|Hg].
    + destruct (siegert1_guard tau_m tau_r V_th_rel V_0_rel mu sigma Hg)
        as [n Hn].
      exists n. intros fuel Hfuel. exists 0. split; [apply Hn, Hfuel|].
      split; [lra|]. left. apply Rdiv_lt_0_compat; lra.
    + destruct (siegert1_reciprocal V_th_rel V_0_rel mu sigma tau_m
                  Hq Hs Htm Hv Hmu) as [n Hn]; [lra|].
      exists n. intros fuel Hfuel.
      destruct (Hn fuel Hfuel) as (integral & Hi & Heq).
      eexists. split; [apply Heq|].
      apply Hrecip. apply Rmult_le_pos; lra.
  - destruct (pow2_unbounded (Rmax 1e12 (2 * ((V_th_rel - mu) / sigma))))
      as [k Hk].
    exists (S k). intros fuel Hfuel.
    destruct (siegert2_upper_terminates k fuel ((V_th_rel - mu) / sigma)
                ((V_0_rel - mu) / sigma) 1.0 1.0) as (j & Hj & _).
    + lra.
    + pose proof (Rmax_l 1e12 (2 * ((V_th_rel - mu) / sigma))). lra.
    + pose proof (Rmax_r 1e12 (2 * ((V_th_rel - mu) / sigma))). lra.
    + exact Hfuel.
    + unfold siegert2. rewrite Hj. cbn [bind].
      eexists. split; [reflexivity|].
      rewrite one_dot_zero. apply Hrecip.
      apply Rmult_le_pos; [|lra].
      assert (Hub : 0 < 1 * 2 ^ j).
      { rewrite Rmult_1_l. apply pow_lt. lra. }
      apply Hq; [lra|]. intros u Hu.
      apply siegert2_integrand_nonneg; lra.
Qed.

(** ** Vanishing synaptic time constant *)

Lemma sqrt_zero_ratio (tau_m : R) : sqrt (0 / tau_m) = 0.
Proof. unfold Rdiv. rewrite Rmult_0_l. apply sqrt_0. Qed.

Lemma nu0_fb433_no_filter (fuel : nat)
  (tau_m tau_r V_th_rel V_0_rel mu sigma : R) :
  nu0_fb433 fuel tau_m 0 tau_r V_th_rel V_0_rel mu sigma
  = nu_0 fuel tau_m tau_r V_th_rel V_0_rel mu sigma.
Proof.
  unfold nu0_fb433. rewrite sqrt_zero_ratio.
  destruct (Rgtb _ _); [reflexivity|].
  destruct (nu_0 fuel tau_m tau_r V_th_rel V_0_rel mu sigma) as [r| |];
    cbn [bind]; try reflexivity.
  f_equal. unfold Rdiv. ring.
Qed.

(** X5: with tau_s = 0 (and tau_m, sigma <> 0) the filtered-synapse rate
    is the delta-synapse rate: nu0_fb433(tau_m, 0, ...) and
    nu_0(tau_m, ...) return the same value, or fail alike. *)
Theorem nu0_fb433_delta_limit (fuel : nat)
  (tau_m tau_r V_th_rel V_0_rel mu sigma : R) :
  tau_m <> 0 -> sigma <> 0 ->
  nu0_fb433 fuel tau_m 0 tau_r V_th_rel V_0_rel mu sigma
  = nu_0 fuel tau_m tau_r V_th_rel V_0_rel mu sigma.
Proof.
  intros _ _. unfold nu0_fb433. rewrite sqrt_zero_ratio.
  destruct (nu_0 fuel tau_m tau_r V_th_rel V_0_rel mu sigma) as [r| |];
    destruct (Rgtb _ _); cbn [bind]; try reflexivity.
  f_equal. unfold Rdiv. ring.
Qed.

(** X6: with tau_s = 0 the derivative of the filtered rate is the
    derivative of the delta rate: whenever nu_0 returns a non-zero rate
    (and tau_m, sigma <> 0), d_nu_d_mu_fb433(tau_m, 0, ...) returns the
    value of d_nu_d_mu(tau_m, ...). *)
Theorem d_nu_d_mu_fb433_delta_limit (fuel : nat)
  (tau_m tau_r V_th_rel V_0_rel mu sigma nu0 : R) :
  tau_m <> 0 -> sigma <> 0 ->
  nu_0 fuel tau_m tau_r V_th_rel V_0_rel mu sigma = Ok nu0 -> nu0 <> 0 ->
  exists v : R,
    d_nu_d_mu fuel tau_m tau_r V_th_rel V_0_rel mu sigma = Ok v /\
    d_nu_d_mu_fb433 fuel tau_m 0 tau_r V_th_rel V_0_rel mu sigma = Ok v.
Proof.
  intros _ _ Hnu _.
  unfold d_nu_d_mu_fb433, d_nu_d_mu. rewrite sqrt_zero_ratio, Hnu.
  cbn [bind]. eexists. split; [reflexivity|].
  f_equal. unfold Rdiv. ring.
Qed.

(** ** Identities between the special functions *)

(** X7: Phi_prime_mu is the mu-derivative of Phi written through Phi
    itself: for sigma <> 0,
    Phi_prime_mu(s, sigma) = -(sqrt 2 / sigma) (s Phi(s) + 1). *)
Theorem Phi_prime_mu_Phi (s sigma : R) :
  sigma <> 0 ->
  Phi_prime_mu s sigma = - (sqrt 2 / sigma) * (s * Phi s + 1).
Proof.
  intros _. unfold Phi_prime_mu, Phi.
  assert (Hpi : 0 < sqrt PI) by (apply sqrt_lt_R0, PI_RGT_0).
  assert (H2 : 0 < sqrt 2) by (apply sqrt_lt_R0; lra).
  rewrite sqrt_div_alt by lra.
  set (X := exp (s ^ 2 / 2) * (1 + erf (s / sqrt 2))).
  replace (s * exp (s ^ 2 / 2) * (1 + erf (s / sqrt 2))) with (s * X)
    by (unfold X; ring).
  assert (E1 : sqrt PI * (sqrt 2 / sqrt PI) = sqrt 2) by (field; lra).
  assert (E2 : sqrt 2 * (sqrt PI / sqrt 2) = sqrt PI) by (field; lra).
  unfold Rdiv in *.
  replace (- sqrt PI * / sigma * (s * X + sqrt 2 * / sqrt PI))
    with (- / sigma * (sqrt PI * s * X + sqrt PI * (sqrt 2 * / sqrt PI)))
    by ring.
  replace (- (sqrt 2 * / sigma) * (s * (sqrt PI * / sqrt 2 * X) + 1))
    with (- / sigma * (sqrt 2 * (sqrt PI * / sqrt 2) * s * X + sqrt 2))
    by ring.
  rewrite E1, E2. reflexivity.
Qed.

Lemma complex_eq (a b c d : R) : a = c -> b = d -> mkC a b = mkC c d.
Proof. intros -> ->. reflexivity. Qed.

Lemma Cmul_assoc (a b c : complex) : (a * (b * c) = a * b * c)%C.
Proof. unfold Cmul. simpl. apply complex_eq; ring. Qed.

(** X8: the second derivative is the first-derivative recurrence applied
    twice: d_2_Psi(z, x) = (1/2 + z) d_Psi(z + 1, x). *)
Theorem d_2_Psi_recurrence (z : complex) (x : R) :
  d_2_Psi z x = ((RtoC (1 / 2) + z) * d_Psi (z + RtoC 1) x)%C.
Proof.
  unfold d_2_Psi, d_Psi.
  replace (z + RtoC 1 + RtoC 1)%C with (z + RtoC 2)%C
    by (unfold Cadd, RtoC; simpl; apply complex_eq; ring).
  replace (RtoC (1 / 2) + (z + RtoC 1))%C with (RtoC (3 / 2) + z)%C
    by (unfold Cadd, RtoC; simpl; apply complex_eq; field).
  apply eq_sym, Cmul_assoc.
Qed.

(** ** The two transfer-function variants *)

Lemma Cmul_0_l (a : R) (w : complex) :
  a = 0 -> (RtoC a * w)%C = RtoC 0.
Proof.
  intros ->. unfold Cmul, RtoC. simpl. apply complex_eq; ring.
Qed.

Lemma Cadd_0_r (w : complex) : (w + RtoC 0)%C = w.
Proof.
  destruct w as [a b]. unfold Cadd, RtoC. simpl. apply complex_eq; ring.
Qed.

(** X9: with tau_s = 0 and |omega| >= 1e-15 the Taylor variant and the
    shift variant of the transfer function agree: whenever nu_0 returns a
    non-zero rate and the difference Psi_x_r they divide by is not 0 (and
    tau_m, sigma <> 0), both return the same complex value. *)
Theorem transfer_function_variants_agree (fuel : nat)
  (mu sigma tau_m tau_r V_th_rel V_0_rel omega nu0 : R) :
  1e-15 <= Rabs (omega - 0) ->
  tau_m <> 0 -> sigma <> 0 ->
  nu_0 fuel tau_m tau_r V_th_rel V_0_rel mu sigma = Ok nu0 -> nu0 <> 0 ->
  Psi_x_r (py_complex (-0.5) (py_complex1 (omega * tau_m)))
    (sqrt 2 * (V_th_rel - mu) / sigma) (sqrt 2 * (V_0_rel - mu) / sigma)
  <> RtoC 0 ->
  exists v : complex,
    transfer_function_1p_shift fuel mu sigma tau_m 0 tau_r V_th_rel V_0_rel
      omega = Ok v /\
    transfer_function_1p_taylor fuel mu sigma tau_m 0 tau_r V_th_rel V_0_rel
      omega = Ok v.
Proof.
  intros Hw _ _ Hnu _ _.
  cut (transfer_function_1p_taylor fuel mu sigma tau_m 0 tau_r V_th_rel
         V_0_rel omega
       = transfer_function_1p_shift fuel mu sigma tau_m 0 tau_r V_th_rel
           V_0_rel omega
       /\ exists v, transfer_function_1p_shift fuel mu sigma tau_m 0 tau_r
                      V_th_rel V_0_rel omega = Ok v).
  { intros (E & v & Hv). exists v. split; [exact Hv | rewrite E; exact Hv]. }
  split.
  2:{ unfold transfer_function_1p_shift.
      cmp_false (Rltb (Rabs (omega - 0)) 1e-15).
      rewrite sqrt_zero_ratio.
      replace (V_th_rel + sigma * (sqrt 2 * Rabs (zetac 0.5 + 1)) / 2 * 0)
        with V_th_rel by (unfold Rdiv; ring).
      replace (V_0_rel + sigma * (sqrt 2 * Rabs (zetac 0.5 + 1)) / 2 * 0)
        with V_0_rel by (unfold Rdiv; ring).
      rewrite Hnu. cbn [bind]. eexists. reflexivity. }
  clear Hnu.
  unfold transfer_function_1p_taylor, transfer_function_1p_shift.
  cmp_false (Rltb (Rabs (omega - 0)) 1e-15).
  rewrite nu0_fb433_no_filter, sqrt_zero_ratio.
  replace (V_th_rel + sigma * (sqrt 2 * Rabs (zetac 0.5 + 1)) / 2 * 0)
    with V_th_rel by (unfold Rdiv; ring).
  replace (V_0_rel + sigma * (sqrt 2 * Rabs (zetac 0.5 + 1)) / 2 * 0)
    with V_0_rel by (unfold Rdiv; ring).
  destruct (nu_0 fuel tau_m tau_r V_th_rel V_0_rel mu sigma) as [r0| |];
    cbn [bind]; try reflexivity.
  f_equal.
  rewrite (Cmul_0_l (sqrt 2 * Rabs (zetac 0.5 + 1) * tau_m * r0 * 0
                     / sqrt 2 / tau_m / r0))
    by (unfold Rdiv; ring).
  rewrite Cadd_0_r.
  replace (RtoC 1 + py_complex 0 (py_complex1 (omega * tau_m)))%C
    with (mkC 1 (omega * tau_m))
    by (unfold Cadd, RtoC, py_complex, py_complex1; simpl;
        apply complex_eq; ring).
  reflexivity.
Qed.

(** ** Modulus and symmetry of the delay-distribution matrix *)

Lemma map2_map_map {A A' B B' D : Type} (f : A' -> B' -> D) (g : A -> A')
  (h : B -> B') (l1 : list A) (l2 : list B) :
  map2 f (map g l1) (map h l2) = map2 (fun a b => f (g a) (h b)) l1 l2.
Proof.
  revert l2. induction l1 as [|a l1 IH]; intros [|b l2]; simpl;
    try reflexivity. f_equal. apply IH.
Qed.

Lemma mat_map2_map_map {A A' B B' D : Type} (f : A' -> B' -> D)
  (g : A -> A') (h : B -> B') (M1 : list (list A)) (M2 : list (list B)) :
  mat_map2 f (map (map g) M1) (map (map h) M2)
  = mat_map2 (fun a b => f (g a) (h b)) M1 M2.
Proof.
  unfold mat_map2. rewrite map2_map_map.
  revert M2. induction M1 as [|r1 M1 IH]; intros [|r2 M2]; simpl;
    try reflexivity.
  f_equal; [apply map2_map_map | apply IH].
Qed.

Lemma map_map2 {A B D E : Type} (c : D -> E) (f : A -> B -> D)
  (l1 : list A) (l2 : list B) :
  map c (map2 f l1 l2) = map2 (fun a b => c (f a b)) l1 l2.
Proof.
  revert l2. induction l1 as [|a l1 IH]; intros [|b l2]; simpl;
    try reflexivity. f_equal. apply IH.
Qed.

Lemma map_mat_map2 {A B D E : Type} (c : D -> E) (f : A -> B -> D)
  (M1 : list (list A)) (M2 : list (list B)) :
  map (map c) (mat_map2 f M1 M2) = mat_map2 (fun a b => c (f a b)) M1 M2.
Proof.
  unfold mat_map2. rewrite map_map2.
  revert M2. induction M1 as [|r1 M1 IH]; intros [|r2 M2]; simpl;
    try reflexivity.
  f_equal; [apply map_map2 | apply IH].
Qed.

Lemma map2_ext {A B D : Type} (f g : A -> B -> D) (l1 : list A)
  (l2 : list B) :
  (forall a b, f a b = g a b) -> map2 f l1 l2 = map2 g l1 l2.
Proof.
  intros H. revert l2. induction l1 as [|a l1 IH]; intros [|b l2]; simpl;
    try reflexivity. f_equal; [apply H | apply IH].
Qed.

Lemma mat_map2_ext {A B D : Type} (f g : A -> B -> D)
  (M1 : list (list A)) (M2 : list (list B)) :
  (forall a b, f a b = g a b) -> mat_map2 f M1 M2 = mat_map2 g M1 M2.
Proof.
  intros H. unfold mat_map2.
  revert M2. induction M1 as [|r1 M1 IH]; intros [|r2 M2]; simpl;
    try reflexivity.
  f_equal; [apply map2_ext, H | apply IH].
Qed.

Lemma mat_map2_Forall {A B D : Type} (P : D -> Prop) (f : A -> B -> D)
  (M1 : list (list A)) (M2 : list (list B)) :
  (forall a b, P (f a b)) -> Forall (Forall P) (mat_map2 f M1 M2).
Proof.
  intros H. unfold mat_map2. apply Forall_map2. intros r1 r2 _ _.
  apply Forall_map2. intros a b _ _. apply H.
Qed.

Lemma Cexp_delay (omega d : R) :
  Cexp (- mkC 0 omega * RtoC d)%C = exp_minus_i omega d.
Proof.
  unfold Cmul, Cexp, Copp, RtoC, exp_minus_i. simpl.
  replace (- 0 * d - - omega * 0) with 0 by ring.
  replace (- 0 * 0 + - omega * d) with (- (omega * d)) by ring.
  rewrite exp_0, cos_neg, sin_neg. apply complex_eq; ring.
Qed.

Lemma Cabs_exp_minus_i (omega d : R) : Cabs (exp_minus_i omega d) = 1.
Proof.
  unfold Cabs, exp_minus_i. simpl.
  replace (cos (omega * d) * cos (omega * d)
           + - sin (omega * d) * - sin (omega * d))
    with ((sin (omega * d))² + (cos (omega * d))²)
    by (unfold Rsqr; ring).
  rewrite sin2_cos2. apply sqrt_1.
Qed.

Lemma Cabs_scale (a : R) (z : complex) :
  0 <= a -> Cabs (RtoC a * z)%C = a * Cabs z.
Proof.
  intros Ha. unfold Cabs, Cmul, RtoC. simpl.
  replace ((a * re z - 0 * im z) * (a * re z - 0 * im z)
           + (a * im z + 0 * re z) * (a * im z + 0 * re z))
    with (a * a * (re z * re z + im z * im z)) by ring.
  rewrite sqrt_mult_alt by nra.
  rewrite sqrt_square by exact Ha. reflexivity.
Qed.

Lemma mat_map2_Forall2 {A B D : Type} (P1 : A -> Prop) (P2 : B -> Prop)
  (P : D -> Prop) (f : A -> B -> D)
  (M1 : list (list A)) (M2 : list (list B)) :
  Forall (Forall P1) M1 -> Forall (Forall P2) M2 ->
  (forall a b, P1 a -> P2 b -> P (f a b)) ->
  Forall (Forall P) (mat_map2 f M1 M2).
Proof.
  intros H1 H2 H. unfold mat_map2. apply Forall_map2. intros r1 r2 Hr1 Hr2.
  rewrite Forall_forall in H1, H2.
  specialize (H1 _ Hr1). specialize (H2 _ Hr2).
  rewrite Forall_forall in H1, H2.
  apply Forall_map2. intros a b Ha Hb. apply H; auto.
Qed.

Lemma np_ones2_entries (n m : nat) :
  Forall (Forall (fun x => x = 1)) (np_ones2 n m).
Proof.
  unfold np_ones2. apply Forall_forall. intros row Hrow.
  apply repeat_spec in Hrow. subst row.
  apply Forall_forall. intros x Hx. apply repeat_spec in Hx. exact Hx.
Qed.

Lemma Forall_Forall_map {A B : Type} (P : B -> Prop) (f : A -> B)
  (M : list (list A)) :
  (forall a, P (f a)) -> Forall (Forall P) (map (map f) M).
Proof.
  intros H. apply Forall_map. apply Forall_forall. intros row _.
  apply Forall_map. apply Forall_forall. intros a _. apply H.
Qed.

(** X10: with kind 'none' a fixed delay only turns the phase: the call
    returns a matrix and every entry of it has modulus 1. *)
Theorem delay_none_unit_modulus (dimension : nat)
  (Delay Delay_sd : list (list R)) (omega : R) :
  exists M : list (list complex),
    delay_dist_matrix_single dimension Delay Delay_sd "none" omega = Some M
    /\ Forall (Forall (fun z => Cabs z = 1)) M.
Proof.
  unfold delay_dist_matrix_single. simpl String.eqb. cbv iota.
  eexists. split; [reflexivity|].
  apply (mat_map2_Forall2 (fun x => x = 1) (fun z => Cabs z = 1)).
  - apply np_ones2_entries.
  - apply Forall_Forall_map. intros d.
    rewrite Cexp_delay. apply Cabs_exp_minus_i.
  - intros one e -> He. rewrite Cabs_scale by lra. lra.
Qed.

Lemma gaussian_weight_le_1 (sd omega : R) :
  0 < exp (- 0.5 * (sd * omega) ^ 2) <= 1.
Proof.
  split; [apply exp_pos|].
  rewrite <- exp_0.
  assert (H : 0 <= (sd * omega) ^ 2) by apply pow2_ge_0.
  destruct (Req_dec ((sd * omega) ^ 2) 0) as [E|E].
  - rewrite E. replace (- 0.5 * 0) with 0 by ring. lra.
  - left. apply exp_increasing. lra.
Qed.

(** X11: with kind 'gaussian' the entry for delay d and standard deviation
    sd is exp(-(sd omega)^2 / 2) exp(-i omega d); Gaussian delays never
    amplify: every entry has modulus at most 1. *)
Theorem delay_gaussian_attenuates (dimension : nat)
  (Delay Delay_sd : list (list R)) (omega : R) :
  delay_dist_matrix_single dimension Delay Delay_sd "gaussian" omega
  = Some (mat_map2
            (fun sd d =>
               (RtoC (exp (- 0.5 * (sd * omega) ^ 2))
                * exp_minus_i omega d)%C)
            Delay_sd Delay)
  /\ Forall (Forall (fun z => Cabs z <= 1))
       (mat_map2
          (fun sd d =>
             (RtoC (exp (- 0.5 * (sd * omega) ^ 2)) * exp_minus_i omega d)%C)
          Delay_sd Delay).
Proof.
  split.
  - unfold delay_dist_matrix_single. simpl String.eqb. cbv iota.
    f_equal. rewrite mat_map2_map_map. apply mat_map2_ext.
    intros sd d. rewrite Cexp_delay. reflexivity.
  - apply mat_map2_Forall. intros sd d.
    pose proof (gaussian_weight_le_1 sd omega) as [Hpos Hle].
    rewrite Cabs_scale by lra. rewrite Cabs_exp_minus_i. lra.
Qed.

Lemma exp_minus_i_conj (omega d : R) :
  exp_minus_i (- omega) d = Cconj (exp_minus_i omega d).
Proof.
  unfold exp_minus_i, Cconj. simpl.
  replace (- omega * d) with (- (omega * d)) by ring.
  rewrite cos_neg, sin_neg. reflexivity.
Qed.

Lemma Cconj_scale (a : R) (z : complex) :
  Cconj (RtoC a * z)%C = (RtoC a * Cconj z)%C.
Proof.
  unfold Cconj, Cmul, RtoC. simpl. apply complex_eq; ring.
Qed.

(** X12: for kinds 'none' and 'gaussian' the delay-distribution matrix at
    -omega is the complex conjugate of the matrix at omega. *)
Theorem delay_dist_conjugate_symmetry (dimension : nat)
  (Delay Delay_sd : list (list R)) (omega : R) :
  delay_dist_matrix_single dimension Delay Delay_sd "none" (- omega)
  = option_map (map (map Cconj))
      (delay_dist_matrix_single dimension Delay Delay_sd "none" omega)
  /\ delay_dist_matrix_single dimension Delay Delay_sd "gaussian" (- omega)
     = option_map (map (map Cconj))
         (delay_dist_matrix_single dimension Delay Delay_sd "gaussian"
            omega).
Proof.
  unfold delay_dist_matrix_single. simpl String.eqb. cbv iota.
  unfold option_map. split; f_equal.
  - rewrite map_mat_map2.
    rewrite <- (map_id (np_ones2 dimension dimension)) at 1 2.
    rewrite <- (map_ext _ _ (@map_id R)).
    rewrite !mat_map2_map_map. apply mat_map2_ext. intros one d.
    rewrite !Cexp_delay, Cconj_scale, exp_minus_i_conj. reflexivity.
  - rewrite map_mat_map2, !mat_map2_map_map. apply mat_map2_ext.
    intros sd d.
    rewrite !Cexp_delay, Cconj_scale, exp_minus_i_conj.
    replace ((sd * - omega) ^ 2) with ((sd * omega) ^ 2) by ring.
    reflexivity.
Qed.

(** ** Rejected inputs *)

Lemma stacked_H_rejects (transfer_function : list complex)
  (tau_m tau_s : R) (dimension : nat) (omega : R) :
  length transfer_function <> dimension ->
  stacked_H transfer_function tau_m tau_s dimension omega = Raise ValueError.
Proof.
  intros Hlen. unfold stacked_H.
  fold (scaled_response transfer_function tau_m tau_s omega).
  set (H := scaled_response transfer_function tau_m tau_s omega).
  assert (HH : length H = length transfer_function).
  { unfold H, scaled_response. rewrite length_map.
    destruct (Rltb omega 0); [rewrite length_map|]; reflexivity. }
  rewrite map_const_seq.
  destruct dimension as [|d]; [reflexivity|].
  change (np_hstack (repeat H (S d))) with (Ok (concat (repeat H (S d)))).
  cbn [bind]. unfold np_reshape.
  rewrite length_concat_repeat, HH.
  destruct (Nat.eqb_spec (S d * length transfer_function) (S d * S d))
    as [E|E]; [|reflexivity].
  apply Nat.mul_cancel_l in E; [contradiction | discriminate].
Qed.

(** X13: sensitivity_measure and power_spectra_single_freq reject a
    transfer-function vector whose length differs from dimension with a
    ValueError (the reshape to dimension x dimension fails), before any
    eigen-decomposition or inversion. *)
Theorem spectral_functions_reject_length (transfer_function : list complex)
  (delay_dist_matrix : list (list complex)) (J K : list (list R))
  (tau_m tau_s : R) (dimension : nat) (omega : R)
  (firing_rates N : list R) :
  length transfer_function <> dimension ->
  sensitivity_measure transfer_function delay_dist_matrix J tau_m tau_s
    dimension omega = Raise ValueError
  /\ power_spectra_single_freq tau_m tau_s transfer_function dimension J K
       delay_dist_matrix firing_rates N omega = Raise ValueError.
Proof.
  intros Hlen. unfold sensitivity_measure, power_spectra_single_freq.
  rewrite stacked_H_rejects by exact Hlen. split; reflexivity.
Qed.

(** X19: transfer_function raises IndexError on an empty frequency grid,
    and on a non-empty grid with dimension 0 (the unit is read off entry
    [0][0] of the nested list). *)
Theorem transfer_function_empty (fuel : nat) (mu sigma : list R)
  (tau_m tau_s tau_r V_th_rel V_0_rel : R) (dimension : nat)
  (omegas : list R) :
  omegas = [] \/ dimension = 0%nat ->
  transfer_function fuel mu sigma tau_m tau_s tau_r V_th_rel V_0_rel
    dimension omegas = Raise IndexError.
Proof.
  intros [->| ->]; unfold transfer_function.
  - reflexivity.
  - cbn [seq mapM].
    assert (Hrows : mapM (fun _ : R => Ok (@nil complex)) omegas
                    = Ok (map (fun _ => []) omegas)).
    { induction omegas as [|w ws IH]; simpl; [reflexivity|].
      rewrite IH. reflexivity. }
    rewrite Hrows. cbn [bind].
    destruct omegas; reflexivity.
Qed.

(** ** eigen_spectra *)

Lemma mapM_bind_Ok {A B D : Type} (f : A -> result B) (g : B -> D)
  (l : list A) :
  mapM (fun a => t <- f a ;; Ok (g t)) l
  = (ts <- mapM f l ;; Ok (map g ts)).
Proof.
  induction l as [|a l IH]; simpl; [reflexivity|].
  destruct (f a) as [b| |]; cbn [bind]; try reflexivity.
  rewrite IH. destruct (mapM f l); reflexivity.
Qed.

Lemma mapM_length {A B : Type} (f : A -> result B) (l : list A)
  (bs : list B) :
  mapM f l = Ok bs -> length bs = length l.
Proof.
  intros H. apply mapM_Ok in H. symmetry.
  apply (Forall2_length_eq _ _ _ H).
Qed.

Lemma length_enumerate {A : Type} (l : list A) :
  length (enumerate l) = length l.
Proof.
  unfold enumerate. rewrite length_combine, length_seq. apply Nat.min_id.
Qed.

(** X14: eigen_spectra raises UnboundLocalError for a quantity tag other
    than 'eigvals', 'reigvecs' and 'leigvecs', whatever the other
    arguments are. *)
Theorem eigen_spectra_unknown_quantity (tau_m tau_s : R)
  (transfer_function : list (list complex)) (dimension : nat)
  (delay_dist_matrix : list (list (list complex))) (J : list (list R))
  (omegas : list R) (quantity matrix : string) :
  quantity <> "eigvals"%string -> quantity <> "reigvecs"%string ->
  quantity <> "leigvecs"%string ->
  eigen_spectra tau_m tau_s transfer_function dimension delay_dist_matrix J
    omegas quantity matrix = Raise UnboundLocalError.
Proof.
  intros H1 H2 H3. unfold eigen_spectra.
  apply String.eqb_neq in H1, H2, H3. rewrite H1, H2, H3. reflexivity.
Qed.

(** X15: the three quantities of eigen_spectra are computed from the same
    per-frequency triple, so they return or fail together: eigenvalues are
    returned exactly when the left eigenvectors are (the eigenvector matrix
    is inverted even when only eigenvalues are asked for), and every list
    returned has one entry per frequency. *)
Theorem eigen_spectra_together (tau_m tau_s : R)
  (transfer_function : list (list complex)) (dimension : nat)
  (delay_dist_matrix : list (list (list complex))) (J : list (list R))
  (omegas : list R) (matrix : string) :
  ((exists es, eigen_spectra tau_m tau_s transfer_function dimension
                 delay_dist_matrix J omegas "eigvals" matrix
               = Ok (Eigenvalues es) /\ length es = length omegas)
   <-> (exists ls, eigen_spectra tau_m tau_s transfer_function dimension
                     delay_dist_matrix J omegas "leigvecs" matrix
                   = Ok (Eigenvectors ls) /\ length ls = length omegas))
  /\ ((exists es, eigen_spectra tau_m tau_s transfer_function dimension
                    delay_dist_matrix J omegas "eigvals" matrix
                  = Ok (Eigenvalues es) /\ length es = length omegas)
      <-> (exists rs, eigen_spectra tau_m tau_s transfer_function dimension
                        delay_dist_matrix J omegas "reigvecs" matrix
                      = Ok (Eigenvectors rs) /\ length rs = length omegas)).
Proof.
  unfold eigen_spectra. simpl String.eqb. cbv iota.
  rewrite !mapM_bind_Ok.
  destruct (mapM _ (enumerate omegas)) as [ts| |] eqn:Hts; cbn [bind].
  - apply mapM_length in Hts. rewrite length_enumerate in Hts.
    split; split; intros _; eexists; (split; [reflexivity|]);
      rewrite length_map; exact Hts.
  - split; split; intros (x & H & _); discriminate.
  - split; split; intros (x & H & _); discriminate.
Qed.

(** ** The input of an uncoupled network *)

Lemma Rsum_zeros (l : list R) (a : R) :
  Forall (fun x => x = 0) l -> fold_left Rplus l a = a.
Proof.
  revert a. induction l as [|x l IH]; intros a H; simpl; [reflexivity|].
  rewrite IH by exact (Forall_inv_tail H).
  rewrite (Forall_inv H). ring.
Qed.

Lemma map2_Rmult_zeros_l (l1 l2 : list R) :
  Forall (fun x => x = 0) l1 -> Forall (fun x => x = 0) (map2 Rmult l1 l2).
Proof.
  intros H. apply Forall_map2. intros a b Ha _.
  rewrite Forall_forall in H. rewrite (H a Ha). ring.
Qed.

Lemma dot_mv_zeros (M : list (list R)) (v : list R) :
  Forall (Forall (fun x => x = 0)) M ->
  Forall (fun x => x = 0) (dot_mv M v).
Proof.
  intros H. unfold dot_mv. apply Forall_map.
  revert H. apply Forall_impl. intros row Hrow.
  unfold Rsum. apply Rsum_zeros. apply map2_Rmult_zeros_l. exact Hrow.
Qed.

Lemma mat_map2_Rmult_zeros (K M : list (list R)) :
  Forall (Forall (fun x => x = 0)) K ->
  Forall (Forall (fun x => x = 0)) (mat_map2 Rmult K M).
Proof.
  intros H. unfold mat_map2. apply Forall_map2. intros r1 r2 Hr1 _.
  apply map2_Rmult_zeros_l. rewrite Forall_forall in H. apply H, Hr1.
Qed.

Lemma add_external (t : R) (l0 l : list R) :
  Forall (fun x => x = 0) l0 -> length l0 = length l ->
  map2 Rplus (map (fun x => x * t) l0) l = l.
Proof.
  revert l. induction l0 as [|x l0 IH]; intros [|y l] H0 Hlen;
    try discriminate; [reflexivity|].
  simpl. f_equal.
  - rewrite (Forall_inv H0). ring.
  - apply IH; [exact (Forall_inv_tail H0) | simpl in Hlen; congruence].
Qed.

Lemma uncoupled_mean (nu : list R) (K J : list (list R))
  (j tau_m nu_ext : R) (K_ext : list R) (n : nat) :
  Forall (Forall (fun x => x = 0)) K ->
  length K = n -> length J = n -> length K_ext = n ->
  mean nu K J j tau_m nu_ext K_ext
  = map (fun k => j * k * nu_ext * tau_m) K_ext
  /\ standard_deviation nu K J j tau_m nu_ext K_ext
     = map (fun k => sqrt (j ^ 2 * k * nu_ext * tau_m)) K_ext.
Proof.
  intros HK Hk Hj He. unfold mean, standard_deviation. split.
  - apply add_external.
    + apply dot_mv_zeros, mat_map2_Rmult_zeros, HK.
    + unfold dot_mv, mat_map2. rewrite !length_map, length_map2.
      rewrite Hk, Hj, He. apply Nat.min_id.
  - cbv zeta. rewrite add_external.
    + apply map_map.
    + apply dot_mv_zeros, mat_map2_Rmult_zeros, HK.
    + unfold dot_mv, mat_map2. rewrite !length_map, length_map2, length_map.
      rewrite Hk, Hj, He. apply Nat.min_id.
Qed.

(** X18: for an uncoupled network (indegree matrix K all zero, K and J with
    N rows, K_ext and nu of length N) the mean input and its standard
    deviation do not depend on the rates: mean = j K_ext nu_ext tau_m and
    standard_deviation = sqrt(j^2 K_ext nu_ext tau_m), entry by entry. *)
Theorem uncoupled_input (nu : list R) (K J : list (list R))
  (j tau_m nu_ext : R) (K_ext : list R) (n : nat) :
  Forall (Forall (fun x => x = 0)) K ->
  length K = n -> length J = n -> length K_ext = n -> length nu = n ->
  mean nu K J j tau_m nu_ext K_ext
  = map (fun k => j * k * nu_ext * tau_m) K_ext
  /\ standard_deviation nu K J j tau_m nu_ext K_ext
     = map (fun k => sqrt (j ^ 2 * k * nu_ext * tau_m)) K_ext.
Proof.
  intros HK Hk Hj He _. apply (uncoupled_mean nu K J j tau_m nu_ext K_ext n);
    assumption.
Qed.

(** X17: for an empty network (dimension 0, empty K, J and K_ext)
    firing_rates raises ValueError in its first iteration: the maximum of
    an empty change vector is taken. *)
Theorem firing_rates_empty_network (fuel : nat)
  (tau_m tau_s tau_r V_0_rel V_th_rel j nu_ext : R) :
  firing_rates (S fuel) 0 tau_m tau_s tau_r V_0_rel V_th_rel [] [] j nu_ext []
  = Raise ValueError.
Proof.
  unfold firing_rates. cbn [firing_rates_loop].
  cmp_true (Rgeb 1.0 1e-5). reflexivity.
Qed.

(** ** More fuel never changes a result *)

Lemma siegert1_lower_mono (fuel : nat) :
  forall (fuel' : nat) (y_th y_r err lb v : R),
    (fuel <= fuel')%nat ->
    siegert1_lower fuel y_th y_r err lb = Ok v ->
    siegert1_lower fuel' y_th y_r err lb = Ok v.
Proof.
  induction fuel as [|fuel IH]; intros fuel' y_th y_r err lb v Hle H.
  - simpl in H. destruct (Rgtb err 1e-12 && Rgtb lb 1e-16) eqn:Hc;
      [discriminate|].
    destruct fuel'; simpl; rewrite Hc; exact H.
  - destruct fuel' as [|fuel']; [lia|]. simpl in H |- *.
    destruct (Rgtb err 1e-12 && Rgtb lb 1e-16); [|exact H].
    destruct (Rgtb (siegert1_integrand y_th y_r lb) 1e-12);
      (apply IH; [lia | exact H]).
Qed.

Lemma siegert1_upper_mono (fuel : nat) :
  forall (fuel' : nat) (y_th y_r err ub v : R),
    (fuel <= fuel')%nat ->
    siegert1_upper fuel y_th y_r err ub = Ok v ->
    siegert1_upper fuel' y_th y_r err ub = Ok v.
Proof.
  induction fuel as [|fuel IH]; intros fuel' y_th y_r err ub v Hle H.
  - simpl in H. destruct (Rgtb err 1e-12) eqn:Hc; [discriminate|].
    destruct fuel'; simpl; rewrite Hc; exact H.
  - destruct fuel' as [|fuel']; [lia|]. simpl in H |- *.
    destruct (Rgtb err 1e-12); [|exact H].
    destruct (Rgtb (siegert1_integrand y_th y_r ub) 1e-12);
      (apply IH; [lia | exact H]).
Qed.

Lemma siegert2_upper_mono (fuel : nat) :
  forall (fuel' : nat) (y_th y_r err ub v : R),
    (fuel <= fuel')%nat ->
    siegert2_upper fuel y_th y_r err ub = Ok v ->
    siegert2_upper fuel' y_th y_r err ub = Ok v.
Proof.
  induction fuel as [|fuel IH]; intros fuel' y_th y_r err ub v Hle H.
  - simpl in H. destruct (Rgtb err 1e-12) eqn:Hc; [discriminate|].
    destruct fuel'; simpl; rewrite Hc; exact H.
  - destruct fuel' as [|fuel']; [lia|]. simpl in H |- *.
    destruct (Rgtb err 1e-12); [|exact H].
    apply IH; [lia | exact H].
Qed.

Lemma nu_0_mono (fuel fuel' : nat)
  (tau_m tau_r V_th_rel V_0_rel mu sigma v : R) :
  (fuel <= fuel')%nat ->
  nu_0 fuel tau_m tau_r V_th_rel V_0_rel mu sigma = Ok v ->
  nu_0 fuel' tau_m tau_r V_th_rel V_0_rel mu sigma = Ok v.
Proof.
  intros Hle. unfold nu_0, siegert1, siegert2.
  destruct (Rleb mu _).
  - destruct (siegert1_lower fuel _ _ _ _) as [lb| |] eqn:Hlb;
      cbn [bind]; try discriminate.
    rewrite (siegert1_lower_mono _ _ _ _ _ _ _ Hle Hlb). cbn [bind].
    destruct (siegert1_upper fuel _ _ _ _) as [ub| |] eqn:Hub;
      cbn [bind]; try discriminate.
    rewrite (siegert1_upper_mono _ _ _ _ _ _ _ Hle Hub). cbn [bind].
    auto.
  - destruct (siegert2_upper fuel _ _ _ _) as [ub| |] eqn:Hub;
      cbn [bind]; try discriminate.
    rewrite (siegert2_upper_mono _ _ _ _ _ _ _ Hle Hub). cbn [bind].
    auto.
Qed.

Lemma nu0_fb433_mono (fuel fuel' : nat)
  (tau_m tau_s tau_r V_th_rel V_0_rel mu sigma v : R) :
  (fuel <= fuel')%nat ->
  nu0_fb433 fuel tau_m tau_s tau_r V_th_rel V_0_rel mu sigma = Ok v ->
  nu0_fb433 fuel' tau_m tau_s tau_r V_th_rel V_0_rel mu sigma = Ok v.
Proof.
  intros Hle. unfold nu0_fb433.
  destruct (Rgtb _ _).
  - apply nu_0_mono, Hle.
  - destruct (nu_0 fuel _ _ _ _ _ _) as [r| |] eqn:Hr; cbn [bind];
      try discriminate.
    rewrite (nu_0_mono _ _ _ _ _ _ _ _ _ Hle Hr). auto.
Qed.

Lemma candidate_rates_mono (fuel fuel' : nat)
  (tau_m tau_s tau_r V_0_rel V_th_rel : R) (K J : list (list R))
  (j nu_ext : R) (K_ext nu c : list R) :
  (fuel <= fuel')%nat ->
  candidate_rates fuel tau_m tau_s tau_r V_0_rel V_th_rel K J j nu_ext K_ext
    nu = Ok c ->
  candidate_rates fuel' tau_m tau_s tau_r V_0_rel V_th_rel K J j nu_ext
    K_ext nu = Ok c.
Proof.
  intros Hle. unfold candidate_rates. rewrite !mapM_Ok.
  intros H. induction H; constructor; [|assumption].
  apply (nu0_fb433_mono fuel fuel'); assumption.
Qed.

(** ** Python's max *)

Lemma fold_max_spec (t : list R) :
  forall x : R,
    let e := fold_left (fun m y => if Rgtb y m then y else m) t x in
    (e = x \/ In e t) /\ x <= e /\ Forall (fun y => y <= e) t.
Proof.
  induction t as [|y t IH]; intros x; simpl.
  - split; [left; reflexivity|]. split; [lra | constructor].
  - destruct (Rgtb y x) eqn:Hc.
    + apply Rgtb_true in Hc.
      destruct (IH y) as (Hin & Hle & Hall).
      split; [destruct Hin as [->|Hin]; auto|].
      split; [lra|]. constructor; assumption.
    + apply Rgtb_false in Hc.
      destruct (IH x) as (Hin & Hle & Hall).
      split; [destruct Hin as [->|Hin]; auto|].
      split; [lra|]. constructor; [lra | assumption].
Qed.

Lemma py_max_spec (l : list R) (e : R) :
  py_max l = Ok e -> In e l /\ Forall (fun y => y <= e) l.
Proof.
  destruct l as [|x t]; simpl; [discriminate|].
  intros H. injection H as <-.
  destruct (fold_max_spec t x) as (Hin & Hle & Hall).
  split.
  - destruct Hin as [->|Hin]; [left; reflexivity | right; exact Hin].
  - constructor; assumption.
Qed.

Lemma py_max_nonempty (l : list R) :
  l <> [] -> exists e, py_max l = Ok e.
Proof. destruct l; [congruence|]. intros _. eexists. reflexivity. Qed.

(** ** Relaxation of an uncoupled network *)

Lemma map2_map_same {A B D E : Type} (f : B -> D -> E) (g : A -> B)
  (h : A -> D) (l : list A) :
  map2 f (map g l) (map h l) = map (fun x => f (g x) (h x)) l.
Proof. induction l as [|a l IH]; simpl; [reflexivity | f_equal; exact IH]. Qed.

Lemma map2_map_l_same {A B D : Type} (f : B -> A -> D) (g : A -> B)
  (l : list A) :
  map2 f (map g l) l = map (fun x => f (g x) x) l.
Proof. induction l as [|a l IH]; simpl; [reflexivity | f_equal; exact IH]. Qed.

Section Uncoupled.

Variables (fuel_rate : nat) (tau_m tau_s tau_r V_0_rel V_th_rel : R).
Variables (K J : list (list R)) (j nu_ext : R) (K_ext : list R).
Variables (c : list R) (m : R).

Hypothesis candidate_constant :
  forall nu : list R,
    candidate_rates fuel_rate tau_m tau_s tau_r V_0_rel V_th_rel K J j
      nu_ext K_ext nu = Ok c.
Hypothesis c_nonempty : c <> [].
Hypothesis m_max : py_max (map Rabs c) = Ok m.

(** The rates after [k] updates started from zero. *)
Let approach (k : nat) : list R := map (fun ci => (1 - 0.95 ^ k) * ci) c.

Lemma approach_step (k : nat) :
  relaxation_step (approach k) c = approach (S k).
Proof.
  unfold relaxation_step, approach. rewrite map2_map_l_same.
  apply map_ext. intros ci. cbv beta. rewrite <- tech_pow_Rmult. lra.
Qed.

Lemma approach_change (k : nat) :
  map Rabs (map2 Rminus (approach (S k)) (approach k))
  = map (fun ci => 0.05 * 0.95 ^ k * Rabs ci) c.
Proof.
  unfold approach. rewrite map2_map_same, map_map.
  apply map_ext. intros ci.
  replace ((1 - 0.95 ^ S k) * ci - (1 - 0.95 ^ k) * ci)
    with (0.05 * 0.95 ^ k * ci) by (rewrite <- tech_pow_Rmult; lra).
  rewrite Rabs_mult. f_equal. apply Rabs_pos_eq.
  assert (0 < 0.95 ^ k) by (apply pow_lt; lra). lra.
Qed.

Lemma approach_close (k : nat) (e : R) :
  Forall (fun y => y <= e) (map (fun ci => 0.05 * 0.95 ^ k * Rabs ci) c) ->
  e < 1e-5 ->
  Forall2 (fun v ci => Rabs (v - ci) < 1.9e-4) (approach (S k)) c.
Proof.
  intros Hall He. unfold approach.
  rewrite Forall_map in Hall. clear c_nonempty m_max candidate_constant.
  induction c as [|ci l IH]; simpl; constructor.
  - pose proof (Forall_inv Hall) as Hci. simpl in Hci.
    replace ((1 - 0.95 * 0.95 ^ k) * ci - ci)
      with (- (0.95 * 0.95 ^ k) * ci) by ring.
    rewrite Rabs_mult, Rabs_Ropp, Rabs_pos_eq.
    + lra.
    + assert (0 < 0.95 ^ k) by (apply pow_lt; lra). lra.
  - apply IH. exact (Forall_inv_tail Hall).
Qed.

Lemma relaxation_converges (d : nat) :
  forall (k fuel : nat) (y1 : list R) (eps : R),
    0.05 * 0.95 ^ (k + d) * m < 1e-5 -> 1e-5 <= eps -> (d < fuel)%nat ->
    exists nu : list R,
      firing_rates_loop fuel_rate fuel tau_m tau_s tau_r V_0_rel V_th_rel
        K J j nu_ext K_ext 0.05 (approach k) y1 eps = Ok nu
      /\ Forall2 (fun v ci => Rabs (v - ci) < 1.9e-4) nu c.
Proof.
  induction d as [|d IH]; intros k fuel y1 eps Hsmall Heps Hfuel;
    (destruct fuel as [|fuel]; [lia|]);
    cbn [firing_rates_loop]; cmp_true (Rgeb eps 1e-5);
    rewrite get_rate_difference_unfold, candidate_constant; cbn [bind];
    rewrite euler_update, approach_step, approach_change;
    (destruct (py_max_nonempty
                 (map (fun ci => 0.05 * 0.95 ^ k * Rabs ci) c)) as [e He];
     [destruct c; [congruence | discriminate]|]);
    rewrite He; cbn [bind];
    destruct (py_max_spec _ _ He) as [Hin Hall];
    destruct (Rlt_dec e 1e-5) as [Hlt|Hge];
    try (rewrite firing_rates_loop_done by exact Hlt;
         exists (approach (S k)); split;
         [reflexivity | apply (approach_close k e); assumption]).
  - exfalso. apply Hge.
    apply in_map_iff in Hin. destruct Hin as (ci & <- & Hci).
    destruct (py_max_spec _ _ m_max) as [_ Hm].
    rewrite Forall_map, Forall_forall in Hm. specialize (Hm ci Hci).
    rewrite Nat.add_0_r in Hsmall.
    assert (0 < 0.95 ^ k) by (apply pow_lt; lra).
    assert (0.05 * 0.95 ^ k * Rabs ci <= 0.05 * 0.95 ^ k * m).
    { apply Rmult_le_compat_l; [lra | exact Hm]. }
    lra.
  - apply IH; [|lra|lia].
    replace (S k + d)%nat with (k + S d)%nat by lia. exact Hsmall.
Qed.

End Uncoupled.

Lemma zeros_approach (c : list R) :
  map (fun ci => (1 - 0.95 ^ 0) * ci) c = np_zeros (length c).
Proof.
  unfold np_zeros. induction c as [|ci l IH]; simpl; [reflexivity|].
  f_equal; [ring | exact IH].
Qed.

Lemma geometric_small (m : R) :
  exists k : nat, 0.05 * 0.95 ^ k * m < 1e-5.
Proof.
  destruct (Rle_dec m 0) as [Hm|Hm].
  - exists O. simpl. lra.
  - assert (Hq : Rabs 0.95 < 1) by (rewrite Rabs_pos_eq; lra).
    assert (Hy : 0 < 1e-5 / (0.05 * m)).
    { apply Rdiv_lt_0_compat; lra. }
    destruct (pow_lt_1_zero 0.95 Hq _ Hy) as [N HN].
    exists N. specialize (HN N (Nat.le_refl N)).
    rewrite Rabs_pos_eq in HN by (left; apply pow_lt; lra).
    apply Rmult_lt_compat_r with (r := 0.05 * m) in HN; [|lra].
    unfold Rdiv in HN. rewrite Rmult_assoc, Rinv_l, Rmult_1_r in HN by lra.
    lra.
Qed.

(** X16: for an uncoupled network (K all zero; K, J with N >= 1 rows,
    K_ext of length N) whose candidate rates c evaluate, firing_rates
    terminates, and every rate it returns is within 1.9e-4 of the
    candidate: the relaxation nu_k = (1 - 0.95^k) c stops at the first k
    with 0.05 * 0.95^k * max|c| < 1e-5. *)
Theorem firing_rates_uncoupled (n0 dimension : nat)
  (tau_m tau_s tau_r V_0_rel V_th_rel : R) (K J : list (list R))
  (j nu_ext : R) (K_ext c : list R) :
  Forall (Forall (fun x => x = 0)) K ->
  length K = dimension -> length J = dimension ->
  length K_ext = dimension -> (0 < dimension)%nat ->
  candidate_rates n0 tau_m tau_s tau_r V_0_rel V_th_rel K J j nu_ext K_ext
    (np_zeros dimension) = Ok c ->
  exists n : nat, forall fuel : nat, (n <= fuel)%nat ->
    exists nu : list R,
      firing_rates fuel dimension tau_m tau_s tau_r V_0_rel V_th_rel K J j
        nu_ext K_ext = Ok nu
      /\ Forall2 (fun v ci => Rabs (v - ci) < 1.9e-4) nu c.
Proof.
  intros HK Hk Hj He Hpos Hc.
  assert (Hlen : length c = dimension).
  { apply mapM_length in Hc. rewrite Hc, length_combine.
    destruct (uncoupled_mean (np_zeros dimension) K J j tau_m nu_ext K_ext
                dimension HK Hk Hj He) as [-> ->].
    rewrite !length_map, He. apply Nat.min_id. }
  assert (Hne : c <> []).
  { intros ->. simpl in Hlen. lia. }
  destruct (py_max_nonempty (map Rabs c)) as [m Hm].
  { destruct c; [congruence | discriminate]. }
  destruct (geometric_small m) as [k0 Hk0].
  exists (n0 + S k0)%nat. intros fuel Hfuel.
  assert (Hconst : forall nu : list R,
             candidate_rates fuel tau_m tau_s tau_r V_0_rel V_th_rel K J j
               nu_ext K_ext nu = Ok c).
  { intros nu. apply (candidate_rates_mono n0 fuel); [lia|].
    unfold candidate_rates in Hc |- *.
    destruct (uncoupled_mean nu K J j tau_m nu_ext K_ext dimension
                HK Hk Hj He) as [-> ->].
    destruct (uncoupled_mean (np_zeros dimension) K J j tau_m nu_ext K_ext
                dimension HK Hk Hj He) as [Em Es].
    rewrite Em, Es in Hc. exact Hc. }
  unfold firing_rates.
  rewrite <- Hlen, <- zeros_approach.
  apply (relaxation_converges fuel tau_m tau_s tau_r V_0_rel V_th_rel K J j
           nu_ext K_ext c m Hconst Hne Hm k0 O fuel); [exact Hk0 | lra | lia].
Qed.

(** ** Zero frequency in the Taylor variant *)

(** X20: at zero frequency (|omega| < 1e-15) the Taylor variant calls
    d_nu_d_mu_fb433 with the seven arguments it takes: whenever nu_0
    returns a non-zero rate (and 0 < tau_m, 0 <= tau_s, sigma <> 0),
    transfer_function_1p_taylor returns a real number, the value of
    d_nu_d_mu_fb433. *)
Theorem taylor_zero_frequency (fuel : nat)
  (mu sigma tau_m tau_s tau_r V_th_rel V_0_rel omega nu0 : R) :
  Rabs (omega - 0) < 1e-15 ->
  0 < tau_m -> 0 <= tau_s -> sigma <> 0 ->
  nu_0 fuel tau_m tau_r V_th_rel V_0_rel mu sigma = Ok nu0 -> nu0 <> 0 ->
  exists v : R,
    d_nu_d_mu_fb433 fuel tau_m tau_s tau_r V_th_rel V_0_rel mu sigma = Ok v
    /\ transfer_function_1p_taylor fuel mu sigma tau_m tau_s tau_r V_th_rel
         V_0_rel omega = Ok (RtoC v).
Proof.
  intros Hw _ _ _ Hnu _. unfold transfer_function_1p_taylor.
  cmp_true (Rltb (Rabs (omega - 0)) 1e-15).
  unfold call. cbn [length params d_nu_d_mu_fb433_fun Nat.eqb body].
  unfold d_nu_d_mu_fb433, d_nu_d_mu. rewrite Hnu. cbn [bind].
  eexists. split; reflexivity.
Qed.

(** ** Bounds kept by the relaxation *)

Lemma relaxation_step_between (a b : R) (nu c : list R) :
  Forall (fun x => a <= x <= b) nu -> Forall (fun x => a <= x <= b) c ->
  Forall (fun x => a <= x <= b) (relaxation_step nu c).
Proof.
  intros Hnu Hc. unfold relaxation_step. apply Forall_map2.
  intros n ci Hn Hci. rewrite Forall_forall in Hnu, Hc.
  specialize (Hnu n Hn). specialize (Hc ci Hci). lra.
Qed.

Lemma firing_rates_loop_between (a b : R) (fuel_rate : nat)
  (tau_m tau_s tau_r V_0_rel V_th_rel : R) (K J : list (list R))
  (j nu_ext : R) (K_ext : list R) :
  (forall nu c : list R,
      candidate_rates fuel_rate tau_m tau_s tau_r V_0_rel V_th_rel K J j
        nu_ext K_ext nu = Ok c ->
      Forall (fun x => a <= x <= b) c) ->
  forall (fuel : nat) (y0 y1 : list R) (eps : R) (nu : list R),
    Forall (fun x => a <= x <= b) y0 -> Forall (fun x => a <= x <= b) y1 ->
    firing_rates_loop fuel_rate fuel tau_m tau_s tau_r V_0_rel V_th_rel K J
      j nu_ext K_ext 0.05 y0 y1 eps = Ok nu ->
    Forall (fun x => a <= x <= b) nu.
Proof.
  intros Hcand fuel.
  induction fuel as [|fuel IH]; intros y0 y1 eps nu H0 H1; simpl;
    destruct (Rgeb eps 1e-5); try discriminate;
    try (intros H; injection H as <-; exact H1).
  rewrite get_rate_difference_unfold.
  destruct (candidate_rates _ _ _ _ _ _ _ _ _ _ _ y0) as [c| |] eqn:Hc;
    cbn [bind]; try discriminate.
  rewrite euler_update.
  destruct (py_max _) as [e| |]; cbn [bind]; try discriminate.
  apply IH; apply relaxation_step_between; try assumption;
    apply (Hcand y0 c Hc).
Qed.

(** X21: the relaxation keeps bounds: if every candidate rate vector lies
    in [a, b] with a <= 0 <= b, every entry of the vector returned by
    firing_rates lies in [a, b] (each update is a convex combination of
    the current rates and the candidate). *)
Theorem firing_rates_between (a b : R) (fuel dimension : nat)
  (tau_m tau_s tau_r V_0_rel V_th_rel : R) (K J : list (list R))
  (j nu_ext : R) (K_ext nu : list R) :
  a <= 0 <= b ->
  (forall nu' c : list R,
      candidate_rates fuel tau_m tau_s tau_r V_0_rel V_th_rel K J j
        nu_ext K_ext nu' = Ok c ->
      Forall (fun x => a <= x <= b) c) ->
  firing_rates fuel dimension tau_m tau_s tau_r V_0_rel V_th_rel K J j
    nu_ext K_ext = Ok nu ->
  Forall (fun x => a <= x <= b) nu.
Proof.
  intros Hab Hcand. unfold firing_rates.
  assert (Hz : Forall (fun x => a <= x <= b) (np_zeros dimension)).
  { unfold np_zeros. apply Forall_forall. intros x Hx.
    apply repeat_spec in Hx. subst x. exact Hab. }
  apply (firing_rates_loop_between a b fuel tau_m tau_s tau_r V_0_rel
           V_th_rel K J j nu_ext K_ext Hcand fuel); exact Hz.
Qed.

(** ** No index error in the sensitivity measure *)

Lemma np_argmin_Ok (l : list R) :
  l <> [] -> exists k, np_argmin l = Ok k /\ (k < length l)%nat.
Proof.
  intros Hne. destruct l as [|x t] eqn:E; [congruence|].
  rewrite <- E. assert (H : exists k, np_argmin l = Ok k).
  { subst l. eexists. reflexivity. }
  destruct H as [k Hk]. exists k. split; [exact Hk|].
  apply np_argmin_first in Hk. apply Hk.
Qed.

Lemma column_Ok {A : Type} (k n : nat) (U : list (list A)) :
  Forall (fun row => length row = n) U -> (k < n)%nat ->
  exists col, mapM (fun row => index row k) U = Ok col
              /\ length col = length U.
Proof.
  intros HU Hk. induction U as [|row U IH]; simpl.
  - exists []. auto.
  - pose proof (Forall_inv HU) as Hrow. simpl in Hrow.
    destruct (nth_error row k) as [x|] eqn:Hx.
    + rewrite (proj2 (index_Ok row k x) Hx). cbn [bind].
      destruct (IH (Forall_inv_tail HU)) as (col & Hcol & Hlen).
      rewrite Hcol. cbn [bind]. exists (x :: col). simpl. auto.
    + apply nth_error_None in Hx. lia.
Qed.

(** X22: for arrays of the documented shapes (transfer function of length
    N >= 1; J and the delay matrix N x N) and eig, inv that keep shapes,
    sensitivity_measure raises no IndexError or ValueError of its own: once
    the eigen-decomposition and the inversion succeed it returns, and the
    matrix returned is N x N. *)
Theorem sensitivity_measure_returns (transfer_function : list complex)
  (delay_dist_matrix : list (list complex)) (J : list (list R))
  (tau_m tau_s : R) (dimension : nat) (omega : R)
  (e : list complex) (U U_inv : list (list complex)) :
  eig_keeps_shape dimension -> inv_keeps_shape dimension ->
  (0 < dimension)%nat ->
  length transfer_function = dimension ->
  has_shape dimension dimension J ->
  has_shape dimension dimension delay_dist_matrix ->
  eig (effective_connectivity transfer_function delay_dist_matrix J tau_m
         tau_s dimension omega) = Ok (e, U) ->
  inv U = Ok U_inv ->
  exists T : list (list complex),
    sensitivity_measure transfer_function delay_dist_matrix J tau_m tau_s
      dimension omega = Ok T
    /\ has_shape dimension dimension T.
Proof.
  intros Heig Hinv Hpos Htf HJ Hdd HeU HU.
  rewrite sensitivity_measure_unfold by assumption.
  unfold sensitivity_spec.
  set (MH := effective_connectivity transfer_function delay_dist_matrix J
               tau_m tau_s dimension omega) in *.
  assert (HMH : has_shape dimension dimension MH).
  { unfold MH, effective_connectivity.
    repeat apply mat_map2_shape; try assumption.
    apply broadcast_shape. unfold scaled_response. rewrite length_map.
    destruct (Rltb omega 0); [rewrite length_map|]; exact Htf. }
  rewrite HeU. cbn [bind fst snd]. rewrite HU. cbn [bind].
  destruct (Heig MH e U HMH HeU) as [He HUs].
  pose proof (Hinv U U_inv HUs HU) as HUi.
  destruct (np_argmin_Ok (map (fun x => Cabs (x - RtoC 1)%C) e))
    as (k & Hk & Hlt).
  { intros E. apply (f_equal (@length R)) in E.
    rewrite length_map, He in E. simpl in E. lia. }
  rewrite length_map, He in Hlt. rewrite Hk. cbn [bind].
  destruct HUi as [HUil HUir]. destruct HUs as [HUl HUr].
  destruct (nth_error U_inv k) as [u_inv|] eqn:Hrow;
    [|apply nth_error_None in Hrow; lia].
  rewrite (proj2 (index_Ok U_inv k u_inv) Hrow). cbn [bind].
  destruct (column_Ok k dimension U HUr Hlt) as (u & Hu & Hul).
  rewrite Hu. cbn [bind]. eexists. split; [reflexivity|].
  unfold mode_projection. apply mat_map2_shape; [|exact HMH].
  split.
  - rewrite length_map. rewrite Forall_forall in HUir.
    apply HUir. apply (nth_error_In _ _ Hrow).
  - apply Forall_map. apply Forall_forall. intros a _.
    rewrite length_map. congruence.
Qed.

Lemma nu0_fb433_guard_value (fuel : nat)
  (tau_m tau_s tau_r V_th_rel V_0_rel mu sigma r : R) :
  mu <= V_th_rel - 0.05 * Rabs V_th_rel ->
  20 <= (V_th_rel - mu) / sigma ->
  nu0_fb433 fuel tau_m tau_s tau_r V_th_rel V_0_rel mu sigma = Ok r ->
  r = 0.
Proof.
  intros Hcut Hy. unfold nu0_fb433, nu_0. rewrite branch_cut.
  cmp_true (Rleb mu (V_th_rel - 0.05 * Rabs V_th_rel)).
  destruct (siegert1 fuel tau_m tau_r V_th_rel V_0_rel mu sigma)
    as [r0| |] eqn:Hr0; destruct (Rgtb _ _); cbn [bind]; try discriminate;
    apply (siegert1_guard_value _ _ _ _ _ _ _ _ Hy) in Hr0; subst r0;
    intros H; injection H as <-; [reflexivity | simpl; ring].
Qed.

End Engine.

(** * Examples on concrete inputs *)

Lemma quad_midpoint_nonneg : quad_nonneg quad_midpoint.
Proof.
  intros f a b Hab Hf. unfold quad_midpoint.
  apply Rmult_le_pos; [lra|]. apply Hf. lra.
Qed.

Lemma Rabs_15 : Rabs 15 = 15.
Proof. apply Rabs_pos_eq. lra. Qed.

Lemma siegert1_overflow_guard_witness :
  20 <= (15 - (-100)) / 5 /\
  (forall (fuel : nat) (r : R),
      siegert1 quad_midpoint fuel 0.01 0.002 15 0 (-100) 5 = Ok r -> r = 0)
  /\ (exists n : nat, forall fuel : nat, (n <= fuel)%nat ->
        siegert1 quad_midpoint fuel 0.01 0.002 15 0 (-100) 5 = Ok 0).
Proof.
  split; [lra|].
  apply (siegert1_overflow_guard quad_midpoint 0.01 0.002 15 0 (-100) 5).
  lra.
Defined.

(** C4, as stated, fails at tau_m = 10 ms, tau_r = 2 ms, V_th = 15 mV,
    V_0 = 0 mV, mu = -100 mV, sigma = 5 mV (y_th = 23): the source returns
    0, the reciprocal 1 / (tau_r + tau_m * integral) is positive. *)
Lemma nu_0_not_always_reciprocal :
  exists (fuel : nat) (v w : R),
    nu_0 quad_midpoint fuel 0.01 0.002 15 0 (-100) 5 = Ok v /\
    stationary_rate_delta_claimed quad_midpoint fuel 0.01 0.002 15 0 (-100) 5
    = Ok w /\
    v <> w.
Proof.
  destruct (guard_against_reciprocal quad_midpoint 0.01 0.002 15 0 (-100) 5)
    as [n Hn];
    try (rewrite ?Rabs_15; lra); [apply quad_midpoint_nonneg|].
  destruct (Hn n (Nat.le_refl n)) as (Hv & w & Hw & Hpos).
  exists n, 0, w. repeat split; try assumption. lra.
Qed.

(** C6, as stated, fails at the same input: the rate is 0 for tau_r = 2 ms
    and for tau_r = 4 ms, neither positive nor decreasing. *)
Lemma nu_0_guard_not_decreasing :
  exists (fuel : nat) (r1 r2 : R),
    nu_0 quad_midpoint fuel 0.01 0.002 15 0 (-100) 5 = Ok r1 /\
    nu_0 quad_midpoint fuel 0.01 0.004 15 0 (-100) 5 = Ok r2 /\
    ~ 0 < r1 /\ ~ r2 < r1.
Proof.
  destruct (guard_against_reciprocal quad_midpoint 0.01 0.002 15 0 (-100) 5)
    as [n1 Hn1];
    try (rewrite ?Rabs_15; lra); [apply quad_midpoint_nonneg|].
  destruct (guard_against_reciprocal quad_midpoint 0.01 0.004 15 0 (-100) 5)
    as [n2 Hn2];
    try (rewrite ?Rabs_15; lra); [apply quad_midpoint_nonneg|].
  exists (n1 + n2)%nat, 0, 0.
  destruct (Hn1 (n1 + n2)%nat) as [H1 _]; [lia|].
  destruct (Hn2 (n1 + n2)%nat) as [H2 _]; [lia|].
  repeat split; try assumption; lra.
Qed.

Lemma nu_0_nonincreasing_in_tau_r_witness :
  exists n : nat, forall fuel : nat, (n <= fuel)%nat ->
    exists r1 r2 : R,
      nu_0 quad_midpoint fuel 0.01 0.002 15 0 0 5 = Ok r1 /\
      nu_0 quad_midpoint fuel 0.01 0.004 15 0 0 5 = Ok r2 /\
      r2 <= r1 /\
      ((15 - 0) / 5 < 20 -> 0 < r2) /\
      (20 <= (15 - 0) / 5 -> r1 = 0 /\ r2 = 0).
Proof.
  apply (nu_0_nonincreasing_in_tau_r quad_midpoint 0.01 15 0 0 5
           0.002 0.004);
    try (rewrite ?Rabs_15; lra).
  apply quad_midpoint_nonneg.
Defined.

Lemma erf_sigmoid_0 : erf_sigmoid 0 = 0.
Proof. unfold erf_sigmoid, Rdiv. apply Rmult_0_l. Qed.

Lemma erf_sigmoid_pos (x : R) : 0 < x -> 0 < erf_sigmoid x.
Proof.
  intros Hx. unfold erf_sigmoid.
  apply Rdiv_lt_0_compat; [exact Hx|].
  apply sqrt_lt_R0. assert (0 <= x ^ 2) by apply pow2_ge_0. lra.
Qed.

Lemma Phi_sigmoid_increase (s : R) :
  0 < s -> Phi erf_sigmoid 0 < Phi erf_sigmoid s.
Proof.
  intros Hs. unfold Phi.
  assert (Hc : 0 < sqrt (PI / 2)).
  { apply sqrt_lt_R0. pose proof PI_RGT_0. lra. }
  assert (Hs2 : 0 < sqrt 2) by (apply sqrt_lt_R0; lra).
  apply Rmult_lt_compat_l; [exact Hc|].
  replace (0 ^ 2 / 2) with 0 by (simpl; lra).
  replace (0 / sqrt 2) with 0 by (unfold Rdiv; ring).
  rewrite exp_0, erf_sigmoid_0.
  assert (He : 1 < exp (s ^ 2 / 2)).
  { rewrite <- exp_0. apply exp_increasing.
    assert (0 < s ^ 2) by (apply pow_lt; exact Hs). lra. }
  assert (Hf : 0 < erf_sigmoid (s / sqrt 2)).
  { apply erf_sigmoid_pos. apply Rdiv_lt_0_compat; assumption. }
  nra.
Qed.

(** C3, as stated, fails at tau_m = 10 ms, tau_s = 0.5 ms, tau_r = 2 ms,
    V_th = 15 mV, V_0 = 0 mV, mu = 0 mV, sigma = 5 mV: with
    zetac(0.5) = -2.46..., the source applies alpha = sqrt 2 * 1.46..., the
    formula of the claim sqrt 2 * 0.46..., and the two rates differ. *)
Lemma nu0_fb433_alpha_differs :
  exists (fuel : nat) (v w : R),
    nu0_fb433 erf_sigmoid zetac_half quad_midpoint fuel
      0.01 0.0005 0.002 15 0 0 5 = Ok v /\
    stationary_rate_filtered_claimed erf_sigmoid zetac_half quad_midpoint fuel
      0.01 0.0005 0.002 15 0 0 5 = Ok w /\
    v <> w.
Proof.
  destruct (fourcaud_brunel_inside erf_sigmoid quad_midpoint
              0.01 0.0005 0.002 15 0 0 5) as [n Hn];
    try (rewrite ?Rabs_15; lra); [apply quad_midpoint_nonneg|].
  destruct (Hn n (Nat.le_refl n)) as (r & Hr & Heq).
  do 3 eexists. split; [|split].
  - rewrite nu0_fb433_unfold. apply Heq.
  - unfold stationary_rate_filtered_claimed. apply Heq.
  - assert (Hs2 : 0 < sqrt 2) by (apply sqrt_lt_R0; lra).
    assert (Hk : 0 < sqrt (0.0005 / 0.01)) by (apply sqrt_lt_R0; lra).
    assert (Hd : 0 < Phi erf_sigmoid (sqrt 2 * (15 - 0) / 5)
                     - Phi erf_sigmoid (sqrt 2 * (0 - 0) / 5)).
    { replace (sqrt 2 * (0 - 0) / 5) with 0 by lra.
      pose proof (Phi_sigmoid_increase (sqrt 2 * (15 - 0) / 5)) as Hi.
      assert (0 < sqrt 2 * (15 - 0) / 5) by lra.
      apply Hi in H. lra. }
    assert (Hrt : 0 < (r * 0.01) ^ 2) by (apply pow_lt; lra).
    assert (Hz : alpha_zeta zetac_half = sqrt 2 * 1.4603545088).
    { unfold alpha_zeta, riemann_zeta, zetac_half.
      rewrite Rabs_left by lra. lra. }
    assert (Hc : alpha_claimed zetac_half = sqrt 2 * 0.4603545088).
    { unfold alpha_claimed, riemann_zeta, zetac_half.
      rewrite Rabs_left by lra. lra. }
    rewrite Hz, Hc.
    set (d := Phi erf_sigmoid (sqrt 2 * (15 - 0) / 5)
              - Phi erf_sigmoid (sqrt 2 * (0 - 0) / 5)) in *.
    set (k := sqrt (0.0005 / 0.01)) in *.
    set (q := (r * 0.01) ^ 2) in *.
    assert (Hinv : 0 < / (0.01 * sqrt 2)).
    { apply Rinv_0_lt_compat. lra. }
    set (i := / (0.01 * sqrt 2)) in *.
    unfold Rdiv. fold i. clearbody d k q i.
    intros E.
    assert (E' : k * sqrt 2 * i * d * q = 0) by nra.
    assert (0 < k * sqrt 2 * i * d * q).
    { repeat apply Rmult_lt_0_compat; assumption. }
    lra.
Qed.

(** C1 at one population and two frequencies (mu = [-100] mV,
    sigma = [5] mV, omegas = [1; 2]): the matrix returned has two rows of
    one entry, not the one row of two that the claim and the docstring of
    transfer_function (one array for each population) describe. *)
Lemma transfer_function_not_population_major :
  exists (fuel : nat) (T : list (list complex)),
    transfer_function erf_sigmoid zetac_half quad_midpoint pcfu_const fuel
      [-100] [5] 0.01 0.0005 0.002 15 0 1 [1; 2] = Ok T /\
    ~ has_shape 1 2 T.
Proof.
  destruct (shift_returns_in_guard erf_sigmoid zetac_half quad_midpoint
              pcfu_const
              (-100) 5 0.01 0.0005 0.002 15 0) as [n Hn]; try lra.
  assert (H1 : 1e-15 <= Rabs (1 - 0)).
  { rewrite Rabs_pos_eq; lra. }
  assert (H2 : 1e-15 <= Rabs (2 - 0)).
  { rewrite Rabs_pos_eq; lra. }
  destruct (Hn n (Nat.le_refl n) 1 H1) as [v1 Hv1].
  destruct (Hn n (Nat.le_refl n) 2 H2) as [v2 Hv2].
  exists n, [[v1]; [v2]]. split.
  - apply transfer_function_Ok. split; [discriminate|]. split; [discriminate|].
    unfold frequency_major. simpl.
    repeat constructor; exists (-100), 5; repeat split; assumption.
  - intros [Hlen _]. simpl in Hlen. discriminate.
Qed.

Lemma shift_zero_frequency_type_error_witness :
  Rabs (0 - 0) < 1e-15 /\
  (forall mu_i sigma_i : R,
      transfer_function_1p_shift erf_sigmoid zetac_half quad_midpoint
        pcfu_const 10 mu_i sigma_i 0.01 0.0005 0.002 15 0 0
      = Raise TypeError) /\
  (forall T : list (list complex),
      transfer_function erf_sigmoid zetac_half quad_midpoint pcfu_const 10
        [-100] [5] 0.01 0.0005 0.002 15 0 1 [1; 0] <> Ok T).
Proof.
  assert (Hw : Rabs (0 - 0) < 1e-15).
  { replace (0 - 0) with 0 by lra. rewrite Rabs_R0. lra. }
  split; [exact Hw|].
  apply (shift_zero_frequency_type_error erf_sigmoid zetac_half quad_midpoint
           pcfu_const 10 [-100] [5] 0.01 0.0005 0.002 15 0 1 [1; 0] 0 Hw).
  simpl. auto.
Defined.

Lemma delay_dist_none_witness :
  has_shape 2 2 [[0.001; 0.002]; [0.003; 0.004]] /\
  delay_dist_matrix_single erf_sigmoid cerf_sigmoid 2
    [[0.001; 0.002]; [0.003; 0.004]] [[0; 0]; [0; 0]] "none" 0
  = Some [[RtoC 1; RtoC 1]; [RtoC 1; RtoC 1]].
Proof.
  assert (Hs : has_shape 2 2 [[0.001; 0.002]; [0.003; 0.004]]).
  { split; [reflexivity|]. repeat constructor. }
  split; [exact Hs|].
  apply (delay_dist_none erf_sigmoid cerf_sigmoid 2
           [[0.001; 0.002]; [0.003; 0.004]] [[0; 0]; [0; 0]] 0 Hs).
Defined.

Lemma sensitivity_measure_projection_witness :
  length [RtoC 1] = 1%nat /\
  sensitivity_measure eig_1x1 inv_1x1 [RtoC 1] [[RtoC 1]] [[1]]
    0.01 0.0005 1 1
  = sensitivity_spec eig_1x1 inv_1x1 [RtoC 1] [[RtoC 1]] [[1]]
      0.01 0.0005 1 1.
Proof.
  split; [reflexivity|].
  apply (sensitivity_measure_projection eig_1x1 inv_1x1 [RtoC 1] [[RtoC 1]]
           [[1]] 0.01 0.0005 1 1 eq_refl Nat.lt_0_1).
Defined.

Lemma inv_1x1_keeps_shape : inv_keeps_shape inv_1x1 1.
Proof.
  intros A Q _ H. unfold inv_1x1 in H.
  destruct A as [|[|a [|a' r]] [|r' A']]; try discriminate.
  destruct (Reqb (re a) 0 && Reqb (im a) 0); [discriminate|].
  injection H as <-. split; [reflexivity|]. repeat constructor.
Qed.

Lemma inv_1x1_Ok (a : complex) :
  re a <> 0 -> inv_1x1 [[a]] = Ok [[(RtoC 1 / a)%C]].
Proof.
  intros H. unfold inv_1x1.
  apply Reqb_false in H. rewrite H. reflexivity.
Qed.

Lemma power_spectra_nonneg_witness :
  exists power : list (list R),
    power_spectra inv_1x1 0.01 0.0005 1 [[1]] [[1]] [[[RtoC 1]]] [100] [5]
      [[RtoC 0]] [1] = Ok power /\
    has_shape 1 1 power /\
    Forall (Forall (fun x => 0 <= x)) power.
Proof.
  assert (Hrun : exists power,
             power_spectra inv_1x1 0.01 0.0005 1 [[1]] [[1]] [[[RtoC 1]]]
               [100] [5] [[RtoC 0]] [1] = Ok power).
  { unfold power_spectra, power_spectra_single_freq, stacked_H.
    cbn [enumerate length seq combine mapM fst snd index nth_error bind].
    rewrite (proj2 (Rltb_false 1 0)) by lra.
    cbn -[Cmul Cdiv Csub RtoC inv_1x1 dot_mm Cabs].
    rewrite inv_1x1_Ok by (simpl; lra).
    cbn [bind]. eexists. reflexivity. }
  destruct Hrun as [power Hrun]. exists power. split; [exact Hrun|].
  apply (power_spectra_nonneg inv_1x1 0.01 0.0005 1 [[1]] [[1]]
           [[[RtoC 1]]] [100] [5] [[RtoC 0]] [1] power).
  - exact inv_1x1_keeps_shape.
  - exact Nat.lt_0_1.
  - discriminate.
  - split; [reflexivity | repeat constructor].
  - split; [reflexivity | repeat constructor].
  - repeat constructor.
  - repeat constructor.
  - exact Hrun.
Defined.

(** One population without recurrent input and with inhibitory external
    drive (j = -0.1 mV, K_ext = 1000, nu_ext = 10 Hz): mu = -10 mV,
    sigma = 1 mV, the candidate rate is 0 and the first update already
    changes the rates by less than 1e-5. *)
Lemma firing_rates_relaxation_witness :
  exists (fuel : nat) (nu : list R),
    firing_rates erf_sigmoid zetac_half quad_midpoint fuel 1
      0.01 0.0005 0.002 0 15 [[0]] [[0]] (-0.1) 10 [1000] = Ok nu /\
    nu = [0].
Proof.
  assert (Hmean : mean [0] [[0]] [[0]] (-0.1) 0.01 10 [1000] = [-10]).
  { unfold mean, dot_mv, mat_map2, Rsum. cbn [map map2 fold_left].
    f_equal. lra. }
  assert (Hstd : standard_deviation [0] [[0]] [[0]] (-0.1) 0.01 10 [1000]
                 = [1]).
  { unfold standard_deviation, dot_mv, mat_map2, Rsum.
    cbn [map map2 fold_left]. f_equal.
    rewrite <- sqrt_1. f_equal. lra. }
  destruct (nu0_fb433_in_guard erf_sigmoid zetac_half quad_midpoint
              0.01 0.0005 0.002 15 0 (-10) 1) as [n Hn];
    try (rewrite ?Rabs_15; lra).
  assert (Hcand : candidate_rates erf_sigmoid zetac_half quad_midpoint (S n)
                    0.01 0.0005 0.002 0 15 [[0]] [[0]] (-0.1) 10 [1000] [0]
                  = Ok [0]).
  { unfold candidate_rates. rewrite Hmean, Hstd.
    cbn [combine mapM fst snd]. rewrite Hn by lia. reflexivity. }
  assert (Hstep : relaxation_step [0] [0] = [0]).
  { unfold relaxation_step. cbn [map2]. f_equal. lra. }
  exists (S n), [0]. split; [|reflexivity].
  apply (firing_rates_relaxation erf_sigmoid zetac_half quad_midpoint (S n) 1
           0.01 0.0005 0.002 0 15 [[0]] [[0]] (-0.1) 10 [1000] [0]).
  exists O. split; [lia|].
  unfold stops_at, np_zeros. cbn [repeat relaxation].
  rewrite Hcand. cbn [bind]. rewrite Hstep.
  split; [reflexivity|]. split.
  - exists [0], (Rabs (0 - 0)). split; [reflexivity|]. split; [reflexivity|].
    replace (0 - 0) with 0 by lra. rewrite Rabs_R0. lra.
  - intros i Hi. lia.
Defined.

(** * Examples for the further properties *)

Lemma siegert1_bracket_witness :
  0 < 3 /\
  exists n : nat, forall fuel : nat, (n <= fuel)%nat ->
    exists lb ub : R,
      siegert1_lower fuel 3 0 1.0 3 = Ok lb /\
      siegert1_upper fuel 3 0 1.0 3 = Ok ub /\
      0 < lb <= 3 /\ 3 <= ub /\
      (lb <= 1e-16 \/ siegert1_integrand 3 0 lb <= 1e-12) /\
      siegert1_integrand 3 0 ub <= 1e-12.
Proof.
  split; [lra|]. apply (siegert1_bracket 3 0). lra.
Defined.

Lemma nu_0_hangs_at_zero_threshold_witness :
  1e-12 < 2 * (- (-15) / 5) /\
  nu_0 quad_midpoint 1000 0.01 0.002 0 (-15) 0 5 = Diverge.
Proof.
  split; [lra|].
  apply (nu_0_hangs_at_zero_threshold quad_midpoint 1000 0.01 0.002 (-15) 5).
  lra.
Defined.

Lemma nu_0_refractory_bound_witness :
  exists n : nat, forall fuel : nat, (n <= fuel)%nat ->
    exists r : R,
      nu_0 quad_midpoint fuel 0.01 0.002 15 0 20 5 = Ok r /\
      0 <= r <= 1 / 0.002.
Proof.
  apply (nu_0_refractory_bound quad_midpoint 0.01 0.002 15 0 20 5);
    try lra.
  apply quad_midpoint_nonneg.
Defined.

Lemma spectral_functions_reject_length_witness :
  sensitivity_measure eig_1x1 inv_1x1 [RtoC 1; RtoC 1]
    [[RtoC 1]] [[1]] 0.01 0.0005 3 1 = Raise ValueError
  /\ power_spectra_single_freq inv_1x1 0.01 0.0005 [RtoC 1; RtoC 1] 3
       [[1]] [[1]] [[RtoC 1]] [5] [100] 1 = Raise ValueError.
Proof.
  apply (spectral_functions_reject_length eig_1x1 inv_1x1 [RtoC 1; RtoC 1]
           [[RtoC 1]] [[1]] [[1]] 0.01 0.0005 3 1 [5] [100]).
  simpl. discriminate.
Defined.

Lemma eigen_spectra_unknown_quantity_witness :
  eigen_spectra eig_1x1 inv_1x1 0.01 0.0005 [[RtoC 1]] 1 [[[RtoC 1]]] [[1]]
    [1] "eigenvalues" "MH" = Raise UnboundLocalError.
Proof.
  apply (eigen_spectra_unknown_quantity eig_1x1 inv_1x1 0.01 0.0005
           [[RtoC 1]] 1 [[[RtoC 1]]] [[1]] [1] "eigenvalues" "MH");
    discriminate.
Defined.

Lemma uncoupled_input_witness :
  mean [3] [[0]] [[0.1]] 0.1 0.01 10 [1000]
  = [0.1 * 1000 * 10 * 0.01]
  /\ standard_deviation [3] [[0]] [[0.1]] 0.1 0.01 10 [1000]
     = [sqrt (0.1 ^ 2 * 1000 * 10 * 0.01)].
Proof.
  apply (uncoupled_input [3] [[0]] [[0.1]] 0.1 0.01 10 [1000] 1);
    try reflexivity.
  repeat constructor.
Defined.

Lemma transfer_function_empty_witness :
  transfer_function erf_sigmoid zetac_half quad_midpoint pcfu_const 10
    [10] [5] 0.01 0.0005 0.002 15 0 1 [] = Raise IndexError.
Proof.
  apply (transfer_function_empty erf_sigmoid zetac_half quad_midpoint
           pcfu_const 10 [10] [5] 0.01 0.0005 0.002 15 0 1 []).
  left. reflexivity.
Defined.

(** One excitatory population without recurrent input (j = 0.1 mV,
    K_ext = 1000, nu_ext = 10 Hz, so mu = 10 mV and sigma = 1 mV). *)
Lemma firing_rates_uncoupled_witness :
  exists (c : list R) (n : nat),
    length c = 1%nat /\
    forall fuel : nat, (n <= fuel)%nat ->
      exists nu : list R,
        firing_rates erf_sigmoid zetac_half quad_midpoint fuel 1
          0.01 0.0005 0.002 0 15 [[0]] [[0.1]] 0.1 10 [1000] = Ok nu
        /\ Forall2 (fun v ci => Rabs (v - ci) < 1.9e-4) nu c.
Proof.
  assert (Hmean : mean (np_zeros 1) [[0]] [[0.1]] 0.1 0.01 10 [1000] = [10]).
  { unfold mean, dot_mv, mat_map2, Rsum, np_zeros.
    cbn [map map2 fold_left repeat]. f_equal. lra. }
  assert (Hstd : standard_deviation (np_zeros 1) [[0]] [[0.1]] 0.1 0.01 10
                   [1000] = [1]).
  { unfold standard_deviation, dot_mv, mat_map2, Rsum, np_zeros.
    cbn [map map2 fold_left repeat]. f_equal.
    rewrite <- sqrt_1. f_equal. lra. }
  destruct (fourcaud_brunel_inside erf_sigmoid quad_midpoint
              0.01 0.0005 0.002 15 0 10 1) as [n0 Hn0];
    try (rewrite ?Rabs_15; lra); [apply quad_midpoint_nonneg|].
  destruct (Hn0 n0 (Nat.le_refl n0)) as (r & _ & Hr).
  assert (Hc : exists v,
             candidate_rates erf_sigmoid zetac_half quad_midpoint n0
               0.01 0.0005 0.002 0 15 [[0]] [[0.1]] 0.1 10 [1000]
               (np_zeros 1) = Ok [v]).
  { unfold candidate_rates. rewrite Hmean, Hstd.
    cbn [combine mapM fst snd]. rewrite nu0_fb433_unfold, Hr.
    eexists. reflexivity. }
  destruct Hc as [v Hc].
  destruct (firing_rates_uncoupled erf_sigmoid zetac_half quad_midpoint n0 1
              0.01 0.0005 0.002 0 15 [[0]] [[0.1]] 0.1 10 [1000] [v])
    as [n Hn]; try reflexivity; try exact Hc.
  - repeat constructor.
  - exact Nat.lt_0_1.
  - exists [v], n. split; [reflexivity | exact Hn].
Defined.

(** The inhibitory example again: whatever the rates, the candidate of the
    single uncoupled population is evaluated at mu = -10 mV, sigma = 1 mV,
    inside the overflow guard. *)
Lemma inhibitory_candidate (fuel : nat) (nu c : list R) :
  candidate_rates erf_sigmoid zetac_half quad_midpoint fuel
    0.01 0.0005 0.002 0 15 [[0]] [[0]] (-0.1) 10 [1000] nu = Ok c ->
  c = [0].
Proof.
  unfold candidate_rates.
  destruct (uncoupled_mean nu [[0]] [[0]] (-0.1) 0.01 10 [1000] 1)
    as [-> ->]; try reflexivity; [repeat constructor|].
  cbn [map combine mapM fst snd].
  replace (-0.1 * 1000 * 10 * 0.01) with (-10) by lra.
  replace ((-0.1) ^ 2 * 1000 * 10 * 0.01) with 1 by lra.
  rewrite sqrt_1.
  destruct (nu0_fb433 _ _ _ _ _ _ _ _ _ _ _) as [r| |] eqn:Hr; cbn [bind];
    try discriminate.
  apply nu0_fb433_guard_value in Hr; try (rewrite ?Rabs_15; lra).
  intros H. injection H as <-. subst r. reflexivity.
Qed.

Lemma inhibitory_run :
  exists (fuel : nat) (nu : list R),
    firing_rates erf_sigmoid zetac_half quad_midpoint fuel 1
      0.01 0.0005 0.002 0 15 [[0]] [[0]] (-0.1) 10 [1000] = Ok nu.
Proof.
  destruct (nu0_fb433_in_guard erf_sigmoid zetac_half quad_midpoint
              0.01 0.0005 0.002 15 0 (-10) 1) as [n Hn];
    try (rewrite ?Rabs_15; lra).
  assert (Hcand : candidate_rates erf_sigmoid zetac_half quad_midpoint (S n)
                    0.01 0.0005 0.002 0 15 [[0]] [[0]] (-0.1) 10 [1000] [0]
                  = Ok [0]).
  { unfold candidate_rates.
    destruct (uncoupled_mean [0] [[0]] [[0]] (-0.1) 0.01 10 [1000] 1)
      as [-> ->]; try reflexivity; [repeat constructor|].
    cbn [map combine mapM fst snd].
    replace (-0.1 * 1000 * 10 * 0.01) with (-10) by lra.
    replace ((-0.1) ^ 2 * 1000 * 10 * 0.01) with 1 by lra.
    rewrite sqrt_1, Hn by lia. reflexivity. }
  exists (S n), (relaxation_step [0] [0]).
  unfold firing_rates, np_zeros. cbn [repeat firing_rates_loop].
  rewrite (proj2 (Rgeb_true 1.0 1e-5)) by lra.
  rewrite get_rate_difference_unfold, Hcand. cbn [bind].
  rewrite euler_update.
  assert (Hmax : py_max (map Rabs (map2 Rminus (relaxation_step [0] [0]) [0]))
                 = Ok (Rabs (0 + 0.05 * (0 - 0) - 0))) by reflexivity.
  rewrite Hmax. cbn [bind].
  apply firing_rates_loop_done.
  replace (0 + 0.05 * (0 - 0) - 0) with 0 by lra. rewrite Rabs_R0. lra.
Qed.

Lemma firing_rates_between_witness :
  exists (fuel : nat) (nu : list R),
    firing_rates erf_sigmoid zetac_half quad_midpoint fuel 1
      0.01 0.0005 0.002 0 15 [[0]] [[0]] (-0.1) 10 [1000] = Ok nu
    /\ Forall (fun x => 0 <= x <= 1) nu.
Proof.
  destruct inhibitory_run as (fuel & nu & Hrun).
  exists fuel, nu. split; [exact Hrun|].
  apply (firing_rates_between erf_sigmoid zetac_half quad_midpoint 0 1 fuel 1
           0.01 0.0005 0.002 0 15 [[0]] [[0]] (-0.1) 10 [1000] nu).
  - lra.
  - intros nu' c Hc. apply inhibitory_candidate in Hc. subst c.
    constructor; [lra | constructor].
  - exact Hrun.
Defined.

Lemma eig_1x1_keeps_shape : eig_keeps_shape eig_1x1 1.
Proof.
  intros A e U _ H. unfold eig_1x1 in H.
  destruct A as [|[|a [|a' r]] [|r' A']]; try discriminate.
  injection H as <- <-. split; [reflexivity|].
  split; [reflexivity | repeat constructor].
Qed.

Lemma sensitivity_measure_returns_witness :
  exists T : list (list complex),
    sensitivity_measure eig_1x1 inv_1x1 [RtoC 1] [[RtoC 1]] [[1]]
      0.01 0.0005 1 1 = Ok T
    /\ has_shape 1 1 T.
Proof.
  assert (HMH : exists a,
             effective_connectivity [RtoC 1] [[RtoC 1]] [[1]] 0.01 0.0005 1 1
             = [[a]]).
  { unfold effective_connectivity, scaled_response.
    rewrite (proj2 (Rltb_false 1 0)) by lra. eexists. reflexivity. }
  destruct HMH as [a Ha].
  apply (sensitivity_measure_returns eig_1x1 inv_1x1 [RtoC 1] [[RtoC 1]]
           [[1]] 0.01 0.0005 1 1 [a] [[RtoC 1]] [[(RtoC 1 / RtoC 1)%C]]).
  - exact eig_1x1_keeps_shape.
  - exact inv_1x1_keeps_shape.
  - exact Nat.lt_0_1.
  - reflexivity.
  - split; [reflexivity | repeat constructor].
  - split; [reflexivity | repeat constructor].
  - rewrite Ha. reflexivity.
  - apply inv_1x1_Ok. simpl. lra.
Defined.

Lemma eigen_spectra_together_witness :
  exists es : list (list complex),
    eigen_spectra eig_1x1 inv_1x1 0.01 0.0005 [[RtoC 1]] 1 [[[RtoC 1]]]
      [[1]] [1] "eigvals" "MH" = Ok (Eigenvalues es)
    /\ length es = length [1].
Proof.
  apply (proj2 (proj1 (eigen_spectra_together eig_1x1 inv_1x1 0.01 0.0005
                         [[RtoC 1]] 1 [[[RtoC 1]]] [[1]] [1] "MH"))).
  unfold eigen_spectra, eigen_spectra_single_freq, stacked_H.
  simpl String.eqb. cbv iota.
  cbn [enumerate length seq combine mapM fst snd index nth_error bind].
  rewrite (proj2 (Rltb_false 1 0)) by lra.
  cbn -[Cmul Cdiv Csub RtoC inv_1x1 Cabs].
  rewrite inv_1x1_Ok by (simpl; lra).
  cbn [bind mapM]. eexists. split; reflexivity.
Defined.

Lemma siegert2_returns_witness :
  exists n : nat, forall fuel : nat, (n <= fuel)%nat ->
    exists j : nat,
      siegert2 quad_midpoint fuel 0.01 0.002 15 0 20 5
      = Ok (1.0 / (0.002
                   + quad_midpoint (siegert2_integrand ((15 - 20) / 5)
                                      ((0 - 20) / 5)) 0.0 (2 ^ S j)
                     * 0.01)).
Proof.
  apply (siegert2_returns quad_midpoint 0.01 0.002 15 0 20 5). lra.
Defined.

Lemma nu0_fb433_delta_limit_witness :
  nu0_fb433 erf_sigmoid zetac_half quad_midpoint 50 0.01 0 0.002 15 0 10 5
  = nu_0 quad_midpoint 50 0.01 0.002 15 0 10 5.
Proof.
  apply (nu0_fb433_delta_limit erf_sigmoid zetac_half quad_midpoint 50
           0.01 0.002 15 0 10 5); lra.
Defined.

Lemma Phi_prime_mu_Phi_witness :
  Phi_prime_mu erf_sigmoid 1 5
  = - (sqrt 2 / 5) * (1 * Phi erf_sigmoid 1 + 1).
Proof.
  apply (Phi_prime_mu_Phi erf_sigmoid 1 5). lra.
Defined.

(** A working point below threshold with a positive rate: mu = 10 mV,
    sigma = 5 mV, V_th = 15 mV. *)
Lemma positive_rate_example :
  exists (fuel : nat) (nu0 : R),
    nu_0 quad_midpoint fuel 0.01 0.002 15 0 10 5 = Ok nu0 /\ 0 < nu0.
Proof.
  destruct (siegert1_reciprocal quad_midpoint 15 0 10 5 0.01) as [n Hn];
    try lra; [apply quad_midpoint_nonneg|].
  destruct (Hn n (Nat.le_refl n)) as (integral & Hi & Heq).
  exists n, (1 / (0.002 + 0.01 * integral)). split.
  - unfold nu_0. rewrite Rabs_15.
    rewrite (proj2 (Rleb_true 10 (15 + (0.95 * 15 - 15)))) by lra.
    apply Heq.
  - apply Rdiv_lt_0_compat; [lra|].
    assert (0 <= 0.01 * integral) by (apply Rmult_le_pos; lra). lra.
Qed.

Lemma d_nu_d_mu_fb433_delta_limit_witness :
  exists (fuel : nat) (v : R),
    d_nu_d_mu erf_sigmoid quad_midpoint fuel 0.01 0.002 15 0 10 5 = Ok v /\
    d_nu_d_mu_fb433 erf_sigmoid zetac_half quad_midpoint fuel
      0.01 0 0.002 15 0 10 5 = Ok v.
Proof.
  destruct positive_rate_example as (fuel & nu0 & Hnu & Hpos).
  exists fuel.
  apply (d_nu_d_mu_fb433_delta_limit erf_sigmoid zetac_half quad_midpoint
           fuel 0.01 0.002 15 0 10 5 nu0); try lra. exact Hnu.
Defined.

Lemma Psi_difference_example :
  Psi_x_r pcfu_const (py_complex (-0.5) (py_complex1 (1 * 0.01)))
    (sqrt 2 * (15 - 10) / 5) (sqrt 2 * (0 - 10) / 5) <> RtoC 0.
Proof.
  intros E. apply (f_equal re) in E.
  unfold Psi_x_r, Psi, pcfu_const, Csub, Cmul, RtoC in E.
  cbn [re im] in E.
  assert (Ht : (sqrt 2 * (15 - 10) / 5) ^ 2 = 2).
  { replace (sqrt 2 * (15 - 10) / 5) with (sqrt 2) by lra.
    apply pow2_sqrt. lra. }
  assert (Hr : (sqrt 2 * (0 - 10) / 5) ^ 2 = 8).
  { replace (sqrt 2 * (0 - 10) / 5) with (- (2 * sqrt 2)) by lra.
    replace ((- (2 * sqrt 2)) ^ 2) with (4 * sqrt 2 ^ 2) by ring.
    rewrite pow2_sqrt by lra. lra. }
  rewrite Ht, Hr in E.
  assert (Hlt : exp (0.25 * 2) < exp (0.25 * 8)).
  { apply exp_increasing. lra. }
  lra.
Qed.

Lemma transfer_function_variants_agree_witness :
  exists (fuel : nat) (v : complex),
    transfer_function_1p_shift erf_sigmoid zetac_half quad_midpoint
      pcfu_const fuel 10 5 0.01 0 0.002 15 0 1 = Ok v /\
    transfer_function_1p_taylor erf_sigmoid zetac_half quad_midpoint
      pcfu_const fuel 10 5 0.01 0 0.002 15 0 1 = Ok v.
Proof.
  destruct positive_rate_example as (fuel & nu0 & Hnu & Hpos).
  exists fuel.
  apply (transfer_function_variants_agree erf_sigmoid zetac_half
           quad_midpoint pcfu_const fuel 10 5 0.01 0.002 15 0 1 nu0);
    try lra.
  - rewrite Rabs_pos_eq; lra.
  - exact Hnu.
  - exact Psi_difference_example.
Defined.

Lemma taylor_zero_frequency_witness :
  exists (fuel : nat) (v : R),
    d_nu_d_mu_fb433 erf_sigmoid zetac_half quad_midpoint fuel
      0.01 0.0005 0.002 15 0 10 5 = Ok v
    /\ transfer_function_1p_taylor erf_sigmoid zetac_half quad_midpoint
         pcfu_const fuel 10 5 0.01 0.0005 0.002 15 0 0 = Ok (RtoC v).
Proof.
  destruct positive_rate_example as (fuel & nu0 & Hnu & Hpos).
  assert (Hw : Rabs (0 - 0) < 1e-15).
  { replace (0 - 0) with 0 by lra. rewrite Rabs_R0. lra. }
  exists fuel.
  apply (taylor_zero_frequency erf_sigmoid zetac_half quad_midpoint
           pcfu_const fuel 10 5 0.01 0.0005 0.002 15 0 0 nu0 Hw);
    try lra. exact Hnu.
Defined.
